(** * zyzzyva-dawg: a shallow embedding of the DAWG compiler and decompiler

    The development follows [src/zyzzyva-dawg.cpp].  Part I embeds the
    program: [Node], [WordBuffer], [EdgeList], [Dawg] (with [save], [dump],
    [load], [insertEdges], [parse]) and [main].  Part II gives the
    specification-level notions the theorems are stated with.  Parts III
    and IV prove the properties.

    Conventions of the embedding.
    - [uint32_t] and [size_t] values are integers in [Z]; 32-bit wrap-around
      is written [uint32] wherever the C++ arithmetic can overflow.
    - [char] and [unsigned char] are [ascii] (one byte).  Whether plain
      [char] is signed is implementation-defined, so every function that
      compares plain characters takes the flag [char_signed].
    - [std::string] is a list of characters.  [WordBuffer::next] measures
      a distance from the start of a string that it has just moved from, so
      its result depends on where the library keeps the characters: the
      size of the buffer inside a string object ([LOCAL_CAPACITY]) and the
      distance between two buffers (the parameter [gap]) are part of the
      embedding of [next].
    - [std::vector<Node>] is [list Node]; a [Node const *] into the arena is
      the index it points at.
    - [std::array<size_t, HASH_TABLE_SIZE>] is a finite map from slot to
      contents, an absent key standing for the initial zero.
    - A C++ exception is [Throw]; a read outside the object it is made in
      (undefined behaviour) is [Undefined]; loops that the C++ code runs
      without a structural bound take fuel and report [Timeout] when it is
      exhausted. *)

From Stdlib Require Import ZArith Lia List Ascii String Bool Sorted.
From stdpp Require Import gmap list.

Local Open Scope Z_scope.

(** * Part I.  The program *)

(** ** Integers and characters *)

Definition uint32 (z : Z) : Z := z mod 2 ^ 32.

(** The value of a character read as [unsigned char]. *)
Definition uchar (c : ascii) : Z := Z.of_N (N_of_ascii c).

(** Conversion of an integer to [unsigned char]. *)
Definition to_uchar (z : Z) : ascii := ascii_of_N (Z.to_N (z mod 256)).

(** The value of a character read as plain [char]. *)
Definition char_value (char_signed : bool) (c : ascii) : Z :=
  if char_signed && (128 <=? uchar c) then uchar c - 256 else uchar c.

(** [a < b] on plain [char]. *)
Definition char_lt (char_signed : bool) (a b : ascii) : bool :=
  char_value char_signed a <? char_value char_signed b.

Definition NUL : ascii := Ascii.zero.

Definition MAX_CHARS : Z := 256.

(** MUST be prime ... pick one about 20% larger than needed *)
Definition HASH_TABLE_SIZE : Z := 240007.

(** [output]: one 32-bit word written as its four bytes in memory order
    (little-endian, the byte order of the file format). *)
Definition output (v : Z) : list ascii :=
  [to_uchar v; to_uchar (Z.shiftr v 8); to_uchar (Z.shiftr v 16); to_uchar (Z.shiftr v 24)].

(** The 32-bit word stored in four bytes. *)
Definition word_of_bytes (b0 b1 b2 b3 : ascii) : Z :=
  uchar b0 + Z.shiftl (uchar b1) 8 + Z.shiftl (uchar b2) 16 + Z.shiftl (uchar b3) 24.

(** ** Exceptions and results *)

Inductive exception : Type :=
| OutOfOrder       (* logic_error "Out of order strings" *)
| PrefixOverflow   (* logic_error "common prefix length longer than previous word!" *)
| DanglingEdges    (* logic_error "End of input, but edges still pending" *)
| HashTableFull    (* logic_error "Hash table full" *)
| CorruptFile.     (* runtime_error "Input DAWG file appears to be corrupt" *)

Inductive result (A : Type) : Type :=
| Ok (a : A)
| Throw (e : exception)
| Undefined
| Timeout.

Arguments Ok {A} a.
Arguments Throw {A} e.
Arguments Undefined {A}.
Arguments Timeout {A}.

Definition rbind {A B : Type} (r : result A) (k : A -> result B) : result B :=
  match r with
  | Ok a => k a
  | Throw e => Throw e
  | Undefined => Undefined
  | Timeout => Timeout
  end.

Notation "'do' x <- r ; k" := (rbind r (fun x => k))
  (at level 10, x pattern, r at level 100, k at level 200).

(** ** struct Node *)

Record Node : Type := mkNode { value : Z }.

Definition letter_mask  : Z := 0xff000000.
Definition end_of_word  : Z := 0x00800000.
Definition end_of_node  : Z := 0x00400000.
Definition reserve_bit  : Z := 0x00200000.
Definition offset_mask  : Z := 0x001fffff.
Definition letter_shift : Z := 24.

(** [Node()] *)
Definition Node_default : Node := mkNode 0.

(** [Node(unsigned char letter, bool ends_word)] *)
Definition Node_new (letter : ascii) (ends_word : bool) : Node :=
  mkNode (Z.lor (Z.shiftl (uchar letter) letter_shift)
                (if ends_word then end_of_word else 0)).

Definition isEndOfWord (n : Node) : bool := negb (Z.land (value n) end_of_word =? 0).
Definition isEndOfNode (n : Node) : bool := negb (Z.land (value n) end_of_node =? 0).
Definition getOffset (n : Node) : Z := Z.land (value n) offset_mask.
Definition getChar (n : Node) : ascii :=
  to_uchar (Z.shiftr (Z.land (value n) letter_mask) letter_shift).
Definition setEndOfNode (n : Node) : Node := mkNode (Z.lor (value n) end_of_node).

(** The parameter is a [uint32_t]: the [size_t] argument is converted. *)
Definition setChildOffset (n : Node) (node : Z) : Node :=
  mkNode (Z.lor (value n) (Z.land (uint32 node) offset_mask)).

(** [operator==] *)
Definition Node_eqb (a b : Node) : bool := value a =? value b.

(** [write] *)
Definition Node_write (n : Node) : list ascii := output (value n).

Definition hash_fn (r : Z) (n : Node) : Z :=
  Z.lxor (value n) (Z.lor (uint32 (Z.shiftl r 1)) (Z.shiftr r 31)).

(** ** struct WordBuffer *)

Abbreviation word := (list ascii).

(** The white space that formatted extraction skips (the "C" locale). *)
Definition isspace (c : ascii) : bool :=
  let v := uchar c in (v =? 32) || ((9 <=? v) && (v <=? 13)).

(** The successive results of [input >> s] on a stream holding [text]: its
    maximal runs of characters that are not white space.  [cur] is the run
    being read, last character first. *)
Fixpoint tokens_from (cur : word) (text : list ascii) : list word :=
  match text with
  | [] => match cur with [] => [] | _ => [rev cur] end
  | c :: rest =>
      if isspace c
      then match cur with
           | [] => tokens_from [] rest
           | _ => rev cur :: tokens_from [] rest
           end
      else tokens_from (c :: cur) rest
  end.

Definition tokens (text : list ascii) : list word := tokens_from [] text.

(** The stream is kept as the tokens still to be extracted. *)
Record WordBuffer : Type := mkWordBuffer {
  count : Z;
  current : word;
  input : list word
}.

Definition WordBuffer_new (input : list word) : WordBuffer :=
  mkWordBuffer 0 [] input.

(** [while ((input >> s) && s.size() < 2) ++count;]
    An extraction that fails (nothing left but white space) leaves [s] as
    it is: the string is erased only once the stream's sentry has succeeded. *)
Fixpoint skip_short (input : list word) (s : word) (count : Z)
  : word * list word * Z :=
  match input with
  | [] => (s, [], count)
  | t :: rest =>
      if (length t <? 2)%nat then skip_short rest t (count + 1)
      else (t, rest, count)
  end.

(** [std::mismatch(s.cbegin(), s.cend(), t)]: the first position at which
    [s] and the range starting at [t] differ, [length s] if there is none.
    [None] when the second range is exhausted first, a read past its end. *)
Fixpoint mismatch (s t : word) : option nat :=
  match s with
  | [] => Some 0%nat
  | a :: s' =>
      match t with
      | [] => None
      | b :: t' => if Ascii.eqb a b then S <$> mismatch s' t' else Some 0%nat
      end
  end.

(** The characters at [current.data()], with the terminating NUL. *)
Definition data (current : word) : word := current ++ [NUL].

(** The strings of the C++ library that the program is built with (GNU
    libstdc++): a string of up to 15 characters is kept inside the string
    object, a longer one in a buffer on the heap. *)
Definition LOCAL_CAPACITY : nat := 15.

(** [std::distance(s.cbegin(), search.first)], taken after
    [current = std::move(s)] and converted to [size_t] (64 bits).
    [search.first] still points [p] characters into the buffer that held
    the token.  A token of up to 15 characters was copied out of [s], which
    keeps its buffer: the distance is [p].  A longer token was handed over
    to [current] with its heap buffer, and [s] now begins in another buffer
    (its own local one, or the heap buffer that [current] gave up): the
    distance is [p] plus [gap], the address of the token's buffer minus the
    address at which [s] now begins. *)
Definition distance_after_move (gap : Z) (s : word) (p : nat) : Z :=
  if (length s <=? LOCAL_CAPACITY)%nat then Z.of_nat p
  else (gap + Z.of_nat p) mod 2 ^ 64.

(** Two buffers are two objects: the buffer of the token [s] ends before
    the one in which the moved-from string begins, or begins after it.  The
    latter has 16 bytes at least, and room for the current word [cur] and
    its NUL when it is the heap buffer that [current] gave up.  Addresses
    and lengths fit [ptrdiff_t]. *)
Definition apart (gap : Z) (s cur : word) : Prop :=
  Z.of_nat (length cur) < 2 ^ 63
  /\ ((- 2 ^ 63 <= gap /\ gap + Z.of_nat (length s) < 0)
      \/ (Z.max 16 (Z.of_nat (length cur) + 1) <= gap
          /\ gap + Z.of_nat (length s) < 2 ^ 63)).

(** A layout for the examples: every token that goes to the heap lies
    2^20 bytes below the place where the moved-from string begins. *)
Definition heap_below (k : nat) : Z := - 2 ^ 20.

(** [WordBuffer::next].  [gap] is where the memory allocator has put the
    token, see [distance_after_move]. *)
Definition next (char_signed : bool) (gap : Z) (wb : WordBuffer)
  : result ((Z * word) * WordBuffer) :=
  let '(s, input', count') := skip_short (input wb) [] (count wb) in
  match mismatch s (data (current wb)) with
  | None => Undefined
  | Some p =>
      if negb (length s =? 0)%nat
         && ((p =? length s)%nat
             || char_lt char_signed (nth p s NUL) (nth p (data (current wb)) NUL))
      then Throw OutOfOrder
      else Ok ((distance_after_move gap s p, s), mkWordBuffer count' s input')
  end.

(** ** struct EdgeList *)

Abbreviation EdgeList := (list Node).

Definition hash (edges : EdgeList) : Z :=
  fold_left hash_fn edges 0 mod HASH_TABLE_SIZE.

(** [std::equal(edges.cbegin(), edges.cend(), dawg.begin() + start)]:
    compares left to right and stops at the first difference; [None] when
    it has to read the arena at or past its end. *)
Fixpoint equal (edges : EdgeList) (dawg : list Node) (start : nat) : option bool :=
  match edges with
  | [] => Some true
  | e :: es =>
      match dawg !! start with
      | None => None
      | Some n => if Node_eqb e n then equal es dawg (S start) else Some false
      end
  end.

(** ** struct Dawg *)

Record Dawg : Type := mkDawg {
  dawg : list Node;
  hash_table : gmap Z Z
}.

(** [hash_table[h]] *)
Definition slot (d : Dawg) (h : Z) : Z := default 0 (hash_table d !! h).

(** [Dawg()]: space for the root nodes, and an empty table. *)
Definition Dawg_new : Dawg :=
  mkDawg (replicate (Z.to_nat MAX_CHARS) Node_default) ∅.

Definition size (d : Dawg) : Z := Z.of_nat (length (dawg d)).

Definition save (d : Dawg) : list ascii :=
  output (uint32 (size d)) ++ flat_map Node_write (dawg d).

(** The letters printed for one word: [os << n->getChar()] for every
    pointer of the stack, bottom first.  [stack] has its top first. *)
Fixpoint stack_letters (dawg : list Node) (stack : list nat) : option word :=
  match stack with
  | [] => Some []
  | p :: below =>
      match stack_letters dawg below, dawg !! p with
      | Some w, Some n => Some (w ++ [getChar n])
      | _, _ => None
      end
  end.

(** [while (!stack.empty() && (stack.back()++)->isEndOfNode()) stack.pop_back();] *)
Fixpoint advance (dawg : list Node) (stack : list nat) : option (list nat) :=
  match stack with
  | [] => Some []
  | p :: below =>
      match dawg !! p with
      | None => None
      | Some n => if isEndOfNode n then advance dawg below else Some (S p :: below)
      end
  end.

(** How a traversal ends: normally, by the [std::out_of_range] of [at()]
    (caught, with a diagnostic on the error stream), by a read of the arena
    through a pointer outside it, or not within the fuel. *)
Inductive dump_status : Type :=
| Finished
| CorruptGraph
| OutOfBounds
| OutOfFuel.

(** [Dawg::dump]: the body of the [while (!stack.empty())] loop.  [os] is
    what has been written to the output stream. *)
Fixpoint dump_loop (fuel : nat) (dawg : list Node) (stack : list nat) (os : list ascii)
  : list ascii * dump_status :=
  match fuel with
  | O => (os, OutOfFuel)
  | S fuel' =>
      match stack with
      | [] => (os, Finished)
      | p :: _ =>
          match dawg !! p with
          | None => (os, OutOfBounds)
          | Some n =>
              match (if isEndOfWord n
                     then (fun w => os ++ w ++ ["010"%char]) <$> stack_letters dawg stack
                     else Some os) with
              | None => (os, OutOfBounds)
              | Some os' =>
                  let next := getOffset n in
                  if negb (next =? 0) then
                    if next - 1 <? Z.of_nat (length dawg)
                    then dump_loop fuel' dawg (Z.to_nat (next - 1) :: stack) os'
                    else (os', CorruptGraph)
                  else
                    match advance dawg stack with
                    | None => (os', OutOfBounds)
                    | Some stack' => dump_loop fuel' dawg stack' os'
                    end
              end
          end
      end
  end.

(** [std::vector<Node const *> stack { 1, &dawg[0] };] *)
Definition dump (fuel : nat) (d : Dawg) : list ascii * dump_status :=
  dump_loop fuel (dawg d) [0%nat] [].

(** [is.read(dawg.data(), edges * 4)] into a zero-filled vector of [n]
    nodes: bytes the file does not have leave the zeros in place. *)
Fixpoint read_nodes (n : nat) (bytes : list ascii) : list Node :=
  match n with
  | O => []
  | S n' =>
      mkNode (word_of_bytes (nth 0 bytes NUL) (nth 1 bytes NUL)
                            (nth 2 bytes NUL) (nth 3 bytes NUL))
      :: read_nodes n' (drop 4 bytes)
  end.

(** The header check of [Dawg::load]: the edge count, or the exception.
    A file too short to hold the count leaves [edges] uninitialised. *)
Definition load_header (file : list ascii) : result Z :=
  match file with
  | b0 :: b1 :: b2 :: b3 :: _ =>
      let size := Z.of_nat (length file) in
      let edges := word_of_bytes b0 b1 b2 b3 in
      if negb (uint32 (edges * 4 + 4) =? size) then Throw CorruptFile
      else Ok edges
  | _ => Undefined
  end.

Definition load (d : Dawg) (file : list ascii) : result Dawg :=
  do edges <- load_header file;
  Ok (mkDawg (read_nodes (Z.to_nat edges) (drop 4 file)) (hash_table d)).

Definition hash_modulo_increment (base inc : Z) : Z :=
  let base := base + inc in
  if base >=? HASH_TABLE_SIZE then base - HASH_TABLE_SIZE else base.

(** The [do ... while (hash != initial_hash)] loop of [insertEdges], entered
    at the slot [hash] with the increment [inc]. *)
Fixpoint probe (fuel : nat) (d : Dawg) (edges : EdgeList) (initial_hash hash inc : Z)
  : result (Z * Dawg) :=
  match fuel with
  | O => Timeout
  | S fuel' =>
      if slot d hash =? 0 then
        (* This slot was free - add this set of edges to the DAWG *)
        let d' := mkDawg (dawg d ++ edges) (<[hash := size d]> (hash_table d)) in
        Ok (slot d' hash + 1, d')
      else
        match equal edges (dawg d) (Z.to_nat (slot d hash)) with
        | None => Undefined
        | Some true => Ok (slot d hash + 1, d)
        | Some false =>
            (* Look for the next slot *)
            let hash' := hash_modulo_increment hash inc in
            let inc' := hash_modulo_increment inc 8 in
            if negb (hash' =? initial_hash)
            then probe fuel' d edges initial_hash hash' inc'
            else Throw HashTableFull
        end
  end.

Definition insertEdges (d : Dawg) (edges : EdgeList) : result (Z * Dawg) :=
  let initial_hash := hash edges in
  probe (Z.to_nat HASH_TABLE_SIZE) d edges initial_hash initial_hash 9.

(** [v.back() = f(v.back())]; nothing to update in an empty vector. *)
Fixpoint update_back (f : Node -> Node) (v : list Node) : list Node :=
  match v with
  | [] => []
  | [n] => [f n]
  | n :: v' => n :: update_back f v'
  end.

(** The vector [edges] of [parse] is kept with its back first: the head of
    the list is [edges.back()]. *)

(** [while (idx > next.first) { ... --idx; }], for [k = idx - next.first]
    rounds.  Popping the last list, or updating the last edge of an empty
    list, is [Undefined]. *)
Fixpoint unwind (k : nat) (edges : list EdgeList) (d : Dawg)
  : result (list EdgeList * Dawg) :=
  match k with
  | O => Ok (edges, d)
  | S k' =>
      match edges with
      | ready :: edges' =>
          match ready with
          | [] => unwind k' edges' d
          | _ :: _ =>
              let ready := update_back setEndOfNode ready in
              do (offset, d') <- insertEdges d ready;
              match edges' with
              | (_ :: _) as parent :: below =>
                  unwind k' (update_back (fun n => setChildOffset n offset) parent :: below) d'
              | _ => Undefined
              end
          end
      | [] => Undefined
      end
  end.

(** [while (idx < next.second.size()) { ... }], over the characters
    [next.second[idx], ...] still to add; [last_in_word] holds on the last. *)
Fixpoint extend (letters : word) (edges : list EdgeList) : result (list EdgeList) :=
  match letters with
  | [] => Ok edges
  | c :: rest =>
      match edges with
      | top :: below =>
          let last_in_word := (length rest =? 0)%nat in
          extend rest ([] :: (top ++ [Node_new c last_in_word]) :: below)
      | [] => Undefined
      end
  end.

(** The state of the [for (;;)] loop of [parse]. *)
Record parse_state : Type := mkParseState {
  ps_word : WordBuffer;
  ps_edges : list EdgeList;
  ps_idx : nat;
  ps_dawg : Dawg
}.

(** One round of the loop: [inl] to go round again, [inr] on [break].
    [first] and [idx] are compared as the [size_t] values they are. *)
Definition parse_round (char_signed : bool) (gap : Z) (st : parse_state)
  : result (parse_state + (list EdgeList * Dawg)) :=
  do ((first, second), wb) <- next char_signed gap (ps_word st);
  if (Z.of_nat (ps_idx st) <? first) then Throw PrefixOverflow
  else
    let first := Z.to_nat first in
    (* Unwind and commit the sets of edges back to the common point *)
    do (edges, d) <- unwind (ps_idx st - first) (ps_edges st) (ps_dawg st);
    let idx := first in
    if (length second =? 0)%nat then
      if negb (idx =? 0)%nat then Throw DanglingEdges
      else Ok (inr (edges, d))
    else
      (* Now we can add the new characters of the next word *)
      do edges' <- extend (drop idx second) edges;
      Ok (inl (mkParseState wb edges' (Nat.max idx (length second)) d)).

(** The [for (;;)] loop.  [gaps k] is where the allocator puts the token
    of the [k]-th round from here. *)
Fixpoint parse_loop (fuel : nat) (char_signed : bool) (gaps : nat -> Z)
    (st : parse_state) : result (list EdgeList * Dawg) :=
  match fuel with
  | O => Timeout
  | S fuel' =>
      do r <- parse_round char_signed (gaps 0%nat) st;
      match r with
      | inl st' => parse_loop fuel' char_signed (fun k => gaps (S k)) st'
      | inr done => Ok done
      end
  end.

(** The final act of [parse]: the root edge list is closed, resized to
    [MAX_CHARS] entries, closed again and copied to the front of the arena. *)
Definition finish (edges : list EdgeList) (d : Dawg) : result Dawg :=
  match edges with
  | root :: _ =>
      let root := update_back setEndOfNode root in
      let root := resize (Z.to_nat MAX_CHARS) Node_default root in
      let root := update_back setEndOfNode root in
      if (length (dawg d) <? length root)%nat then Undefined
      else Ok (mkDawg (root ++ drop (length root) (dawg d)) (hash_table d))
  | [] => Undefined
  end.

(** [Dawg::parse], on the tokens of the stream.  Every round but the last
    extracts at least one token, so the fuel is never exhausted. *)
Definition parse (char_signed : bool) (gaps : nat -> Z) (d : Dawg) (input : list word)
  : result Dawg :=
  do (edges, d') <- parse_loop (S (S (length input))) char_signed gaps
                       (mkParseState (WordBuffer_new input) [[]] 0 d);
  finish edges d'.

(** ** main *)

(** [create <input> <output>]: the exit code and, when [save] is reached,
    the bytes of the output file.  A [None] stands for an execution whose
    behaviour the C++ standard leaves undefined. *)
Definition main_create (char_signed : bool) (gaps : nat -> Z) (text : list ascii)
  : option (Z * option (list ascii)) :=
  match parse char_signed gaps Dawg_new (tokens text) with
  | Ok d => Some (0, Some (save d))
  | Throw _ => Some (1, None)
  | Undefined | Timeout => None
  end.

(** What [dump <input> <output>] leaves behind: the exit code, the text
    written, and whether the corruption diagnostic went to the error stream. *)
Record dump_run : Type := mkDumpRun {
  exit_code : Z;
  written : list ascii;
  diagnostic : bool
}.

Definition main_dump (fuel : nat) (file : list ascii) : option dump_run :=
  match load Dawg_new file with
  | Ok d =>
      match dump fuel d with
      | (os, Finished) => Some (mkDumpRun 0 os false)
      | (os, CorruptGraph) => Some (mkDumpRun 0 os true)
      | (_, OutOfBounds) | (_, OutOfFuel) => None
      end
  | Throw _ => Some (mkDumpRun 1 [] false)
  | Undefined | Timeout => None
  end.

(** * Part II.  Specification-level notions *)

(** ** The interner, as the specification words it *)

(** A 32-bit left-rotate by one. *)
Definition rotl1 (h : Z) : Z := Z.lor ((2 * h) mod 2 ^ 32) (h / 2 ^ 31).

(** [h_{i+1} = node_i.value XOR rotl_1(h_i)] from [h_0 = 0], reduced modulo
    the table size. *)
Definition fingerprint (edges : EdgeList) : Z :=
  fold_left (fun h n => Z.lxor (value n) (rotl1 h)) edges 0 mod 240007.

(** The increment starts at 9 and is advanced by 8 after each miss. *)
Fixpoint probe_inc (k : nat) : Z :=
  match k with
  | O => 9
  | S k' => (probe_inc k' + 8) mod 240007
  end.

(** The initial probe is [h]; each miss advances it by the increment. *)
Fixpoint probe_slot (h : Z) (k : nat) : Z :=
  match k with
  | O => h
  | S k' => (probe_slot h k' + probe_inc k') mod 240007
  end.

(** The number of misses after which the sequence is back at its start. *)
Definition probe_period : nat := Z.to_nat 180004.

(** What one probe finds in a slot: nothing, the edge list itself, another
    edge list, or an arena too short to compare with. *)
Inductive finding : Type := Empty | Match | Miss | Unreadable.

Definition probe_at (d : Dawg) (edges : EdgeList) (s : Z) : finding :=
  if slot d s =? 0 then Empty
  else match equal edges (dawg d) (Z.to_nat (slot d s)) with
       | Some true => Match
       | Some false => Miss
       | None => Unreadable
       end.

(** The state left by an insertion into a free slot [s]. *)
Definition appended (d : Dawg) (edges : EdgeList) (s : Z) : Dawg :=
  mkDawg (dawg d ++ edges) (<[s := size d]> (hash_table d)).

(** An edge list as [insertEdges] is given it: not empty, [end_of_node] on
    its last edge and on no other. *)
Fixpoint closed_group (g : EdgeList) : bool :=
  match g with
  | [] => false
  | [n] => isEndOfNode n
  | n :: g' => negb (isEndOfNode n) && closed_group g'
  end.

(** [g] lies in the arena from index [i] on. *)
Definition stored (arena : list Node) (i : nat) (g : EdgeList) : Prop :=
  forall k n, g !! k = Some n -> arena !! (i + k)%nat = Some n.

(** The invariant of the interner: the root group has its place, and every
    occupied slot holds the index, past the root group, of a closed group of
    the arena. *)
Definition interner_ok (d : Dawg) : Prop :=
  256 <= size d
  /\ forall s, slot d s <> 0 ->
       256 <= slot d s
       /\ exists g, closed_group g = true /\ stored (dawg d) (Z.to_nat (slot d s)) g.

(** [d'] is [d] after further insertions: the arena has grown at its end
    and no occupied slot has changed. *)
Definition grows (d d' : Dawg) : Prop :=
  (exists more, dawg d' = dawg d ++ more)
  /\ forall s, slot d s <> 0 -> slot d' s = slot d s.

(** ** The word reader, as the specification words it *)

(** The length of the longest common prefix of two words. *)
Fixpoint common_prefix_length (a b : word) : nat :=
  match a, b with
  | x :: a', y :: b' =>
      if Ascii.eqb x y then S (common_prefix_length a' b') else 0%nat
  | _, _ => 0%nat
  end.

(** The guard of the reader: the mismatch position [p] is the token's own
    length, or the token is smaller there. *)
Definition out_of_order (char_signed : bool) (s previous : word) : Prop :=
  let p := common_prefix_length s previous in
  s <> [] /\ (p = length s
             \/ char_lt char_signed (nth p s NUL) (nth p previous NUL) = true).

(** ** Scenario S1, as the specification words it *)

(** An input with no token of two characters or more gives a file that
    holds only the count 0, and dumping that file prints nothing. *)
Definition empty_lexicon_claim (char_signed : bool) (gaps : nat -> Z)
    (text : list ascii) : Prop :=
  Forall (fun t => (length t < 2)%nat) (tokens text) ->
  main_create char_signed gaps text = Some (0, Some (output 0))
  /\ exists fuel, main_dump fuel (output 0) = Some (mkDumpRun 0 [] false).

(** The file that [create] writes for an empty lexicon: the count 256 and
    the root group, 255 zero nodes and a last one with only [end_of_node]. *)
Definition empty_lexicon_file : list ascii :=
  output 256 ++ concat (replicate 255 (output 0)) ++ output end_of_node.

(** The states reached from [d] by interning closed groups. *)
Inductive interned_from (d : Dawg) : Dawg -> Prop :=
| interned_here : interned_from d d
| interned_step d1 edges offset d2 :
    interned_from d d1 ->
    closed_group edges = true ->
    insertEdges d1 edges = Ok (offset, d2) ->
    interned_from d d2.

(** Identical length and pairwise identical 32-bit values. *)
Definition same_edges (e1 e2 : EdgeList) : Prop :=
  length e1 = length e2
  /\ forall i n1 n2, e1 !! i = Some n1 -> e2 !! i = Some n2 -> value n1 = value n2.

(** ** Arenas *)

(** The arena is not empty and its last node has [end_of_node]. *)
Definition closed_arena (arena : list Node) : Prop :=
  exists n, last arena = Some n /\ isEndOfNode n = true.

(** Every pointer of the stack points into the arena. *)
Definition in_arena (arena : list Node) (stack : list nat) : Prop :=
  Forall (fun p => (p < length arena)%nat) stack.

(** ** The words of an arena *)

(** The word that ends at an edge. *)
Definition own_word (n : Node) : list word :=
  if isEndOfWord n then [[getChar n]] else [].

(** The index that the offset of an edge stands for. *)
Definition child (n : Node) : nat := Z.to_nat (getOffset n - 1).

(** [group_words lo arena i ws]: the edge group that starts at index [i]
    spells the words [ws], in this order; every edge read on the way lies
    at an index not below [lo]. *)
Inductive group_words (lo : nat) (arena : list Node) : nat -> list word -> Prop :=
| group_leaf_last i n :
    (lo <= i)%nat -> arena !! i = Some n ->
    getOffset n = 0 -> isEndOfNode n = true ->
    group_words lo arena i (own_word n)
| group_leaf_more i n ws :
    (lo <= i)%nat -> arena !! i = Some n ->
    getOffset n = 0 -> isEndOfNode n = false ->
    group_words lo arena (S i) ws ->
    group_words lo arena i (own_word n ++ ws)
| group_inner_last i n wc :
    (lo <= i)%nat -> arena !! i = Some n ->
    getOffset n <> 0 -> isEndOfNode n = true ->
    group_words lo arena (child n) wc ->
    group_words lo arena i (own_word n ++ map (cons (getChar n)) wc)
| group_inner_more i n wc ws :
    (lo <= i)%nat -> arena !! i = Some n ->
    getOffset n <> 0 -> isEndOfNode n = false ->
    group_words lo arena (child n) wc ->
    group_words lo arena (S i) ws ->
    group_words lo arena i (own_word n ++ map (cons (getChar n)) wc ++ ws).

(** The words spelt by a list of edges whose offsets point into the arena,
    whatever their [end_of_node] bits. *)
Inductive edges_words (lo : nat) (arena : list Node) : EdgeList -> list word -> Prop :=
| edges_none : edges_words lo arena [] []
| edges_leaf n g ws :
    getOffset n = 0 ->
    edges_words lo arena g ws ->
    edges_words lo arena (n :: g) (own_word n ++ ws)
| edges_inner n g wc ws :
    getOffset n <> 0 ->
    group_words lo arena (child n) wc ->
    edges_words lo arena g ws ->
    edges_words lo arena (n :: g) (own_word n ++ map (cons (getChar n)) wc ++ ws).

(** The text that [dump] prints for the words [ws] below the letters [pre]. *)
Definition lines (pre : word) (ws : list word) : list ascii :=
  concat (map (fun w => pre ++ w ++ ["010"%char]) ws).

(** ** Invariants of the builder *)

(** The spine depth is the length of the current word. *)
Definition depth_ok (st : parse_state) : Prop :=
  ps_idx st = length (current (ps_word st)).

(** A node value that fits its 32 bits. *)
Definition node_ok (n : Node) : Prop := 0 <= value n < 2 ^ 32.

(** The arenas agree from index [lo] on, as far as the first one goes. *)
Definition agrees (lo : nat) (arena arena' : list Node) : Prop :=
  forall j n, (lo <= j)%nat -> arena !! j = Some n -> arena' !! j = Some n.

(** An edge of the builder's stack: [end_of_node] is not set yet. *)
Definition fresh (n : Node) : Prop := isEndOfNode n = false /\ node_ok n.

(** [pending arena wc below sp ws]: the edge lists [below] (innermost
    first), each with a last edge that waits for its children, spell the
    words [ws] once the innermost last edge gets children that spell [wc];
    [sp] are the letters of the last edges, outermost first. *)
Inductive pending (arena : list Node)
  : list word -> list EdgeList -> word -> list word -> Prop :=
| pending_root wc : pending arena wc [] [] wc
| pending_edge wc init n below sp wi ws :
    getOffset n = 0 ->
    edges_words 256 arena init wi ->
    pending arena (wi ++ own_word n ++ map (cons (getChar n)) wc) below sp ws ->
    pending arena wc ((init ++ [n]) :: below) (sp ++ [getChar n]) ws.

(** The letters of the root edge list, the outermost of the stack. *)
Definition root_letters (stack : list EdgeList) : list Z :=
  map (fun n => uchar (getChar n)) (default [] (last stack)).

Definition head_value (w : word) : Z :=
  match w with
  | c :: _ => uchar c
  | [] => -1
  end.

(** The root edges have strictly increasing letters, none above the first
    letter of the current word. *)
Definition root_ok (stack : list EdgeList) (cur : word) : Prop :=
  StronglySorted Z.lt (root_letters stack)
  /\ Forall (fun x => x <= head_value cur) (root_letters stack).

(** ** The input of [create] *)

(** [a] comes strictly before [b] in the lexicographic order of bytes. *)
Fixpoint word_lt (a b : word) : bool :=
  match a, b with
  | [], [] => false
  | [], _ :: _ => true
  | _ :: _, [] => false
  | x :: a', y :: b' =>
      (uchar x <? uchar y) || ((uchar x =? uchar y) && word_lt a' b')
  end.

Fixpoint ascending (l : list word) : bool :=
  match l with
  | a :: (b :: _) as l' => word_lt a b && ascending l'
  | _ => true
  end.

(** A character that the reader compares as the byte it is: not NUL, and
    below 128 where plain [char] is signed. *)
Definition plain (char_signed : bool) (c : ascii) : bool :=
  negb (uchar c =? 0) && (negb char_signed || (uchar c <? 128)).

Definition plain_word (char_signed : bool) (w : word) : bool :=
  forallb (plain char_signed) w.

(** The stack of edge lists (innermost first) spells the words [ws]
    along the spine [sp]. *)
Definition stack_inv (arena : list Node) (stack : list EdgeList) (sp : word)
    (ws : list word) : Prop :=
  exists top below wt,
    stack = top :: below
    /\ edges_words 256 arena top wt
    /\ pending arena wt below sp ws.

(** What the builder keeps true of the stack and of the interner. *)
Definition stack_ok (stack : list EdgeList) (d : Dawg) : Prop :=
  Forall (Forall fresh) stack /\ interner_ok d /\ Forall node_ok (dawg d).

(** The loop invariant of [parse], between two rounds: the stack spells the
    words [ws] read so far along the spine of the current word, and the
    tokens still to come continue the ascending list. *)
Definition builder_inv (char_signed : bool) (st : parse_state) (ws : list word) : Prop :=
  stack_inv (dawg (ps_dawg st)) (ps_edges st) (current (ps_word st)) ws
  /\ ps_idx st = length (current (ps_word st))
  /\ stack_ok (ps_edges st) (ps_dawg st)
  /\ root_ok (ps_edges st) (current (ps_word st))
  /\ ascending (current (ps_word st) :: input (ps_word st)) = true
  /\ Forall (fun w => (2 <= length w <= LOCAL_CAPACITY)%nat) (input (ps_word st))
  /\ Forall (fun w => plain_word char_signed w = true)
            (current (ps_word st) :: input (ps_word st)).

(** The shape of the builder's stack: below the innermost list, every
    list has a last edge. *)
Definition shape_ok (stack : list EdgeList) : Prop :=
  stack <> []
  /\ Forall (fun g => g <> []) (tail stack)
  /\ Forall (Forall fresh) stack.

(** The reader stands in an ascending input of long, plain words. *)
Definition reader_ok (char_signed : bool) (wb : WordBuffer) : Prop :=
  ascending (current wb :: input wb) = true
  /\ Forall (fun w => (2 <= length w <= LOCAL_CAPACITY)%nat) (input wb)
  /\ Forall (fun w => plain_word char_signed w = true) (current wb :: input wb).

(** What keeps [parse] going, whatever the size of the arena. *)
Definition progress_inv (char_signed : bool) (st : parse_state) : Prop :=
  shape_ok (ps_edges st)
  /\ interner_ok (ps_dawg st)
  /\ length (ps_edges st) = S (ps_idx st)
  /\ ps_idx st = length (current (ps_word st))
  /\ reader_ok char_signed (ps_word st).

(** ** The round trip, as the specification words it *)

(** For an input that holds a strictly ascending list of words of two
    characters or more, [create] then [dump] prints these words, one per
    line. *)
Definition roundtrip_claim (char_signed : bool) (gaps : nat -> Z)
    (text : list ascii) : Prop :=
  ascending (tokens text) = true ->
  Forall (fun w => (2 <= length w)%nat) (tokens text) ->
  exists file fuel,
    main_create char_signed gaps text = Some (0, Some file)
    /\ main_dump fuel file = Some (mkDumpRun 0 (lines [] (tokens text)) false).

(** ** The reader, part of the way through an input *)

(** The reader stands before the tokens [pre], an ascending run of long,
    plain words that continues the current word; the tokens [post] come
    after it and are not constrained. *)
Definition reader_upto (char_signed : bool) (wb : WordBuffer) (pre post : list word)
  : Prop :=
  input wb = pre ++ post
  /\ ascending (current wb :: pre) = true
  /\ Forall (fun w => (2 <= length w <= LOCAL_CAPACITY)%nat) pre
  /\ Forall (fun w => plain_word char_signed w = true) (current wb :: pre).

(** What keeps [parse] going up to the end of [pre]. *)
Definition progress_upto (char_signed : bool) (st : parse_state) (pre post : list word)
  : Prop :=
  shape_ok (ps_edges st)
  /\ interner_ok (ps_dawg st)
  /\ length (ps_edges st) = S (ps_idx st)
  /\ ps_idx st = length (current (ps_word st))
  /\ reader_upto char_signed (ps_word st) pre post.

(** A token of two characters or more. *)
Definition long_token (t : word) : bool := negb (length t <? 2)%nat.

(** Two readers hold the same current word and, up to short tokens before
    the last token, the same tokens to come. *)
Definition same_words (wb wb' : WordBuffer) : Prop :=
  current wb = current wb'
  /\ ((input wb = [] /\ input wb' = [])
      \/ exists pre w,
           input wb = pre ++ [w] /\ input wb' = List.filter long_token pre ++ [w]).

Definition same_state (st st' : parse_state) : Prop :=
  ps_edges st = ps_edges st' /\ ps_idx st = ps_idx st' /\ ps_dawg st = ps_dawg st'
  /\ same_words (ps_word st) (ps_word st').

(** What has been appended to the 256 entries of the root group ends with
    a node that has [end_of_node]. *)
Definition tail_closed (arena : list Node) : Prop :=
  (256 < length arena)%nat -> closed_arena arena.

(** The placement [gaps] keeps the buffers apart, whichever token of [L] is
    moved at whichever round, and whichever word is the current one. *)
Definition kept_apart (gaps : nat -> Z) (L : list word) : Prop :=
  forall k s cur, In s L -> In cur ([] :: L) -> apart (gaps k) s cur.

(** * Part III.  Properties *)

(** ** Bit fields of a Node *)

Section NodeFields.

Implicit Types (n : Node) (c : ascii).

Lemma uchar_range c : 0 <= uchar c < 256.
Proof.
  unfold uchar. pose proof (N_ascii_bounded c). lia.
Qed.

Lemma to_uchar_uchar c : to_uchar (uchar c) = c.
Proof.
  unfold to_uchar. rewrite Z.mod_small by apply uchar_range.
  unfold uchar. rewrite N2Z.id. apply ascii_N_embedding.
Qed.

Lemma uchar_to_uchar z : uchar (to_uchar z) = z mod 256.
Proof.
  unfold uchar, to_uchar.
  assert (0 <= z mod 256 < 256) by (apply Z.mod_pos_bound; lia).
  rewrite N_ascii_embedding by lia. lia.
Qed.

Lemma uchar_inj c1 c2 : uchar c1 = uchar c2 -> c1 = c2.
Proof.
  intros H. rewrite <- (to_uchar_uchar c1), <- (to_uchar_uchar c2). now rewrite H.
Qed.

Lemma land_lor_const v x m : Z.land x m = 0 -> Z.land (Z.lor v x) m = Z.land v m.
Proof.
  intros H. now rewrite Z.land_lor_distr_l, H, Z.lor_0_r.
Qed.

Lemma land_masked x m k : Z.land m k = 0 -> Z.land (Z.land x m) k = 0.
Proof.
  intros H. now rewrite <- Z.land_assoc, H, Z.land_0_r.
Qed.

Lemma offset_mask_ones : offset_mask = Z.ones 21.
Proof. reflexivity. Qed.

Lemma uint32_land_offset_mask z : Z.land (uint32 z) offset_mask = z mod 2 ^ 21.
Proof.
  unfold uint32. rewrite offset_mask_ones, Z.land_ones by lia.
  apply Z.mod_mod_divide. exists (2 ^ 11). reflexivity.
Qed.

(** *** The constructor *)

Lemma Node_new_fields c b :
  getChar (Node_new c b) = c /\ isEndOfWord (Node_new c b) = b
  /\ isEndOfNode (Node_new c b) = false /\ getOffset (Node_new c b) = 0
  /\ 0 <= value (Node_new c b) < 2 ^ 32.
Proof.
  destruct c as [[] [] [] [] [] [] [] []], b; vm_compute; intuition congruence.
Qed.

Lemma getChar_new c b : getChar (Node_new c b) = c.
Proof. apply Node_new_fields. Qed.

Lemma isEndOfWord_new c b : isEndOfWord (Node_new c b) = b.
Proof. apply Node_new_fields. Qed.

Lemma isEndOfNode_new c b : isEndOfNode (Node_new c b) = false.
Proof. apply Node_new_fields. Qed.

Lemma getOffset_new c b : getOffset (Node_new c b) = 0.
Proof. apply Node_new_fields. Qed.

(** *** setEndOfNode *)

Lemma getChar_setEndOfNode n : getChar (setEndOfNode n) = getChar n.
Proof.
  unfold getChar, setEndOfNode; simpl. now rewrite land_lor_const.
Qed.

Lemma isEndOfWord_setEndOfNode n : isEndOfWord (setEndOfNode n) = isEndOfWord n.
Proof.
  unfold isEndOfWord, setEndOfNode; simpl. now rewrite land_lor_const.
Qed.

Lemma getOffset_setEndOfNode n : getOffset (setEndOfNode n) = getOffset n.
Proof.
  unfold getOffset, setEndOfNode; simpl. now rewrite land_lor_const.
Qed.

Lemma isEndOfNode_setEndOfNode n : isEndOfNode (setEndOfNode n) = true.
Proof.
  unfold isEndOfNode, setEndOfNode; simpl.
  rewrite Z.land_lor_distr_l. change (Z.land end_of_node end_of_node) with end_of_node.
  destruct (Z.eqb_spec (Z.lor (Z.land (value n) end_of_node) end_of_node) 0) as [E|]; [|easy].
  apply Z.lor_eq_0_iff in E. now destruct E.
Qed.

Lemma setEndOfNode_idem n : isEndOfNode n = true -> setEndOfNode n = n.
Proof.
  destruct n as [v]. unfold isEndOfNode, setEndOfNode; simpl. intros H. f_equal.
  apply Z.bits_inj'. intros i Hi. rewrite Z.lor_spec.
  destruct (Z.eq_dec i 22) as [->|Hne].
  - destruct (Z.testbit v 22) eqn:E; [easy|]. exfalso.
    apply negb_true_iff, Z.eqb_neq in H. apply H.
    apply Z.bits_inj'. intros j Hj. rewrite Z.land_spec, Z.bits_0.
    destruct (Z.eq_dec j 22) as [->|Hj2]; [now rewrite E|].
    change end_of_node with (2 ^ 22). rewrite Z.pow2_bits_false by lia.
    apply andb_false_r.
  - change end_of_node with (2 ^ 22). rewrite Z.pow2_bits_false by lia.
    apply orb_false_r.
Qed.

(** *** setChildOffset *)

Lemma getChar_setChildOffset n o : getChar (setChildOffset n o) = getChar n.
Proof.
  unfold getChar, setChildOffset; simpl.
  now rewrite land_lor_const by now apply land_masked.
Qed.

Lemma isEndOfWord_setChildOffset n o : isEndOfWord (setChildOffset n o) = isEndOfWord n.
Proof.
  unfold isEndOfWord, setChildOffset; simpl.
  now rewrite land_lor_const by now apply land_masked.
Qed.

Lemma isEndOfNode_setChildOffset n o : isEndOfNode (setChildOffset n o) = isEndOfNode n.
Proof.
  unfold isEndOfNode, setChildOffset; simpl.
  now rewrite land_lor_const by now apply land_masked.
Qed.

Lemma value_setChildOffset n o :
  value (setChildOffset n o) = Z.lor (value n) (o mod 2 ^ 21).
Proof.
  unfold setChildOffset; simpl. now rewrite uint32_land_offset_mask.
Qed.

Lemma getOffset_setChildOffset n o :
  getOffset (setChildOffset n o) = Z.lor (getOffset n) (o mod 2 ^ 21).
Proof.
  unfold getOffset. rewrite value_setChildOffset, Z.land_lor_distr_l. f_equal.
  rewrite offset_mask_ones, Z.land_ones by lia. apply Z.mod_mod. lia.
Qed.

Lemma getOffset_range n : 0 <= getOffset n < 2 ^ 21.
Proof.
  unfold getOffset. rewrite offset_mask_ones, Z.land_ones by lia.
  apply Z.mod_pos_bound. lia.
Qed.

Lemma Node_eqb_eq (a b : Node) : Node_eqb a b = true <-> a = b.
Proof.
  destruct a as [x], b as [y]. unfold Node_eqb; simpl. rewrite Z.eqb_eq.
  split; congruence.
Qed.

Lemma Node_eqb_refl (a : Node) : Node_eqb a a = true.
Proof. now apply Node_eqb_eq. Qed.

End NodeFields.

(** ** The interner: hashing and probing *)

Section Probing.

Implicit Types (d : Dawg) (edges : EdgeList) (h : Z).

Lemma hash_fn_rotl1 r n : hash_fn r n = Z.lxor (value n) (rotl1 r).
Proof.
  unfold hash_fn, rotl1, uint32.
  rewrite Z.shiftl_mul_pow2, Z.shiftr_div_pow2 by lia.
  now rewrite (Z.mul_comm r).
Qed.

Lemma hash_fingerprint edges : hash edges = fingerprint edges.
Proof.
  unfold hash, fingerprint. f_equal.
  generalize 0. induction edges as [|n edges IH]; intros r; simpl; [easy|].
  now rewrite IH, hash_fn_rotl1.
Qed.

Lemma hash_range edges : 0 <= hash edges < HASH_TABLE_SIZE.
Proof. apply Z.mod_pos_bound. reflexivity. Qed.

Lemma hash_modulo_increment_mod a b :
  0 <= a < HASH_TABLE_SIZE -> 0 <= b < HASH_TABLE_SIZE ->
  hash_modulo_increment a b = (a + b) mod HASH_TABLE_SIZE.
Proof.
  intros Ha Hb. unfold hash_modulo_increment.
  destruct (Z.geb_spec (a + b) HASH_TABLE_SIZE) as [H|H].
  - apply Z.mod_unique with 1; lia.
  - symmetry. apply Z.mod_small. lia.
Qed.

Lemma probe_inc_closed k : probe_inc k = (9 + 8 * Z.of_nat k) mod 240007.
Proof.
  induction k as [|k IH]; [reflexivity|].
  cbn [probe_inc]. rewrite IH, Z.add_mod_idemp_l by lia. f_equal. lia.
Qed.

Lemma probe_inc_range k : 0 <= probe_inc k < HASH_TABLE_SIZE.
Proof.
  rewrite probe_inc_closed. apply Z.mod_pos_bound. reflexivity.
Qed.

Lemma probe_slot_closed h k :
  0 <= h < HASH_TABLE_SIZE ->
  probe_slot h k = (h + 4 * Z.of_nat k * Z.of_nat k + 5 * Z.of_nat k) mod 240007.
Proof.
  intros Hh. induction k as [|k IH].
  - cbn [probe_slot]. replace (h + 4 * Z.of_nat 0 * Z.of_nat 0 + 5 * Z.of_nat 0) with h by lia.
    symmetry. apply Z.mod_small. unfold HASH_TABLE_SIZE in Hh. lia.
  - cbn [probe_slot]. rewrite IH, probe_inc_closed.
    rewrite <- Z.add_mod by lia. f_equal. lia.
Qed.

Lemma probe_slot_range h k :
  0 <= h < HASH_TABLE_SIZE -> 0 <= probe_slot h k < HASH_TABLE_SIZE.
Proof.
  intros Hh. rewrite probe_slot_closed by easy. apply Z.mod_pos_bound. reflexivity.
Qed.

Lemma probe_period_Z : Z.of_nat probe_period = 180004.
Proof. unfold probe_period. now rewrite Z2Nat.id. Qed.

(** The probe sequence is back at its start after 180004 misses. *)
Lemma probe_slot_wraps h :
  0 <= h < HASH_TABLE_SIZE -> probe_slot h probe_period = h.
Proof.
  intros Hh. rewrite probe_slot_closed by easy. rewrite probe_period_Z.
  replace (h + 4 * 180004 * 180004 + 5 * 180004)
    with (h + 540012 * 240007) by lia.
  rewrite Z.mod_add by lia. apply Z.mod_small.
  unfold HASH_TABLE_SIZE in Hh. lia.
Qed.

Lemma probe_step fuel d edges h k :
  0 <= h < HASH_TABLE_SIZE ->
  probe (S fuel) d edges h (probe_slot h k) (probe_inc k) =
  match probe_at d edges (probe_slot h k) with
  | Empty => Ok (size d + 1, appended d edges (probe_slot h k))
  | Match => Ok (slot d (probe_slot h k) + 1, d)
  | Unreadable => Undefined
  | Miss => if probe_slot h (S k) =? h then Throw HashTableFull
            else probe fuel d edges h (probe_slot h (S k)) (probe_inc (S k))
  end.
Proof.
  intros Hh. cbn [probe]. unfold probe_at.
  destruct (slot d (probe_slot h k) =? 0) eqn:E.
  - f_equal. f_equal. unfold slot at 1. cbn [hash_table].
    now rewrite lookup_insert_eq.
  - destruct (equal edges (dawg d) _) as [[]|]; try reflexivity.
    rewrite !hash_modulo_increment_mod
      by (auto using probe_slot_range, probe_inc_range; unfold HASH_TABLE_SIZE; lia).
    cbn [probe_slot probe_inc]. unfold HASH_TABLE_SIZE.
    now destruct (_ =? h).
Qed.

(** Misses are followed along the specified sequence. *)
Lemma probe_run d edges h k :
  0 <= h < HASH_TABLE_SIZE ->
  forall fuel j, (j <= k)%nat -> (k - j <= fuel)%nat ->
  (forall i, (j <= i < k)%nat -> probe_at d edges (probe_slot h i) = Miss) ->
  (forall i, (j < i <= k)%nat -> probe_slot h i <> h) ->
  probe fuel d edges h (probe_slot h j) (probe_inc j) =
  probe (fuel - (k - j)) d edges h (probe_slot h k) (probe_inc k).
Proof.
  intros Hh. induction fuel as [|fuel IH]; intros j Hjk Hfuel Hmiss Hwrap.
  - assert (j = k) as -> by lia. reflexivity.
  - destruct (Nat.eq_dec j k) as [->|Hne].
    + now rewrite Nat.sub_diag.
    + rewrite probe_step by easy. rewrite Hmiss by lia.
      destruct (Z.eqb_spec (probe_slot h (S j)) h) as [E|_].
      * exfalso. apply (Hwrap (S j)); [lia | easy].
      * rewrite (IH (S j)); try lia.
        -- f_equal. lia.
        -- intros i Hi. apply Hmiss. lia.
        -- intros i Hi. apply Hwrap. lia.
Qed.

Lemma no_wrap_bound h k :
  0 <= h < HASH_TABLE_SIZE ->
  (forall i, (0 < i <= k)%nat -> probe_slot h i <> h) -> (k < probe_period)%nat.
Proof.
  intros Hh Hwrap. destruct (Nat.lt_ge_cases k probe_period) as [|Hge]; [easy|].
  exfalso. apply (Hwrap probe_period); [|now apply probe_slot_wraps].
  pose proof probe_period_Z. lia.
Qed.

(** The fuel given by [insertEdges] is never exhausted. *)
Lemma probe_terminates d edges h :
  0 <= h < HASH_TABLE_SIZE ->
  forall fuel j, (probe_period <= j + fuel)%nat ->
  (forall i, (0 < i <= j)%nat -> probe_slot h i <> h) ->
  probe fuel d edges h (probe_slot h j) (probe_inc j) <> Timeout.
Proof.
  intros Hh. induction fuel as [|fuel IH]; intros j Hfuel Hwrap.
  - pose proof (no_wrap_bound h j Hh Hwrap). lia.
  - rewrite probe_step by easy.
    destruct (probe_at d edges (probe_slot h j)); try easy.
    destruct (Z.eqb_spec (probe_slot h (S j)) h) as [E|NE]; [easy|].
    apply IH; [lia|]. intros i Hi.
    destruct (Nat.eq_dec i (S j)) as [->|]; [easy|]. apply Hwrap. lia.
Qed.

Lemma insertEdges_terminates d edges : insertEdges d edges <> Timeout.
Proof.
  unfold insertEdges.
  apply (probe_terminates d edges (hash edges) (hash_range edges) _ 0%nat).
  - pose proof probe_period_Z. unfold HASH_TABLE_SIZE. lia.
  - intros i Hi. lia.
Qed.

(** What a successful insertion has done. *)
Lemma probe_Ok fuel d edges h0 h inc o d' :
  probe fuel d edges h0 h inc = Ok (o, d') ->
  exists s,
    (slot d s = 0 /\ o = size d + 1 /\ d' = appended d edges s)
    \/ (slot d s <> 0 /\ equal edges (dawg d) (Z.to_nat (slot d s)) = Some true
        /\ o = slot d s + 1 /\ d' = d).
Proof.
  revert h inc. induction fuel as [|fuel IH]; intros h inc; cbn [probe]; [easy|].
  destruct (Z.eqb_spec (slot d h) 0) as [E|NE].
  - intros [= <- <-]. exists h. left. repeat split; [easy|].
    unfold slot at 1. cbn [hash_table]. now rewrite lookup_insert_eq.
  - destruct (equal edges (dawg d) _) as [[]|] eqn:Eq; try easy.
    + intros [= <- <-]. exists h. right. easy.
    + destruct (negb _); [apply IH | easy].
Qed.

Lemma insertEdges_Ok d edges o d' :
  insertEdges d edges = Ok (o, d') ->
  exists s,
    (slot d s = 0 /\ o = size d + 1 /\ d' = appended d edges s)
    \/ (slot d s <> 0 /\ equal edges (dawg d) (Z.to_nat (slot d s)) = Some true
        /\ o = slot d s + 1 /\ d' = d).
Proof. apply probe_Ok. Qed.

(** The only exception of [insertEdges] is the full table. *)
Lemma probe_Throw fuel d edges h0 h inc e :
  probe fuel d edges h0 h inc = Throw e -> e = HashTableFull.
Proof.
  revert h inc. induction fuel as [|fuel IH]; intros h inc; cbn [probe]; [easy|].
  destruct (slot d h =? 0); [easy|].
  destruct (equal edges (dawg d) _) as [[]|]; try easy.
  destruct (negb _); [apply IH | congruence].
Qed.

Lemma insertEdges_Throw d edges e :
  insertEdges d edges = Throw e -> e = HashTableFull.
Proof. apply probe_Throw. Qed.

End Probing.

(** C6.  [insertEdges] probes the slots [probe_slot h 0], [probe_slot h 1],
    ... where [h] is the fingerprint of the edge list: the fold of
    [node.value XOR rotl1 h] from 0, reduced modulo 240007, the increment
    starting at 9 and advancing by 8 after each miss, both modulo 240007.
    After [k] misses that have not led back to the initial slot, an empty
    slot receives the edge list, a matching slot gives its offset, and a
    further miss that leads back to the initial slot fails with
    HashTableFull. *)
Theorem insertEdges_probe_sequence (d : Dawg) (edges : EdgeList) (k : nat) :
  let h := fingerprint edges in
  hash edges = h
  /\ ((forall j, (j < k)%nat -> probe_at d edges (probe_slot h j) = Miss) ->
      (forall j, (0 < j <= k)%nat -> probe_slot h j <> h) ->
      (probe_at d edges (probe_slot h k) = Empty ->
       insertEdges d edges = Ok (size d + 1, appended d edges (probe_slot h k)))
      /\ (probe_at d edges (probe_slot h k) = Match ->
          insertEdges d edges = Ok (slot d (probe_slot h k) + 1, d))
      /\ (probe_at d edges (probe_slot h k) = Miss -> probe_slot h (S k) = h ->
          insertEdges d edges = Throw HashTableFull)).
Proof.
  intros h. split; [apply hash_fingerprint|].
  intros Hmiss Hwrap.
  assert (Hh : 0 <= h < HASH_TABLE_SIZE).
  { unfold h. rewrite <- hash_fingerprint. apply hash_range. }
  assert (Hk : (k < probe_period)%nat) by now apply (no_wrap_bound h).
  assert (Hrun : exists fuel, insertEdges d edges
                 = probe (S fuel) d edges h (probe_slot h k) (probe_inc k)).
  { exists (Z.to_nat HASH_TABLE_SIZE - k - 1)%nat.
    unfold insertEdges. rewrite hash_fingerprint. fold h.
    change h with (probe_slot h 0) at 2. change 9 with (probe_inc 0).
    rewrite (probe_run d edges h k Hh _ 0%nat).
    - f_equal. pose proof probe_period_Z. unfold HASH_TABLE_SIZE. lia.
    - lia.
    - pose proof probe_period_Z. unfold HASH_TABLE_SIZE. lia.
    - intros i Hi. apply Hmiss. lia.
    - intros i Hi. apply Hwrap. lia. }
  destruct Hrun as [fuel ->]. rewrite probe_step by easy.
  repeat split; intros ->; try reflexivity.
  intros ->. now rewrite Z.eqb_refl.
Qed.

(** ** The offset field *)

(** C10.  [setChildOffset] makes no range check: whatever the offset, it
    ORs the low 21 bits of the argument into the node's value, so a node
    whose offset field was clear stores the offset modulo 2^21, which is
    not the offset once that reaches 2^21; and [insertEdges] hands such
    offsets out, unchecked, when the arena has more than 2,097,151 edges. *)
Theorem setChildOffset_unchecked :
  (forall n offset,
      value (setChildOffset n offset) = Z.lor (value n) (offset mod 2 ^ 21))
  /\ (forall n offset,
        getOffset n = 0 -> getOffset (setChildOffset n offset) = offset mod 2 ^ 21)
  /\ (forall n offset,
        getOffset n = 0 -> 2 ^ 21 <= offset ->
        getOffset (setChildOffset n offset) <> offset)
  /\ (forall d edges n,
        2097151 < size d -> slot d (hash edges) = 0 -> getOffset n = 0 ->
        exists d', insertEdges d edges = Ok (size d + 1, d')
                   /\ getOffset (setChildOffset n (size d + 1)) <> size d + 1).
Proof.
  assert (Hmod : forall n offset,
             getOffset n = 0 -> getOffset (setChildOffset n offset) = offset mod 2 ^ 21).
  { intros n offset H. now rewrite getOffset_setChildOffset, H, Z.lor_0_l. }
  assert (Hne : forall n offset,
             getOffset n = 0 -> 2 ^ 21 <= offset ->
             getOffset (setChildOffset n offset) <> offset).
  { intros n offset H Hbig. rewrite Hmod by easy.
    pose proof (Z.mod_pos_bound offset (2 ^ 21)). lia. }
  repeat split; auto using value_setChildOffset.
  intros d edges n Hsize Hfree Hn.
  exists (appended d edges (hash edges)). split.
  - unfold insertEdges.
    destruct (Z.to_nat HASH_TABLE_SIZE) as [|fuel] eqn:E;
      [unfold HASH_TABLE_SIZE in E; lia|].
    cbn [probe]. rewrite Hfree. cbn [Z.eqb]. unfold appended. f_equal. f_equal.
    unfold slot at 1. cbn [hash_table]. now rewrite lookup_insert_eq.
  - apply Hne; [easy | lia].
Qed.

Lemma setChildOffset_unchecked_witness :
  getOffset (setChildOffset (Node_new "a" false) (2 ^ 21 + 5)) = 5
  /\ getOffset (setChildOffset (Node_new "a" false) (2 ^ 21 + 5)) <> 2 ^ 21 + 5
  /\ let d := mkDawg (replicate (Z.to_nat 2097152) Node_default) ∅ in
     exists d',
       insertEdges d [Node_new "a" true] = Ok (size d + 1, d')
       /\ getOffset (setChildOffset (Node_new "a" false) (size d + 1)) <> size d + 1.
Proof.
  destruct setChildOffset_unchecked as (_ & Hmod & Hne & Hins).
  split; [|split].
  - apply (Hmod (Node_new "a" false) (2 ^ 21 + 5)). reflexivity.
  - apply (Hne (Node_new "a" false) (2 ^ 21 + 5)); [reflexivity | lia].
  - intros d. apply (Hins d [Node_new "a" true] (Node_new "a" false)).
    + unfold size, d. cbn [dawg]. rewrite length_replicate. lia.
    + reflexivity.
    + reflexivity.
Defined.

(** ** The file codec: [load] *)

Section Load.

Implicit Types (file : list ascii).

Lemma word_of_bytes_range b0 b1 b2 b3 : 0 <= word_of_bytes b0 b1 b2 b3 < 2 ^ 32.
Proof.
  unfold word_of_bytes. rewrite !Z.shiftl_mul_pow2 by lia.
  pose proof (uchar_range b0). pose proof (uchar_range b1).
  pose proof (uchar_range b2). pose proof (uchar_range b3). lia.
Qed.

Lemma length_read_nodes n bytes : length (read_nodes n bytes) = n.
Proof.
  revert bytes. induction n as [|n IH]; intros bytes; simpl; [easy|].
  now rewrite IH.
Qed.

(** As long as [4 * (N + 1)] fits in 32 bits, the check is the specified
    one, and a file that passes it is read into an arena of [N] nodes. *)
Lemma load_checks_size d b0 b1 b2 b3 rest :
  let file := b0 :: b1 :: b2 :: b3 :: rest in
  let N := word_of_bytes b0 b1 b2 b3 in
  let S := Z.of_nat (length file) in
  N < 2 ^ 30 - 1 ->
  (load d file = Throw CorruptFile <-> S <> 4 * (N + 1))
  /\ (S = 4 * (N + 1) ->
      exists d', load d file = Ok d' /\ size d' = N).
Proof.
  intros file N S HN.
  pose proof (word_of_bytes_range b0 b1 b2 b3) as HR. fold N in HR.
  unfold load, load_header, file. fold file. fold N. fold S.
  assert (Hw : uint32 (N * 4 + 4) = 4 * (N + 1)).
  { unfold uint32. rewrite Z.mod_small; lia. }
  rewrite Hw.
  destruct (Z.eqb_spec (4 * (N + 1)) S) as [E|NE]; cbn [negb rbind].
  - split; [split; [easy | intros H; now symmetry in E] |].
    intros _. eexists. split; [reflexivity|].
    unfold size. cbn [dawg]. rewrite length_read_nodes. lia.
  - split; [split; [intros _; congruence | easy] |].
    intros E. now symmetry in E.
Qed.

End Load.

(** C7.  [load] does not fail with CorruptFile exactly when the file size
    differs from [4 * (N + 1)]: the product [edges * 4 + 4] is formed in 32
    bits.  The four-byte file [00 00 00 40] has the count [N = 2^30] and
    the size 4, which is not [4 * (2^30 + 1)], and passes the check. *)
Theorem load_wrapped_count_accepted :
  let file := map to_uchar [0; 0; 0; 64] in
  load_header file = Ok (2 ^ 30)
  /\ Z.of_nat (length file) <> 4 * (2 ^ 30 + 1)
  /\ load Dawg_new file <> Throw CorruptFile.
Proof.
  intros file.
  assert (H : load_header file = Ok (2 ^ 30)) by (vm_compute; reflexivity).
  split; [exact H|]. split; [vm_compute; congruence|].
  unfold load. rewrite H. cbn [rbind]. congruence.
Qed.

(** ** The word reader: [WordBuffer::next] *)

Section Reader.

Implicit Types (s t cur : word) (wb : WordBuffer).

Lemma mismatch_data s cur :
  NUL ∉ s -> mismatch s (data cur) = Some (common_prefix_length s cur).
Proof.
  revert cur. induction s as [|a s IH]; intros cur Hs; [reflexivity|].
  apply not_elem_of_cons in Hs as [Ha Hs].
  destruct cur as [|b cur]; cbn [data app mismatch common_prefix_length].
  - destruct (Ascii.eqb_spec a NUL); [congruence | reflexivity].
  - destruct (Ascii.eqb_spec a b); [|reflexivity].
    fold (data cur). now rewrite IH.
Qed.

Lemma nth_data cur p : nth p (data cur) NUL = nth p cur NUL.
Proof.
  unfold data. destruct (Nat.lt_ge_cases p (length cur)) as [H|H].
  - now rewrite app_nth1.
  - rewrite app_nth2 by easy. rewrite (nth_overflow cur) by easy.
    destruct (p - length cur)%nat as [|[|k]]; reflexivity.
Qed.

Lemma common_prefix_length_refl s : common_prefix_length s s = length s.
Proof.
  induction s as [|a s IH]; [reflexivity|]. simpl.
  now rewrite Ascii.eqb_refl, IH.
Qed.

Lemma mismatch_bound s t p :
  mismatch s t = Some p ->
  (p <= length s)%nat /\ ((p < length s)%nat -> (p < length t)%nat).
Proof.
  revert t p. induction s as [|a s IH]; intros t p; simpl.
  - intros [= <-]. lia.
  - destruct t as [|b t]; [easy|].
    destruct (Ascii.eqb a b).
    + destruct (mismatch s t) as [q|] eqn:E; [|easy].
      intros [= <-]. destruct (IH _ _ E). simpl. lia.
    + intros [= <-]. simpl. lia.
Qed.

(** On a token [s] free of NUL characters, [next] throws OutOfOrder
    exactly when [s] is not empty and either the mismatch position [p] is
    the length of [s] or [s] is smaller than the previous token at [p];
    otherwise it returns [s] with the distance taken after the move, which
    is [p], the length of the longest common prefix of [s] and the previous
    token, when [s] has no more than 15 characters. *)
Lemma next_cases char_signed gap wb s rest c :
  skip_short (input wb) [] (count wb) = (s, rest, c) ->
  NUL ∉ s ->
  let p := common_prefix_length s (current wb) in
  (next char_signed gap wb = Throw OutOfOrder
   <-> out_of_order char_signed s (current wb))
  /\ (~ out_of_order char_signed s (current wb) ->
      next char_signed gap wb
      = Ok ((distance_after_move gap s p, s), mkWordBuffer c s rest)).
Proof.
  intros Hskip Hnul p.
  assert (Hguard :
    negb (length s =? 0)%nat
    && ((p =? length s)%nat
        || char_lt char_signed (nth p s NUL) (nth p (data (current wb)) NUL)) = true
    <-> out_of_order char_signed s (current wb)).
  { unfold out_of_order. fold p. rewrite nth_data.
    rewrite andb_true_iff, orb_true_iff, negb_true_iff, Nat.eqb_neq, Nat.eqb_eq.
    destruct s; simpl; intuition congruence. }
  assert (Hnext : next char_signed gap wb =
    if negb (length s =? 0)%nat
       && ((p =? length s)%nat
           || char_lt char_signed (nth p s NUL) (nth p (data (current wb)) NUL))
    then Throw OutOfOrder
    else Ok ((distance_after_move gap s p, s), mkWordBuffer c s rest)).
  { unfold next. rewrite Hskip. now rewrite mismatch_data. }
  rewrite Hnext. clear Hnext.
  destruct (negb _ && _) eqn:G.
  - split; [tauto|]. intros Hno. exfalso. apply Hno. now apply Hguard.
  - assert (Hno : ~ out_of_order char_signed s (current wb)).
    { intros H. apply Hguard in H. congruence. }
    split; [split; [easy | tauto] | easy].
Qed.

(** Where the buffers are apart, the distance taken after a token of more
    than 15 characters has been moved exceeds the length of the current
    word, whatever the mismatch position was. *)
Lemma distance_after_move_apart gap s cur p :
  (LOCAL_CAPACITY < length s)%nat -> (p <= length s)%nat -> apart gap s cur ->
  distance_after_move gap s p = (gap + Z.of_nat p) mod 2 ^ 64
  /\ Z.of_nat (length cur) < distance_after_move gap s p.
Proof.
  intros Hlong Hp [Hcur Hgap]. unfold distance_after_move.
  destruct (Nat.leb_spec (length s) LOCAL_CAPACITY) as [|_]; [lia|].
  split; [reflexivity|].
  destruct Hgap as [[Hlo Hhi]|[Hlo Hhi]].
  - rewrite <- (Z.mod_add (gap + Z.of_nat p) 1 (2 ^ 64)) by lia.
    rewrite Z.mod_small by lia. lia.
  - rewrite Z.mod_small by lia. lia.
Qed.

End Reader.

(** C5.  A token of more than 15 characters that is in order does not
    come back with the length of its common prefix with the previous token:
    [next] takes the distance from the start of the string it has just
    moved from, and returns [gap + p] as a [size_t], which exceeds the
    length of the previous token wherever the two buffers lie. *)
Theorem next_returns_pointer_difference (char_signed : bool) (gap : Z)
    (wb : WordBuffer) (s : word) (rest : list word) (c : Z) :
  skip_short (input wb) [] (count wb) = (s, rest, c) ->
  NUL ∉ s ->
  (LOCAL_CAPACITY < length s)%nat ->
  ~ out_of_order char_signed s (current wb) ->
  apart gap s (current wb) ->
  let p := common_prefix_length s (current wb) in
  next char_signed gap wb
  = Ok (((gap + Z.of_nat p) mod 2 ^ 64, s), mkWordBuffer c s rest)
  /\ Z.of_nat p <= Z.of_nat (length (current wb)) < (gap + Z.of_nat p) mod 2 ^ 64.
Proof.
  intros Hskip Hnul Hlong Hno Hgap p.
  destruct (next_cases char_signed gap wb s rest c Hskip Hnul) as [_ Hok].
  destruct (mismatch_bound s (data (current wb)) p) as [Hp Hin];
    [now apply mismatch_data|].
  destruct (distance_after_move_apart gap s (current wb) p Hlong Hp Hgap) as [E Hgt].
  rewrite (Hok Hno). fold p. rewrite E in *. split; [reflexivity|].
  split; [|exact Hgt].
  assert (Hless : (p < length s)%nat).
  { destruct (Nat.eq_dec p (length s)) as [Heq|]; [|lia].
    exfalso. apply Hno. split; [|now left]. intros ->.
    unfold LOCAL_CAPACITY in Hlong. cbn in Hlong. lia. }
  apply Hin in Hless. unfold data in Hless. rewrite length_app in Hless.
  cbn [length] in Hless. lia.
Qed.

(** ** The traversal: fuel *)

Section DumpFuel.

Implicit Types (arena : list Node) (stack : list nat) (os : list ascii).

(** Once a traversal has ended, more fuel does not change it. *)
Lemma dump_loop_more_fuel fuel extra arena stack os os' st :
  dump_loop fuel arena stack os = (os', st) -> st <> OutOfFuel ->
  dump_loop (fuel + extra) arena stack os = (os', st).
Proof.
  revert stack os. induction fuel as [|fuel IH]; intros stack os; simpl.
  - intros [= <- <-]. easy.
  - destruct stack as [|p below]; [easy|].
    destruct (arena !! p) as [n|]; [|easy].
    destruct (if isEndOfWord n then _ else _) as [os1|]; [|easy].
    destruct (negb (getOffset n =? 0)).
    + destruct (_ <? _); [apply IH | easy].
    + destruct (advance arena (p :: below)); [apply IH | easy].
Qed.

Lemma dump_more_fuel fuel fuel' d os st :
  dump fuel d = (os, st) -> st <> OutOfFuel -> (fuel <= fuel')%nat ->
  dump fuel' d = (os, st).
Proof.
  intros H Hst Hle. replace fuel' with (fuel + (fuel' - fuel))%nat by lia.
  now apply dump_loop_more_fuel.
Qed.

Lemma main_dump_more_fuel fuel fuel' file r :
  main_dump fuel file = Some r -> (fuel <= fuel')%nat ->
  main_dump fuel' file = Some r.
Proof.
  unfold main_dump. destruct (load Dawg_new file) as [d| | |]; try easy.
  destruct (dump fuel d) as [os st] eqn:E. intros H Hle.
  destruct st; try easy; now rewrite (dump_more_fuel fuel fuel' d os _ E).
Qed.

End DumpFuel.

(** ** Scenario S1: the empty lexicon *)

Lemma empty_lexicon_counterexample : ~ empty_lexicon_claim false heap_below [].
Proof.
  intros H. destruct H as [Hfile _]; [constructor|].
  vm_compute in Hfile. discriminate Hfile.
Qed.

(** The count-only file is not even read back safely: the traversal starts
    at [&dawg[0]] of an empty arena. *)
Lemma dump_of_count_only_file fuel : main_dump (S fuel) (output 0) = None.
Proof. reflexivity. Qed.

(** A short token that ends the input is not skipped: the failed extraction
    leaves it in [s], and it is compiled as a word. *)
Lemma trailing_short_token_is_kept :
  exists file,
    main_create false heap_below (list_ascii_of_string "a") = Some (0, Some file)
    /\ main_dump 2 file = Some (mkDumpRun 0 (list_ascii_of_string "a" ++ ["010"%char]) false).
Proof.
  eexists. split.
  - vm_compute. reflexivity.
  - vm_compute. reflexivity.
Qed.

(** C3, amended.  For an input without any token, [create] writes the
    1028 bytes of [empty_lexicon_file]: the count 256 and the 256-entry
    root group, whose last node alone has [end_of_node]; [dump] of that
    file prints nothing and exits with 0. *)
Theorem empty_lexicon (char_signed : bool) (gaps : nat -> Z) (text : list ascii) :
  tokens text = [] ->
  main_create char_signed gaps text = Some (0, Some empty_lexicon_file)
  /\ forall fuel, (256 < fuel)%nat ->
       main_dump fuel empty_lexicon_file = Some (mkDumpRun 0 [] false).
Proof.
  intros Htok. split.
  - unfold main_create. rewrite Htok. destruct char_signed; vm_compute; reflexivity.
  - intros fuel Hfuel. apply (main_dump_more_fuel 257); [|lia].
    vm_compute. reflexivity.
Qed.

Lemma empty_lexicon_witness :
  main_create false heap_below (list_ascii_of_string "  ") = Some (0, Some empty_lexicon_file)
  /\ main_dump 300 empty_lexicon_file = Some (mkDumpRun 0 [] false).
Proof.
  assert (Ht : tokens (list_ascii_of_string "  ") = []) by (vm_compute; reflexivity).
  destruct (empty_lexicon false heap_below (list_ascii_of_string "  ") Ht) as [Hc Hd].
  split; [exact Hc|]. apply Hd. lia.
Defined.

(** ** The builder: exceptions *)

Section ParseExceptions.

Implicit Types (wb : WordBuffer) (st : parse_state) (d : Dawg).

Lemma length_data cur : length (data cur) = S (length cur).
Proof. unfold data. rewrite length_app. simpl. lia. Qed.

(** What [next] returns: the token becomes the current word, and the
    mismatch position [p], from which the distance is taken, exceeds
    neither the previous word nor the token. *)
Lemma next_Ok char_signed gap wb first s wb' :
  next char_signed gap wb = Ok ((first, s), wb') ->
  current wb' = s
  /\ exists p,
      first = distance_after_move gap s p
      /\ (p <= length (current wb))%nat
      /\ (p <= length s)%nat
      /\ (s <> [] -> (p < length s)%nat).
Proof.
  unfold next. destruct (skip_short _ _ _) as [[s0 input'] c'].
  destruct (mismatch s0 (data (current wb))) as [q|] eqn:E; [|easy].
  destruct (negb _ && _) eqn:G; [easy|].
  intros [= <- <- <-]. cbn [current]. split; [reflexivity|]. exists q.
  destruct (mismatch_bound _ _ _ E) as [Hq Hlt]. rewrite length_data in Hlt.
  apply andb_false_iff in G.
  destruct s0 as [|a s0].
  - simpl in Hq. repeat split; try easy; lia.
  - destruct G as [G|G]; [easy|]. apply orb_false_iff in G as [G _].
    apply Nat.eqb_neq in G. repeat split; try easy; lia.
Qed.





(** A round in which [next] returns a mismatch position. *)
Lemma parse_round_next char_signed gap st p s wb :
  next char_signed gap (ps_word st) = Ok ((Z.of_nat p, s), wb) ->
  parse_round char_signed gap st
  = if (ps_idx st <? p)%nat then Throw PrefixOverflow
    else
      do (edges, d) <- unwind (ps_idx st - p) (ps_edges st) (ps_dawg st);
      if (length s =? 0)%nat then
        if negb (p =? 0)%nat then Throw DanglingEdges else Ok (inr (edges, d))
      else
        do edges' <- extend (drop p s) edges;
        Ok (inl (mkParseState wb edges' (Nat.max p (length s)) d)).
Proof.
  intros H. unfold parse_round. rewrite H. cbn [rbind]. rewrite Nat2Z.id.
  destruct (Nat.ltb_spec (ps_idx st) p);
    destruct (Z.ltb_spec (Z.of_nat (ps_idx st)) (Z.of_nat p)); (reflexivity || lia).
Qed.






(** *** The fuel of the loop *)

Lemma skip_short_consumes input s0 c s input' c' :
  skip_short input s0 c = (s, input', c') ->
  (input = [] /\ s = s0 /\ input' = []) \/ (length input' < length input)%nat.
Proof.
  revert s0 c. induction input as [|t rest IH]; intros s0 c; cbn [skip_short].
  - intros [= <- <- <-]. now left.
  - right. destruct (length t <? 2)%nat.
    + apply IH in H as [(-> & _ & ->)|H]; cbn [length]; lia.
    + injection H as <- <- <-. cbn [length]. lia.
Qed.

(** A round that returns a word has taken a token from the input. *)
Lemma next_consumes char_signed gap wb first s wb' :
  next char_signed gap wb = Ok ((first, s), wb') -> s <> [] ->
  (length (input wb') < length (input wb))%nat.
Proof.
  unfold next. destruct (skip_short _ _ _) as [[s0 input'] c'] eqn:E.
  destruct (mismatch _ _); [|easy]. destruct (negb _ && _); [easy|].
  intros [= <- <- <-] Hs. cbn [input].
  now apply skip_short_consumes in E as [(_ & -> & _)|E].
Qed.

Lemma unwind_Timeout k edges d : unwind k edges d <> Timeout.
Proof.
  revert edges d. induction k as [|k IH]; intros edges d; cbn [unwind]; [easy|].
  destruct edges as [|ready edges']; [easy|].
  destruct ready as [|n ready]; [apply IH|].
  pose proof (insertEdges_terminates d (update_back setEndOfNode (n :: ready))) as Ht.
  destruct (insertEdges d _) as [[o d']| | |]; cbn [rbind]; try easy.
  destruct edges' as [|[|m parent] below]; easy.
Qed.

Lemma extend_Timeout letters edges : extend letters edges <> Timeout.
Proof.
  revert edges. induction letters as [|c rest IH]; intros edges; cbn [extend]; [easy|].
  destruct edges as [|top below]; [easy | apply IH].
Qed.

Lemma parse_round_fuel char_signed gap st :
  parse_round char_signed gap st <> Timeout
  /\ forall st', parse_round char_signed gap st = Ok (inl st') ->
       (length (input (ps_word st')) < length (input (ps_word st)))%nat.
Proof.
  unfold parse_round.
  destruct (next char_signed gap (ps_word st)) as [[[p s] wb]| | |] eqn:E; cbn [rbind];
    try easy.
  - destruct (_ <? _); [easy|].
    pose proof (unwind_Timeout (ps_idx st - Z.to_nat p) (ps_edges st) (ps_dawg st))
      as Hu.
    destruct (unwind _ _ _) as [[edges d]| | |]; cbn [rbind]; try easy.
    destruct (Nat.eqb_spec (length s) 0) as [|Hs].
    + now destruct (negb _).
    + pose proof (extend_Timeout (drop (Z.to_nat p) s) edges) as Hx.
      destruct (extend _ _) as [edges'| | |]; cbn [rbind]; try easy.
      split; [easy|]. intros st' [= <-]. cbn [ps_word].
      apply (next_consumes _ _ _ _ _ _ E). now destruct s.
  - unfold next in E. destruct (skip_short _ _ _) as [[s0 input'] c'].
    destruct (mismatch _ _); [|easy]. now destruct (negb _ && _).
Qed.

Lemma parse_loop_Timeout fuel char_signed gaps st :
  (length (input (ps_word st)) < fuel)%nat ->
  parse_loop fuel char_signed gaps st <> Timeout.
Proof.
  revert gaps st. induction fuel as [|fuel IH]; intros gaps st Hfuel; [lia|].
  cbn [parse_loop].
  destruct (parse_round_fuel char_signed (gaps 0%nat) st) as [Hno Hless].
  destruct (parse_round char_signed (gaps 0%nat) st) as [[st'|done]| | |];
    cbn [rbind]; try easy.
  apply IH. specialize (Hless st' eq_refl). lia.
Qed.

Lemma parse_Timeout char_signed gaps d input : parse char_signed gaps d input <> Timeout.
Proof.
  unfold parse.
  pose proof (parse_loop_Timeout (S (S (length input))) char_signed gaps
                (mkParseState (WordBuffer_new input) [[]] 0 d)) as H.
  destruct (parse_loop _ _ _ _) as [[edges d']| | |]; cbn [rbind]; try easy.
  - unfold finish. destruct edges; [easy|]. now destruct (_ <? _)%nat.
  - exfalso. apply H; [cbn; lia | reflexivity].
Qed.

End ParseExceptions.

(** ** The arena only grows *)

Section Frame.

Implicit Types (d : Dawg) (st : parse_state).

Lemma grows_refl d : grows d d.
Proof. split; [exists []; now rewrite app_nil_r | easy]. Qed.

Lemma grows_trans d1 d2 d3 : grows d1 d2 -> grows d2 d3 -> grows d1 d3.
Proof.
  intros [[m1 H1] S1] [[m2 H2] S2]. split.
  - exists (m1 ++ m2). now rewrite H2, H1, app_assoc.
  - intros s Hs. rewrite S2; rewrite S1; easy.
Qed.

Lemma slot_appended d (edges : EdgeList) s s' :
  slot (appended d edges s) s' = if decide (s = s') then size d else slot d s'.
Proof.
  unfold slot, appended. cbn [hash_table]. rewrite lookup_insert.
  now destruct (decide (s = s')).
Qed.

Lemma grows_appended d (edges : EdgeList) s : slot d s = 0 -> grows d (appended d edges s).
Proof.
  intros Hs. split; [now exists edges|].
  intros s' Hs'. rewrite slot_appended. destruct (decide (s = s')); congruence.
Qed.

Lemma insertEdges_grows d (edges : EdgeList) o d' :
  insertEdges d edges = Ok (o, d') -> grows d d'.
Proof.
  intros H. apply insertEdges_Ok in H as [s [(Hs & _ & ->)|(_ & _ & _ & ->)]].
  - now apply grows_appended.
  - apply grows_refl.
Qed.

Lemma unwind_grows k edges d edges' d' :
  unwind k edges d = Ok (edges', d') -> grows d d'.
Proof.
  revert edges d. induction k as [|k IH]; intros edges d; cbn [unwind].
  - intros [= <- <-]. apply grows_refl.
  - destruct edges as [|ready rest]; [easy|].
    destruct ready as [|n ready]; [apply IH|].
    destruct (insertEdges d _) as [[o d1]| | |] eqn:E; cbn [rbind]; try easy.
    destruct rest as [|[|m parent] below]; try easy.
    intros H. apply IH in H. apply insertEdges_grows in E.
    now apply grows_trans with d1.
Qed.

Lemma parse_round_grows char_signed gap st :
  match parse_round char_signed gap st with
  | Ok (inl st') => grows (ps_dawg st) (ps_dawg st')
  | Ok (inr (_, d')) => grows (ps_dawg st) d'
  | _ => True
  end.
Proof.
  unfold parse_round.
  destruct (next char_signed gap (ps_word st)) as [[[p s] wb]| | |]; cbn [rbind]; try easy.
  destruct (_ <? _); [easy|].
  destruct (unwind _ _ _) as [[edges d]| | |] eqn:U; cbn [rbind]; try easy.
  apply unwind_grows in U.
  destruct (length s =? 0)%nat.
  - now destruct (negb _).
  - now destruct (extend _ _); cbn [rbind].
Qed.

Lemma parse_loop_grows fuel char_signed gaps st edges d' :
  parse_loop fuel char_signed gaps st = Ok (edges, d') -> grows (ps_dawg st) d'.
Proof.
  revert gaps st. induction fuel as [|fuel IH]; intros gaps st; cbn [parse_loop];
    [easy|].
  pose proof (parse_round_grows char_signed (gaps 0%nat) st) as G.
  destruct (parse_round char_signed (gaps 0%nat) st) as [[st'|[edges1 d1]]| | |];
    cbn [rbind]; try easy.
  - intros H. apply IH in H. now apply grows_trans with (ps_dawg st').
  - now intros [= <- <-].
Qed.

Lemma length_update_back f (v : list Node) : length (update_back f v) = length v.
Proof.
  induction v as [|n [|m v] IH]; try reflexivity.
  change (update_back f (n :: m :: v)) with (n :: update_back f (m :: v)).
  simpl in *. now rewrite IH.
Qed.

(** The root list as [finish] pads it. *)
Lemma length_padded_root root :
  length (update_back setEndOfNode
            (resize (Z.to_nat MAX_CHARS) Node_default (update_back setEndOfNode root)))
  = 256%nat.
Proof.
  rewrite length_update_back, length_resize. reflexivity.
Qed.

Lemma finish_Ok edges d d' :
  finish edges d = Ok d' ->
  exists root rest,
    edges = root :: rest
    /\ (256 <= length (dawg d))%nat
    /\ hash_table d' = hash_table d
    /\ dawg d' = update_back setEndOfNode
                   (resize (Z.to_nat MAX_CHARS) Node_default
                      (update_back setEndOfNode root))
                 ++ drop 256 (dawg d).
Proof.
  unfold finish. destruct edges as [|root rest]; [easy|].
  rewrite length_padded_root.
  destruct (Nat.ltb_spec (length (dawg d)) 256) as [|Hlen]; [easy|].
  intros [= <-]. exists root, rest. easy.
Qed.

End Frame.

(** C9.  Committed arena entries never move or change during [parse]:
    [insertEdges] leaves the arena as it is or appends the edge list at its
    end, and leaves every occupied slot of the table as it is; every round
    of the loop of [parse] only lets the arena grow at its end; and the
    final step keeps the table and the length of the arena and rewrites
    only the indices 0..255, where it puts the padded root group. *)
Theorem committed_edges_never_move :
  (forall d edges o d',
      insertEdges d edges = Ok (o, d') ->
      (dawg d' = dawg d \/ dawg d' = dawg d ++ edges)
      /\ forall s, slot d s <> 0 -> slot d' s = slot d s)
  /\ (forall char_signed gap st st',
        parse_round char_signed gap st = Ok (inl st') ->
        grows (ps_dawg st) (ps_dawg st'))
  /\ (forall char_signed gap st edges d',
        parse_round char_signed gap st = Ok (inr (edges, d')) ->
        grows (ps_dawg st) d')
  /\ (forall edges d d',
        finish edges d = Ok d' ->
        hash_table d' = hash_table d
        /\ length (dawg d') = length (dawg d)
        /\ (forall i, (256 <= i)%nat -> dawg d' !! i = dawg d !! i)
        /\ exists root rest,
            edges = root :: rest
            /\ take 256 (dawg d')
               = update_back setEndOfNode
                   (resize 256 Node_default (update_back setEndOfNode root))).
Proof.
  split; [|split; [|split]].
  - intros d edges o d' H. split; [|now apply (insertEdges_grows d edges o)].
    apply insertEdges_Ok in H as [s [(_ & _ & ->)|(_ & _ & _ & ->)]]; auto.
  - intros cs gap st st' H. pose proof (parse_round_grows cs gap st) as G.
    now rewrite H in G.
  - intros cs gap st edges d' H. pose proof (parse_round_grows cs gap st) as G.
    now rewrite H in G.
  - intros edges d d' H.
    apply finish_Ok in H as (root & rest & -> & Hlen & Ht & Hd).
    pose proof (length_padded_root root) as Hroot.
    split; [easy|]. split; [|split].
    + rewrite Hd, length_app, Hroot, length_drop. lia.
    + intros i Hi. rewrite Hd. rewrite lookup_app_r by (rewrite Hroot; lia).
      rewrite Hroot, lookup_drop. f_equal. lia.
    + exists root, rest. split; [easy|]. rewrite Hd.
      rewrite take_app_length' by now rewrite Hroot. reflexivity.
Qed.

(** ** The interner: merging *)

Section Interning.

Implicit Types (d : Dawg) (e g : EdgeList) (arena : list Node).

Lemma closed_group_cons n g :
  closed_group (n :: g) = true ->
  (g = [] /\ isEndOfNode n = true)
  \/ (g <> [] /\ isEndOfNode n = false /\ closed_group g = true).
Proof.
  destruct g as [|m g]; [now left|]. cbn [closed_group].
  intros H. apply andb_true_iff in H as [H1 H2]. apply negb_true_iff in H1.
  right. easy.
Qed.

Lemma stored_cons arena i n g :
  stored arena i (n :: g) <-> arena !! i = Some n /\ stored arena (S i) g.
Proof.
  unfold stored. split.
  - intros H. split.
    + specialize (H 0%nat n eq_refl). now rewrite Nat.add_0_r in H.
    + intros k m Hk. specialize (H (S k) m Hk). now rewrite Nat.add_succ_r in H.
  - intros [H0 H] [|k] m; simpl.
    + intros [= <-]. now rewrite Nat.add_0_r.
    + intros Hk. rewrite Nat.add_succ_r. now apply H.
Qed.

Lemma stored_app arena more i g : stored arena i g -> stored (arena ++ more) i g.
Proof.
  intros H k n Hk. apply lookup_app_l_Some. now apply H.
Qed.

Lemma stored_at_end arena g : stored (arena ++ g) (length arena) g.
Proof.
  intros k n Hk. rewrite lookup_app_r by lia.
  now replace (length arena + k - length arena)%nat with k by lia.
Qed.

Lemma stored_prefix g more : stored (g ++ more) 0 g.
Proof. apply stored_app. apply (stored_at_end [] g). Qed.

Lemma equal_stored_true arena i e : stored arena i e -> equal e arena i = Some true.
Proof.
  revert i. induction e as [|a e IH]; intros i H; [reflexivity|].
  apply stored_cons in H as [H0 H]. cbn [equal].
  rewrite H0, Node_eqb_refl. now apply IH.
Qed.

Lemma equal_true_stored arena i e : equal e arena i = Some true -> stored arena i e.
Proof.
  revert i. induction e as [|a e IH]; intros i; cbn [equal].
  - intros _ k n. now rewrite lookup_nil.
  - destruct (arena !! i) as [b|] eqn:E; [|easy].
    destruct (Node_eqb a b) eqn:Eab; [|easy].
    apply Node_eqb_eq in Eab as <-. intros H. apply stored_cons. auto.
Qed.

Lemma equal_app_Some arena more i e b :
  equal e arena i = Some b -> equal e (arena ++ more) i = Some b.
Proof.
  revert i. induction e as [|a e IH]; intros i; cbn [equal]; [easy|].
  destruct (arena !! i) as [n|] eqn:E; [|easy].
  rewrite (lookup_app_l_Some _ _ _ _ E).
  destruct (Node_eqb a n); [apply IH | easy].
Qed.

(** Against a closed group of the arena, the comparison of a closed group
    never leaves the arena. *)
Lemma equal_closed arena i e g :
  closed_group e = true -> closed_group g = true -> stored arena i g ->
  equal e arena i <> None.
Proof.
  revert i g. induction e as [|a e IH]; intros i g He Hg Hst; [easy|].
  destruct g as [|b g]; [easy|].
  apply stored_cons in Hst as [H0 Hst]. cbn [equal]. rewrite H0.
  destruct (Node_eqb a b) eqn:Eab; [|easy].
  apply Node_eqb_eq in Eab as <-.
  apply closed_group_cons in He as [[-> _]|(Hne & Hn & He)]; [easy|].
  apply closed_group_cons in Hg as [[_ Hy]|(_ & _ & Hg)]; [congruence|].
  now apply (IH (S i) g).
Qed.

(** Two closed groups that lie at the same index are the same. *)
Lemma stored_inj arena i e g :
  closed_group e = true -> closed_group g = true ->
  stored arena i e -> stored arena i g -> e = g.
Proof.
  revert i g. induction e as [|a e IH]; intros i g He Hg Hse Hsg; [easy|].
  destruct g as [|b g]; [easy|].
  apply stored_cons in Hse as [Ha Hse]. apply stored_cons in Hsg as [Hb Hsg].
  assert (a = b) as <- by congruence. f_equal.
  apply closed_group_cons in He as [[-> He]|(Hne & He & Hce)];
    apply closed_group_cons in Hg as [[-> Hg]|(Hng & Hg & Hcg)];
    try congruence.
  now apply (IH (S i)).
Qed.

Lemma same_edges_eq e g : same_edges e g <-> e = g.
Proof.
  split; [|intros ->; split; [easy | intros i n1 n2; congruence]].
  revert g. induction e as [|a e IH]; intros [|b g] [Hlen Hval]; try easy.
  f_equal.
  - specialize (Hval 0%nat a b eq_refl eq_refl). destruct a, b. simpl in Hval.
    congruence.
  - apply IH. split; [simpl in Hlen; lia|].
    intros i n1 n2 H1 H2. now apply (Hval (S i)).
Qed.

Lemma interner_ok_new : interner_ok Dawg_new.
Proof. split; [vm_compute; congruence | easy]. Qed.

Lemma size_appended d e s : size (appended d e s) = size d + Z.of_nat (length e).
Proof. unfold size, appended. cbn [dawg]. rewrite length_app. lia. Qed.

Lemma insertEdges_ok d e o d' :
  interner_ok d -> closed_group e = true ->
  insertEdges d e = Ok (o, d') -> interner_ok d'.
Proof.
  intros [Hsize Hslots] He H.
  apply insertEdges_Ok in H as [s [(Hs & _ & ->)|(_ & _ & _ & ->)]]; [|easy].
  split; [rewrite size_appended; lia|].
  intros s' Hs'. rewrite slot_appended in *. cbn [appended dawg].
  destruct (decide (s = s')) as [<-|Hne].
  - split; [lia|]. exists e. split; [easy|].
    unfold size. rewrite Nat2Z.id. apply stored_at_end.
  - destruct (Hslots s' Hs') as [Hpos (g & Hg & Hst)].
    split; [easy|]. exists g. split; [easy|]. now apply stored_app.
Qed.

Lemma interned_from_ok d d' :
  interned_from d d' -> interner_ok d -> interner_ok d' /\ grows d d'.
Proof.
  induction 1 as [|d1 e o d2 _ IH He Hins]; intros Hok.
  - split; [easy | apply grows_refl].
  - destruct (IH Hok) as [Hok1 Hg]. split.
    + now apply (insertEdges_ok d1 e o).
    + apply grows_trans with d1; [easy|]. now apply (insertEdges_grows d1 e o).
Qed.

(** Where a successful insertion has put, or found, the edge list. *)
Lemma insertEdges_stored d e o d' :
  insertEdges d e = Ok (o, d') -> stored (dawg d') (Z.to_nat (o - 1)) e.
Proof.
  intros H. apply insertEdges_Ok in H as [s [(_ & -> & ->)|(_ & Heq & -> & ->)]].
  - replace (Z.to_nat (size d + 1 - 1)) with (length (dawg d)) by (unfold size; lia).
    apply stored_at_end.
  - replace (slot d s + 1 - 1) with (slot d s) by lia. now apply equal_true_stored.
Qed.

(** Interning a group again, after any further insertions, follows the same
    probes and ends on the slot that holds it. *)
Lemma probe_again fuel d e h0 h inc o d' d3 :
  interner_ok d -> closed_group e = true -> grows d' d3 ->
  probe fuel d e h0 h inc = Ok (o, d') ->
  probe fuel d3 e h0 h inc = Ok (o, d3).
Proof.
  intros Hok He Hg. revert h inc. induction fuel as [|fuel IH]; intros h inc H; [easy|].
  assert (Hd : grows d d3).
  { apply grows_trans with d'; [|easy].
    apply probe_Ok in H as [s [(Hs & _ & ->)|(_ & _ & _ & ->)]];
      [now apply grows_appended | apply grows_refl]. }
  destruct Hok as [Hsize Hslots]. destruct Hd as [[more Hmore] Hsame].
  cbn [probe] in *. destruct (Z.eqb_spec (slot d h) 0) as [E|NE].
  - change (mkDawg (dawg d ++ e) (<[h:=size d]> (hash_table d)))
      with (appended d e h) in H.
    injection H as <- <-. destruct Hg as [[more' Hmore'] Hsame'].
    assert (Hslot : slot d3 h = size d).
    { rewrite Hsame'; rewrite slot_appended; destruct (decide (h = h)); try easy; lia. }
    rewrite slot_appended. destruct (decide (h = h)); [|easy].
    rewrite Hslot. destruct (Z.eqb_spec (size d) 0); [lia|].
    rewrite equal_stored_true; [easy|].
    rewrite Hmore'. cbn [appended dawg]. apply stored_app.
    unfold size. rewrite Nat2Z.id. apply stored_at_end.
  - destruct (Hslots h NE) as [Hpos (g & Hcg & Hst)].
    pose proof (equal_closed _ _ _ _ He Hcg Hst) as Hsome.
    rewrite (Hsame h NE). destruct (Z.eqb_spec (slot d h) 0); [easy|].
    destruct (equal e (dawg d) _) as [b|] eqn:Eq; [|easy].
    rewrite Hmore, (equal_app_Some _ _ _ _ _ Eq).
    destruct b.
    + now injection H as <- <-.
    + destruct (negb _); [now apply IH | easy].
Qed.

Lemma insertEdges_again d e o d' d3 :
  interner_ok d -> closed_group e = true -> grows d' d3 ->
  insertEdges d e = Ok (o, d') -> insertEdges d3 e = Ok (o, d3).
Proof. apply probe_again. Qed.

End Interning.

(** C2.  Let two edge lists, each not empty and with [end_of_node] on
    exactly its last edge, be interned one after the other, with any number
    of such insertions before, between and after.  They get the same
    1-based offset if and only if they have the same length and pairwise
    the same 32-bit values. *)
Theorem intern_same_offset_iff (d1 d2 d3 d4 : Dawg) (e1 e2 : EdgeList) (o1 o2 : Z) :
  interned_from Dawg_new d1 ->
  closed_group e1 = true -> closed_group e2 = true ->
  insertEdges d1 e1 = Ok (o1, d2) ->
  interned_from d2 d3 ->
  insertEdges d3 e2 = Ok (o2, d4) ->
  o1 = o2 <-> same_edges e1 e2.
Proof.
  intros Hd1 He1 He2 H1 Hd3 H2. rewrite same_edges_eq.
  destruct (interned_from_ok _ _ Hd1 interner_ok_new) as [Hok1 _].
  pose proof (insertEdges_ok _ _ _ _ Hok1 He1 H1) as Hok2.
  destruct (interned_from_ok _ _ Hd3 Hok2) as [Hok3 Hg23].
  split.
  - intros <-.
    pose proof (insertEdges_stored _ _ _ _ H1) as S1.
    pose proof (insertEdges_stored _ _ _ _ H2) as S2.
    assert (Hg24 : grows d2 d4).
    { apply grows_trans with d3; [easy|]. now apply (insertEdges_grows d3 e2 o1). }
    destruct Hg24 as [[more Hmore] _]. rewrite Hmore in S2.
    apply (stored_inj (dawg d2 ++ more) (Z.to_nat (o1 - 1))); auto using stored_app.
  - intros <-.
    pose proof (insertEdges_again _ _ _ _ d3 Hok1 He1 Hg23 H1) as H3.
    congruence.
Qed.

(** ** The traversal: bounds *)

Section DumpBounds.

Implicit Types (arena : list Node) (stack : list nat) (os : list ascii).

Lemma stack_letters_in_arena arena stack :
  in_arena arena stack -> stack_letters arena stack <> None.
Proof.
  induction 1 as [|p below Hp _ IH]; [easy|]. cbn [stack_letters].
  destruct (stack_letters arena below); [|easy].
  apply lookup_lt_is_Some_2 in Hp as [n ->]. easy.
Qed.

Lemma advance_in_arena arena stack :
  closed_arena arena -> in_arena arena stack ->
  exists stack', advance arena stack = Some stack' /\ in_arena arena stack'.
Proof.
  intros (z & Hlast & Hz). induction 1 as [|p below Hp Hbelow IH].
  - exists []. split; [easy | constructor].
  - cbn [advance]. destruct (lookup_lt_is_Some_2 _ _ Hp) as [n Hn]. rewrite Hn.
    destruct (isEndOfNode n) eqn:E; [exact IH|].
    exists (S p :: below). split; [easy|]. constructor; [|easy].
    destruct (Nat.eq_dec (S p) (length arena)) as [Heq|]; [|lia].
    rewrite last_lookup, <- Heq in Hlast. simpl in Hlast. congruence.
Qed.

(** In an arena whose last node closes its group, the traversal reads no
    node outside the arena, whatever the offsets are. *)
Lemma dump_loop_in_arena fuel arena stack os :
  closed_arena arena -> in_arena arena stack ->
  snd (dump_loop fuel arena stack os) <> OutOfBounds.
Proof.
  intros Hc. revert stack os. induction fuel as [|fuel IH]; intros stack os Hin; [easy|].
  cbn [dump_loop]. destruct stack as [|p below]; [easy|].
  pose proof (Forall_inv Hin) as Hp. cbn beta in Hp.
  destruct (lookup_lt_is_Some_2 _ _ Hp) as [n Hn]. rewrite Hn.
  pose proof (stack_letters_in_arena _ _ Hin) as Hl.
  destruct (isEndOfWord n);
    (destruct (stack_letters arena (p :: below)) as [w|]; [|try easy]); cbn [fmap option_fmap option_map].
  all: destruct (negb (getOffset n =? 0)).
  all: try (destruct (Z.ltb_spec (getOffset n - 1) (Z.of_nat (length arena))); [|easy];
            apply IH; constructor; [lia | easy]).
  all: destruct (advance_in_arena _ _ Hc Hin) as (stack' & -> & Hin'); now apply IH.
Qed.

(** An offset that points outside the arena is caught by the range check:
    the traversal stops with the diagnostic, without reading the node. *)
Lemma dump_loop_offset_checked fuel arena p below os n :
  arena !! p = Some n -> isEndOfWord n = false ->
  getOffset n <> 0 -> Z.of_nat (length arena) <= getOffset n - 1 ->
  dump_loop (S fuel) arena (p :: below) os = (os, CorruptGraph).
Proof.
  intros Hn Hw Ho Hout. cbn [dump_loop]. rewrite Hn, Hw.
  destruct (Z.eqb_spec (getOffset n) 0); [easy|]. cbn [negb].
  now destruct (Z.ltb_spec (getOffset n - 1) (Z.of_nat (length arena))); [lia|].
Qed.

(** The diagnostic does not change the exit code. *)
Lemma main_dump_corrupt_graph fuel file r :
  main_dump fuel file = Some r -> diagnostic r = true -> exit_code r = 0.
Proof.
  unfold main_dump. destruct (load Dawg_new file); try easy.
  - destruct (dump fuel a) as [os []]; try easy; now intros [= <-].
  - now intros [= <-].
Qed.

End DumpBounds.

(** C4.  [dump] can read the arena out of bounds: only the dereference
    that follows an offset goes through [at()]; the step to the next
    sibling does not.  The file [01 00 00 00 00 00 00 00] loads as an arena
    of one zero node, without [end_of_node]; the traversal steps past it
    and reads [dawg[1]]. *)
Theorem dump_reads_past_arena :
  let file := map to_uchar [1; 0; 0; 0; 0; 0; 0; 0] in
  exists d,
    load Dawg_new file = Ok d
    /\ dawg d = [Node_default]
    /\ forall fuel, dump (S (S fuel)) d = ([], OutOfBounds)
                    /\ main_dump (S (S fuel)) file = None.
Proof.
  intros file. eexists. split; [vm_compute; reflexivity|].
  split; [reflexivity|]. intros fuel. split; reflexivity.
Qed.

(** ** The traversal prints the words of the arena *)

Section DumpWords.

Implicit Types (arena : list Node) (stack below : list nat) (os pre : list ascii).

Lemma lines_nil pre : lines pre [] = [].
Proof. reflexivity. Qed.

Lemma lines_app pre ws ws' : lines pre (ws ++ ws') = lines pre ws ++ lines pre ws'.
Proof. unfold lines. now rewrite map_app, concat_app. Qed.

Lemma lines_cons_map pre c ws : lines pre (map (cons c) ws) = lines (pre ++ [c]) ws.
Proof.
  unfold lines. rewrite map_map. f_equal. apply map_ext. intros w.
  now rewrite <- app_assoc.
Qed.

Lemma group_words_lookup lo arena i ws :
  group_words lo arena i ws -> (lo <= i < length arena)%nat.
Proof.
  intros H. destruct H as [i n Hi Hn|i n ws Hi Hn|i n wc Hi Hn|i n wc ws Hi Hn];
    apply lookup_lt_Some in Hn; lia.
Qed.

(** One round of the loop at an edge: the word that ends there. *)
Lemma lines_own_word arena p below pre n os :
  arena !! p = Some n -> stack_letters arena below = Some pre ->
  (if isEndOfWord n
   then (fun w => os ++ w ++ ["010"%char]) <$> stack_letters arena (p :: below)
   else Some os) = Some (os ++ lines pre (own_word n)).
Proof.
  intros Hn Hpre. unfold own_word. cbn [stack_letters]. rewrite Hn, Hpre.
  destruct (isEndOfWord n); cbn.
  - now rewrite app_nil_r, <- !app_assoc.
  - now rewrite app_nil_r.
Qed.

Lemma child_in_arena arena n wc :
  getOffset n <> 0 -> group_words 0 arena (child n) wc ->
  negb (getOffset n =? 0) = true
  /\ (getOffset n - 1 <? Z.of_nat (length arena)) = true.
Proof.
  intros Ho Hc. apply group_words_lookup in Hc as [_ Hc].
  pose proof (getOffset_range n). unfold child in Hc. split.
  - now destruct (Z.eqb_spec (getOffset n) 0).
  - apply Z.ltb_lt. lia.
Qed.

(** The traversal of a group prints its words below the letters of the
    stack, and goes on where [advance] takes the stack below it. *)
Lemma dump_loop_group arena i ws :
  group_words 0 arena i ws ->
  forall below pre os stack',
    stack_letters arena below = Some pre ->
    advance arena below = Some stack' ->
    exists rounds, forall fuel,
      dump_loop (rounds + fuel) arena (i :: below) os
      = dump_loop fuel arena stack' (os ++ lines pre ws).
Proof.
  induction 1 as [i n Hi Hn Ho He
                 |i n ws Hi Hn Ho He Hrest IHrest
                 |i n wc Hi Hn Ho He Hchild IHchild
                 |i n wc ws Hi Hn Ho He Hchild IHchild Hrest IHrest];
    intros below pre os stack' Hpre Hadv.
  - exists 1%nat. intros fuel. cbn [Nat.add dump_loop]. rewrite Hn.
    rewrite (lines_own_word _ _ _ pre) by easy.
    rewrite Ho. cbn [Z.eqb negb advance]. now rewrite Hn, He, Hadv.
  - destruct (IHrest below pre (os ++ lines pre (own_word n)) stack' Hpre Hadv)
      as [rounds Hrounds].
    exists (S rounds). intros fuel. cbn [Nat.add dump_loop]. rewrite Hn.
    rewrite (lines_own_word _ _ _ pre) by easy.
    rewrite Ho. cbn [Z.eqb negb advance]. rewrite Hn, He.
    now rewrite Hrounds, lines_app, app_assoc.
  - destruct (child_in_arena _ _ _ Ho Hchild) as [Hne Hlt].
    assert (Hletters : stack_letters arena (i :: below) = Some (pre ++ [getChar n])).
    { cbn [stack_letters]. now rewrite Hpre, Hn. }
    assert (Hup : advance arena (i :: below) = Some stack').
    { cbn [advance]. now rewrite Hn, He. }
    destruct (IHchild (i :: below) (pre ++ [getChar n])
                (os ++ lines pre (own_word n)) stack' Hletters Hup)
      as [rounds Hrounds].
    exists (S rounds). intros fuel. cbn [Nat.add dump_loop]. rewrite Hn.
    rewrite (lines_own_word _ _ _ pre) by easy.
    rewrite Hne, Hlt. fold (child n).
    now rewrite Hrounds, lines_app, lines_cons_map, app_assoc.
  - destruct (child_in_arena _ _ _ Ho Hchild) as [Hne Hlt].
    assert (Hletters : stack_letters arena (i :: below) = Some (pre ++ [getChar n])).
    { cbn [stack_letters]. now rewrite Hpre, Hn. }
    assert (Hup : advance arena (i :: below) = Some (S i :: below)).
    { cbn [advance]. now rewrite Hn, He. }
    destruct (IHchild (i :: below) (pre ++ [getChar n])
                (os ++ lines pre (own_word n)) (S i :: below) Hletters Hup)
      as [rounds1 Hrounds1].
    destruct (IHrest below pre
                (os ++ lines pre (own_word n) ++ lines (pre ++ [getChar n]) wc)
                stack' Hpre Hadv)
      as [rounds2 Hrounds2].
    exists (S (rounds1 + rounds2)). intros fuel.
    cbn [Nat.add dump_loop]. rewrite Hn.
    rewrite (lines_own_word _ _ _ pre) by easy.
    rewrite Hne, Hlt. fold (child n).
    rewrite <- Nat.add_assoc, Hrounds1, <- app_assoc, Hrounds2.
    now rewrite !lines_app, lines_cons_map, <- !app_assoc.
Qed.

(** [dump] prints the words of the root group, one per line. *)
Lemma dump_words d ws :
  group_words 0 (dawg d) 0 ws ->
  exists fuel, dump fuel d = (lines [] ws, Finished).
Proof.
  intros H.
  destruct (dump_loop_group _ _ _ H [] [] [] [] eq_refl eq_refl) as [rounds Hr].
  exists (rounds + 1)%nat. unfold dump. now rewrite Hr.
Qed.

End DumpWords.

(** ** The file codec: [save] then [load] *)

Section Codec.

Implicit Types (d : Dawg) (n : Node) (v : Z).

Lemma word_of_bytes_output v :
  0 <= v < 2 ^ 32 ->
  match output v with
  | [b0; b1; b2; b3] => word_of_bytes b0 b1 b2 b3 = v
  | _ => False
  end.
Proof.
  intros Hv. unfold output, word_of_bytes. rewrite !uchar_to_uchar.
  rewrite !Z.shiftr_div_pow2, !Z.shiftl_mul_pow2 by lia.
  pose proof (Z.div_mod v 256 ltac:(lia)) as E0.
  pose proof (Z.mod_pos_bound v 256 ltac:(lia)) as B0.
  pose proof (Z.div_mod (v / 256) 256 ltac:(lia)) as E1.
  pose proof (Z.mod_pos_bound (v / 256) 256 ltac:(lia)) as B1.
  pose proof (Z.div_mod (v / 256 / 256) 256 ltac:(lia)) as E2.
  pose proof (Z.mod_pos_bound (v / 256 / 256) 256 ltac:(lia)) as B2.
  change (2 ^ 8) with 256.
  replace (v / 2 ^ 16) with (v / 256 / 256) by (rewrite Z.div_div by lia; reflexivity).
  replace (v / 2 ^ 24) with (v / 256 / 256 / 256)
    by (rewrite !Z.div_div by lia; reflexivity).
  assert (H3 : 0 <= v / 256 / 256 / 256 < 256).
  { rewrite !Z.div_div by lia. split; [apply Z.div_pos; lia|].
    apply Z.div_lt_upper_bound; lia. }
  rewrite (Z.mod_small (v / 256 / 256 / 256)) by easy.
  pose proof (Z.div_mod (v / 256 / 256) 256 ltac:(lia)) as E3.
  lia.
Qed.

Lemma read_nodes_write (nodes : list Node) more :
  Forall node_ok nodes ->
  read_nodes (length nodes) (flat_map Node_write nodes ++ more) = nodes.
Proof.
  induction 1 as [|n nodes Hn _ IH]; [reflexivity|].
  cbn [length read_nodes flat_map]. change (Node_write n) with (output (value n)).
  pose proof (word_of_bytes_output (value n) Hn) as Hw.
  unfold output in *. cbn [app nth drop]. rewrite Hw. destruct n as [v]. cbn [value].
  f_equal. exact IH.
Qed.

Lemma length_flat_map_write (nodes : list Node) :
  length (flat_map Node_write nodes) = (4 * length nodes)%nat.
Proof.
  induction nodes as [|n nodes IH]; [reflexivity|].
  cbn [flat_map length]. rewrite length_app, IH. unfold Node_write, output. simpl. lia.
Qed.

Lemma load_save d0 d :
  Forall node_ok (dawg d) -> size d < 2 ^ 30 - 1 ->
  load d0 (save d) = Ok (mkDawg (dawg d) (hash_table d0)).
Proof.
  intros Hok Hsize. unfold load, save.
  assert (Hs : 0 <= size d) by (unfold size; lia).
  assert (Hu : uint32 (size d) = size d) by (unfold uint32; apply Z.mod_small; lia).
  rewrite Hu.
  pose proof (word_of_bytes_output (size d) ltac:(lia)) as Hw.
  unfold output in *. cbn [app load_header]. rewrite Hw.
  cbn [length]. rewrite length_flat_map_write.
  assert (Hc : uint32 (size d * 4 + 4) = Z.of_nat (S (S (S (S (4 * length (dawg d))))))).
  { unfold uint32. rewrite Z.mod_small by lia. unfold size. lia. }
  rewrite Hc, Z.eqb_refl. cbn [negb rbind drop]. f_equal. f_equal.
  unfold size. rewrite Nat2Z.id.
  rewrite <- (app_nil_r (flat_map _ _)). now apply read_nodes_write.
Qed.

(** *** Values that fit *)

Lemma lor_range a b k :
  0 <= k -> 0 <= a < 2 ^ k -> 0 <= b < 2 ^ k -> 0 <= Z.lor a b < 2 ^ k.
Proof.
  intros Hk Ha Hb. split; [apply Z.lor_nonneg; lia|].
  destruct (Z.eq_dec (Z.lor a b) 0) as [->|Hne]; [lia|].
  apply Z.log2_lt_pow2; [pose proof (Z.lor_nonneg a b); lia|].
  rewrite Z.log2_lor by lia.
  destruct (Z.eq_dec a 0) as [->|Ha0], (Z.eq_dec b 0) as [->|Hb0].
  - now rewrite Z.lor_0_l in Hne.
  - rewrite Z.max_r by (simpl; apply Z.log2_nonneg). apply Z.log2_lt_pow2; lia.
  - rewrite Z.max_l by (simpl; apply Z.log2_nonneg). apply Z.log2_lt_pow2; lia.
  - apply Z.max_lub_lt; apply Z.log2_lt_pow2; lia.
Qed.

Lemma node_ok_new c b : node_ok (Node_new c b).
Proof. apply Node_new_fields. Qed.

Lemma node_ok_default : node_ok Node_default.
Proof. unfold node_ok. simpl. lia. Qed.

Lemma node_ok_setEndOfNode n : node_ok n -> node_ok (setEndOfNode n).
Proof.
  unfold node_ok, setEndOfNode. cbn [value]. intros H.
  apply lor_range; [lia | easy | now vm_compute].
Qed.

Lemma node_ok_setChildOffset n o : node_ok n -> node_ok (setChildOffset n o).
Proof.
  unfold node_ok. rewrite value_setChildOffset. intros H.
  apply lor_range; [lia | easy |].
  pose proof (Z.mod_pos_bound o (2 ^ 21)). lia.
Qed.

End Codec.

(** ** The words of edge lists *)

Section EdgeWords.

Implicit Types (arena : list Node) (g init : EdgeList) (n : Node) (ws wc wi : list word).

Lemma agrees_app lo arena more : agrees lo arena (arena ++ more).
Proof. intros j n _ H. now apply lookup_app_l_Some. Qed.

Lemma agrees_refl lo arena : agrees lo arena arena.
Proof. now intros j n _ H. Qed.

Lemma agrees_trans lo a1 a2 a3 : agrees lo a1 a2 -> agrees lo a2 a3 -> agrees lo a1 a3.
Proof. intros H1 H2 j n Hj H. apply H2; [easy|]. now apply H1. Qed.

Lemma grows_agrees lo d d' : grows d d' -> agrees lo (dawg d) (dawg d').
Proof. intros [[more ->] _]. apply agrees_app. Qed.

Lemma group_words_agrees lo arena arena' i ws :
  agrees lo arena arena' -> group_words lo arena i ws -> group_words lo arena' i ws.
Proof.
  intros Ha. induction 1; [apply group_leaf_last | apply group_leaf_more
                          | apply group_inner_last | apply group_inner_more]; auto.
Qed.

Lemma group_words_weaken lo lo' arena i ws :
  (lo' <= lo)%nat -> group_words lo arena i ws -> group_words lo' arena i ws.
Proof.
  intros Hlo. induction 1; [apply group_leaf_last | apply group_leaf_more
                           | apply group_inner_last | apply group_inner_more];
    auto; lia.
Qed.

Lemma edges_words_agrees lo arena arena' g ws :
  agrees lo arena arena' -> edges_words lo arena g ws -> edges_words lo arena' g ws.
Proof.
  intros Ha. induction 1; [apply edges_none | apply edges_leaf | apply edges_inner];
    eauto using group_words_agrees.
Qed.

Lemma edges_words_weaken lo lo' arena g ws :
  (lo' <= lo)%nat -> edges_words lo arena g ws -> edges_words lo' arena g ws.
Proof.
  intros Hlo. induction 1; [apply edges_none | apply edges_leaf | apply edges_inner];
    eauto using group_words_weaken.
Qed.

Lemma pending_agrees arena arena' wc below sp ws :
  agrees 256 arena arena' -> pending arena wc below sp ws -> pending arena' wc below sp ws.
Proof.
  intros Ha. induction 1 as [wc|wc init n below sp wi ws Hn Hi _ IH].
  - apply pending_root.
  - apply pending_edge with wi; eauto using edges_words_agrees.
Qed.

Lemma edges_words_nil lo arena ws : edges_words lo arena [] ws -> ws = [].
Proof. now inversion 1. Qed.

Lemma edges_words_snoc_leaf lo arena init n wi :
  edges_words lo arena init wi -> getOffset n = 0 ->
  edges_words lo arena (init ++ [n]) (wi ++ own_word n).
Proof.
  intros H Hn. induction H as [|m g ws Hm _ IH|m g wc ws Hm Hc _ IH]; cbn [app].
  - rewrite <- (app_nil_r (own_word n)). apply edges_leaf; [easy | constructor].
  - rewrite <- app_assoc. now apply edges_leaf.
  - rewrite <- !app_assoc. now apply edges_inner.
Qed.

Lemma edges_words_snoc_inner lo arena init n wi wc :
  edges_words lo arena init wi -> getOffset n <> 0 ->
  group_words lo arena (child n) wc ->
  edges_words lo arena (init ++ [n]) (wi ++ own_word n ++ map (cons (getChar n)) wc).
Proof.
  intros H Hn Hc. induction H as [|m g ws Hm _ IH|m g wc' ws Hm Hc' _ IH]; cbn [app].
  - rewrite <- (app_nil_r (map _ wc)). apply edges_inner; [easy | easy | constructor].
  - rewrite <- app_assoc. now apply edges_leaf.
  - rewrite <- !app_assoc. now apply edges_inner.
Qed.

Lemma update_back_snoc f init n : update_back f (init ++ [n]) = init ++ [f n].
Proof.
  induction init as [|m init IH]; [reflexivity|].
  cbn [app]. destruct (init ++ [n]) eqn:E.
  - now destruct init.
  - cbn [update_back]. cbn [update_back] in IH. now rewrite <- IH.
Qed.

Lemma snoc_cases {A} (l : list A) : l = [] \/ exists (front : list A) x, l = front ++ [x].
Proof.
  induction l as [|a l IH] using rev_ind; [now left|]. right. now exists l, a.
Qed.

Lemma own_word_setEndOfNode n : own_word (setEndOfNode n) = own_word n.
Proof.
  unfold own_word. now rewrite isEndOfWord_setEndOfNode, getChar_setEndOfNode.
Qed.

Lemma child_setEndOfNode n : child (setEndOfNode n) = child n.
Proof. unfold child. now rewrite getOffset_setEndOfNode. Qed.

Lemma edges_words_setEndOfNode lo arena n ws :
  edges_words lo arena [n] ws -> edges_words lo arena [setEndOfNode n] ws.
Proof.
  inversion 1 as [|m g ws' Hm Hg|m g wc ws' Hm Hc Hg]; subst.
  - rewrite <- own_word_setEndOfNode.
    apply edges_leaf; [now rewrite getOffset_setEndOfNode | easy].
  - rewrite <- own_word_setEndOfNode, <- getChar_setEndOfNode.
    apply edges_inner; [now rewrite getOffset_setEndOfNode | | easy].
    now rewrite child_setEndOfNode.
Qed.

Lemma edges_words_app_inv lo arena g1 g2 ws :
  edges_words lo arena (g1 ++ g2) ws ->
  exists w1 w2, ws = w1 ++ w2 /\ edges_words lo arena g1 w1 /\ edges_words lo arena g2 w2.
Proof.
  revert ws. induction g1 as [|m g1 IH]; intros ws H; cbn [app] in H.
  - exists [], ws. repeat split; [constructor | easy].
  - inversion H as [|m' g ws' Hm Hg|m' g wc ws' Hm Hc Hg]; subst.
    + destruct (IH _ Hg) as (w1 & w2 & -> & H1 & H2).
      exists (own_word m ++ w1), w2. rewrite <- app_assoc.
      repeat split; [now apply edges_leaf | easy].
    + destruct (IH _ Hg) as (w1 & w2 & -> & H1 & H2).
      exists (own_word m ++ map (cons (getChar m)) wc ++ w1), w2.
      rewrite <- !app_assoc. repeat split; [now apply edges_inner | easy].
Qed.

Lemma edges_words_app lo arena g1 g2 w1 w2 :
  edges_words lo arena g1 w1 -> edges_words lo arena g2 w2 ->
  edges_words lo arena (g1 ++ g2) (w1 ++ w2).
Proof.
  intros H1 H2. induction H1; cbn [app]; [easy| |].
  - rewrite <- app_assoc. now apply edges_leaf.
  - rewrite <- !app_assoc. now apply edges_inner.
Qed.

(** Closing a list of edges does not change its words. *)
Lemma edges_words_close lo arena g ws :
  edges_words lo arena g ws -> edges_words lo arena (update_back setEndOfNode g) ws.
Proof.
  intros H. destruct (snoc_cases g) as [->|(init & n & ->)]; [easy|].
  rewrite update_back_snoc.
  apply edges_words_app_inv in H as (w1 & w2 & -> & H1 & H2).
  apply edges_words_app; [easy|]. now apply edges_words_setEndOfNode.
Qed.

Lemma closed_group_snoc init n :
  Forall (fun m => isEndOfNode m = false) init -> isEndOfNode n = true ->
  closed_group (init ++ [n]) = true.
Proof.
  intros Hinit Hn. induction Hinit as [|m init Hm _ IH]; [easy|].
  cbn [app]. destruct (init ++ [n]) eqn:E; [now destruct init|].
  cbn [closed_group] in *. now rewrite Hm, IH.
Qed.

(** A list of fresh edges is a closed group once its last edge is closed. *)
Lemma closed_group_close g :
  g <> [] -> Forall fresh g -> closed_group (update_back setEndOfNode g) = true.
Proof.
  intros Hne Hf. destruct (snoc_cases g) as [->|(init & n & ->)]; [easy|].
  rewrite update_back_snoc. apply closed_group_snoc.
  - apply Forall_app in Hf as [Hf _]. eapply Forall_impl; [exact Hf|]. now intros m [Hm _].
  - apply isEndOfNode_setEndOfNode.
Qed.

(** A closed group that lies in the arena spells the words of its edges. *)
Lemma stored_group_words lo arena g ws :
  edges_words lo arena g ws ->
  forall i, closed_group g = true -> stored arena i g -> (lo <= i)%nat ->
  group_words lo arena i ws.
Proof.
  induction 1 as [|n g ws Hn Hg IH|n g wc ws Hn Hc Hg IH]; intros i Hcl Hst Hi; [easy| |].
  - apply stored_cons in Hst as [Hi0 Hst].
    apply closed_group_cons in Hcl as [[-> He]|(Hne & He & Hcl)].
    + apply edges_words_nil in Hg as ->. rewrite app_nil_r. now apply group_leaf_last.
    + apply group_leaf_more; auto.
  - apply stored_cons in Hst as [Hi0 Hst].
    apply closed_group_cons in Hcl as [[-> He]|(Hne & He & Hcl)].
    + apply edges_words_nil in Hg as ->. rewrite app_nil_r. now apply group_inner_last.
    + apply group_inner_more; auto.
Qed.

Lemma pending_snoc arena wc below sp ws x :
  pending arena wc below sp ws ->
  pending arena (wc ++ [x]) below sp (ws ++ [sp ++ x]).
Proof.
  intros H. revert x. induction H as [wc|wc init n below sp wi ws Hn Hi _ IH]; intros x.
  - apply pending_root.
  - apply pending_edge with wi; [easy | easy|].
    specialize (IH (getChar n :: x)).
    rewrite map_app, !app_assoc. rewrite <- !app_assoc in IH.
    rewrite <- !app_assoc. exact IH.
Qed.

Lemma pending_length arena wc below sp ws :
  pending arena wc below sp ws -> length sp = length below.
Proof.
  induction 1; [reflexivity|]. rewrite length_app. simpl. lia.
Qed.

End EdgeWords.

(** ** The builder: unwinding the stack *)

Section Unwind.

Implicit Types (arena : list Node) (g init : EdgeList) (n : Node)
  (stack below : list EdgeList) (d : Dawg).

Lemma pending_snoc_inv arena wc below sp c ws :
  pending arena wc below (sp ++ [c]) ws ->
  exists init n below' wi,
    below = (init ++ [n]) :: below'
    /\ getChar n = c /\ getOffset n = 0
    /\ edges_words 256 arena init wi
    /\ pending arena (wi ++ own_word n ++ map (cons (getChar n)) wc) below' sp ws.
Proof.
  inversion 1 as [wc' E1 E2 E3|wc' init n below' sp' wi ws' Hn Hi Hp E1 E2 E3 E4]; subst.
  - now destruct sp.
  - apply app_inj_tail in E3 as [-> <-]. now exists init, n, below', wi.
Qed.

Lemma Forall_update_back (P : Node -> Prop) f g :
  (forall n, P n -> P (f n)) -> Forall P g -> Forall P (update_back f g).
Proof.
  intros Hf Hg. destruct (snoc_cases g) as [->|(init & n & ->)]; [easy|].
  rewrite update_back_snoc. apply Forall_app in Hg as [Hi Hn].
  apply Forall_app. split; [easy|]. constructor; [|easy].
  apply Hf. now apply Forall_inv in Hn.
Qed.

Lemma insertEdges_offset_range d g o d' :
  interner_ok d -> g <> [] -> insertEdges d g = Ok (o, d') ->
  256 <= o - 1 /\ o <= size d'.
Proof.
  intros [Hsize Hslots] Hne H.
  apply insertEdges_Ok in H as [s [(_ & -> & ->)|(Hs & Heq & -> & ->)]].
  - rewrite size_appended. destruct g; [easy|]. simpl length. lia.
  - destruct (Hslots s Hs) as [Hlo _]. split; [lia|].
    apply equal_true_stored in Heq. destruct g as [|b g]; [easy|].
    apply stored_cons in Heq as [Hb _]. apply lookup_lt_Some in Hb.
    unfold size. lia.
Qed.

Lemma insertEdges_node_ok d g o d' :
  Forall node_ok (dawg d) -> Forall node_ok g ->
  insertEdges d g = Ok (o, d') -> Forall node_ok (dawg d').
Proof.
  intros Hd Hg H.
  apply insertEdges_Ok in H as [s [(_ & _ & ->)|(_ & _ & _ & ->)]]; [|easy].
  cbn [appended dawg]. apply Forall_app. easy.
Qed.

Lemma root_letters_cons g g' stack :
  root_letters (g :: g' :: stack) = root_letters (g' :: stack).
Proof. reflexivity. Qed.

Lemma fresh_setChildOffset n o : fresh n -> fresh (setChildOffset n o).
Proof.
  intros [He Hok]. split; [now rewrite isEndOfNode_setChildOffset|].
  now apply node_ok_setChildOffset.
Qed.

Lemma own_word_setChildOffset n o : own_word (setChildOffset n o) = own_word n.
Proof.
  unfold own_word. now rewrite isEndOfWord_setChildOffset, getChar_setChildOffset.
Qed.

Lemma root_letters_setChildOffset init n o below :
  root_letters ((init ++ [setChildOffset n o]) :: below)
  = root_letters ((init ++ [n]) :: below).
Proof.
  destruct below as [|g below]; [|reflexivity].
  unfold root_letters. simpl.
  rewrite !map_app. cbn [map]. now rewrite getChar_setChildOffset.
Qed.

(** Unwinding [k] levels commits the [k] innermost pending edge lists: the
    stack spells the same words along the spine shortened by [k] letters. *)
Lemma unwind_inv k :
  forall stack d sp_keep sp_drop ws stack' d',
    stack_inv (dawg d) stack (sp_keep ++ sp_drop) ws ->
    length sp_drop = k ->
    stack_ok stack d ->
    unwind k stack d = Ok (stack', d') ->
    size d' < 2 ^ 21 ->
    stack_inv (dawg d') stack' sp_keep ws
    /\ stack_ok stack' d'
    /\ root_letters stack' = root_letters stack.
Proof.
  induction k as [|k IH];
    intros stack d sp_keep sp_drop ws stack' d' Hinv Hlen Hok Hun Hsize.
  - destruct sp_drop; [|easy]. rewrite app_nil_r in Hinv.
    cbn [unwind] in Hun. injection Hun as <- <-. easy.
  - destruct (snoc_cases sp_drop) as [->|(sp_mid & c & ->)]; [easy|].
    rewrite length_app in Hlen. cbn [length] in Hlen.
    destruct Hinv as (top & below & wt & -> & Htop & Hpend).
    rewrite app_assoc in Hpend.
    apply pending_snoc_inv in Hpend
      as (init & n & below' & wi & -> & Hc & Hn & Hinit & Hpend).
    destruct Hok as (Hfresh & Hint & Hnodes).
    apply Forall_cons in Hfresh as [Hftop Hfresh].
    pose proof Hfresh as Hfresh'.
    apply Forall_cons in Hfresh' as [Hfparent Hfbelow].
    cbn [unwind] in Hun. destruct top as [|m r].
    + apply edges_words_nil in Htop as ->.
      cbn [map] in Hpend. rewrite app_nil_r in Hpend.
      apply (IH _ _ sp_keep sp_mid ws) in Hun; [| |lia| |easy].
      * now rewrite root_letters_cons.
      * exists (init ++ [n]), below', (wi ++ own_word n).
        split; [easy|]. split; [now apply edges_words_snoc_leaf | easy].
      * easy.
    + set (ready := update_back setEndOfNode (m :: r)) in *.
      destruct (insertEdges d ready) as [[o d1]| | |] eqn:Eins; cbn [rbind] in Hun;
        try easy.
      destruct (init ++ [n]) as [|x parent] eqn:Eparent; [now destruct init|].
      rewrite <- Eparent in *. clear x parent Eparent.
      rewrite update_back_snoc in Hun.
      assert (Hclosed : closed_group ready = true) by now apply closed_group_close.
      assert (Hready_ok : Forall node_ok ready).
      { apply Forall_update_back; [apply node_ok_setEndOfNode|].
        eapply Forall_impl; [exact Hftop|]. now intros y [_ Hy]. }
      pose proof (insertEdges_grows _ _ _ _ Eins) as Hg1.
      pose proof (insertEdges_ok _ _ _ _ Hint Hclosed Eins) as Hint1.
      pose proof (insertEdges_node_ok _ _ _ _ Hnodes Hready_ok Eins) as Hnodes1.
      pose proof (insertEdges_stored _ _ _ _ Eins) as Hst.
      assert (Hne : ready <> []) by now destruct ready.
      destruct (insertEdges_offset_range _ _ _ _ Hint Hne Eins) as [Ho1 Ho2].
      pose proof (unwind_grows _ _ _ _ _ Hun) as Hg2.
      assert (Hbig : size d1 <= size d').
      { destruct Hg2 as [[more Hmore] _]. unfold size. rewrite Hmore, length_app. lia. }
      assert (Hmod : o mod 2 ^ 21 = o) by (apply Z.mod_small; lia).
      assert (Hoff : getOffset (setChildOffset n o) = o).
      { now rewrite getOffset_setChildOffset, Hn, Hmod, Z.lor_0_l. }
      pose proof (grows_agrees 256 _ _ Hg1) as Hag.
      assert (Hchild : group_words 256 (dawg d1) (child (setChildOffset n o)) wt).
      { unfold child. rewrite Hoff.
        apply stored_group_words with ready; [| easy | easy | lia].
        apply edges_words_close. now apply edges_words_agrees with (dawg d). }
      apply (IH _ _ sp_keep sp_mid ws) in Hun; [| |lia| |easy].
      * destruct Hun as (H1 & H2 & H3). split; [easy|]. split; [easy|].
        now rewrite H3, root_letters_cons, root_letters_setChildOffset.
      * exists (init ++ [setChildOffset n o]), below',
          (wi ++ own_word n ++ map (cons (getChar n)) wt).
        split; [easy|]. split.
        -- rewrite <- (own_word_setChildOffset n o), <- (getChar_setChildOffset n o).
           apply edges_words_snoc_inner; [|lia|easy].
           now apply edges_words_agrees with (dawg d).
        -- now apply pending_agrees with (dawg d).
      * split; [|easy]. constructor; [|easy].
        apply Forall_app in Hfparent as [Hfi Hfn]. apply Forall_app. split; [easy|].
        constructor; [|easy]. apply fresh_setChildOffset. now apply Forall_inv in Hfn.
Qed.

End Unwind.

(** ** The builder: extending the stack *)

Section Extend.

Implicit Types (arena : list Node) (top : EdgeList) (below : list EdgeList)
  (sp rest : word) (ws : list word).

Lemma fresh_new c b : fresh (Node_new c b).
Proof. split; [apply isEndOfNode_new | apply node_ok_new]. Qed.

Lemma own_word_new c b : own_word (Node_new c b) = if b then [[c]] else [].
Proof. unfold own_word. now rewrite isEndOfWord_new, getChar_new. Qed.

Lemma root_letters_extended top c b below :
  root_letters ((top ++ [Node_new c b]) :: below)
  = match below with
    | [] => root_letters [top] ++ [uchar c]
    | _ => root_letters (top :: below)
    end.
Proof.
  destruct below as [|g below]; [|reflexivity].
  unfold root_letters. simpl. rewrite map_app. cbn [map]. now rewrite getChar_new.
Qed.

Lemma pending_new arena (wc : list word) top (c : ascii) (b : bool) below sp
    (wt : list word) ws :
  edges_words 256 arena top wt ->
  pending arena (wt ++ (if b then [[c]] else []) ++ map (cons c) wc) below sp ws ->
  pending arena wc ((top ++ [Node_new c b]) :: below) (sp ++ [c]) ws.
Proof.
  intros Htop Hp.
  pose proof (pending_edge arena wc top (Node_new c b) below sp wt ws
                (getOffset_new c b) Htop) as P.
  rewrite own_word_new, getChar_new in P. now apply P.
Qed.

(** Adding the letters [c :: rest] below the spine [sp] adds one word. *)
Lemma extend_inv arena rest :
  forall c top below wt sp ws,
    edges_words 256 arena top wt ->
    pending arena wt below sp ws ->
    Forall (Forall fresh) (top :: below) ->
    exists below',
      extend (c :: rest) (top :: below) = Ok ([] :: below')
      /\ pending arena [] below' (sp ++ c :: rest) (ws ++ [sp ++ c :: rest])
      /\ Forall (Forall fresh) below'
      /\ root_letters ([] :: below')
         = match below with
           | [] => root_letters [top] ++ [uchar c]
           | _ => root_letters (top :: below)
           end.
Proof.
  induction rest as [|c' rest IH]; intros c top below wt sp ws Htop Hpend Hfresh.
  - exists ((top ++ [Node_new c true]) :: below). cbn [extend length Nat.eqb].
    split; [easy|]. split; [|split].
    + apply pending_new with wt; [easy|]. cbn [map]. rewrite app_nil_r.
      now apply pending_snoc.
    + apply Forall_cons in Hfresh as [Ht Hb]. constructor; [|easy].
      apply Forall_app. split; [easy|]. constructor; [apply fresh_new | easy].
    + rewrite root_letters_cons. apply root_letters_extended.
  - cbn [extend length Nat.eqb].
    assert (Hpend' : pending arena [] ((top ++ [Node_new c false]) :: below)
                       (sp ++ [c]) ws).
    { apply pending_new with wt; [easy|]. cbn [map app]. now rewrite app_nil_r. }
    assert (Hfresh' : Forall (Forall fresh) ([] :: (top ++ [Node_new c false]) :: below)).
    { apply Forall_cons in Hfresh as [Ht Hb]. constructor; [easy|].
      constructor; [|easy].
      apply Forall_app. split; [easy|]. constructor; [apply fresh_new | easy]. }
    destruct (IH c' [] ((top ++ [Node_new c false]) :: below) [] (sp ++ [c]) ws
                (edges_none _ _) Hpend' Hfresh')
      as (below' & Hext & Hp & Hf & Hr).
    exists below'. split; [easy|]. rewrite <- !app_assoc in Hp. cbn [app] in Hp.
    split; [easy|]. split; [easy|].
    rewrite Hr, root_letters_cons. apply root_letters_extended.
Qed.

End Extend.

(** ** The reader on an ascending input *)

Section Ascending.

Implicit Types (w cur : word) (wb : WordBuffer).

Lemma common_prefix_length_take w cur :
  take (common_prefix_length w cur) w = take (common_prefix_length w cur) cur.
Proof.
  revert cur. induction w as [|a w IH]; intros [|b cur]; try reflexivity.
  cbn [common_prefix_length]. destruct (Ascii.eqb_spec a b) as [->|]; [|reflexivity].
  cbn [take]. now rewrite IH.
Qed.

Lemma common_prefix_length_le w cur :
  (common_prefix_length w cur <= length cur)%nat.
Proof.
  revert cur. induction w as [|a w IH]; intros [|b cur]; cbn; try lia.
  destruct (Ascii.eqb a b); cbn; [|lia]. specialize (IH cur). lia.
Qed.

(** Where a word and a strictly greater one part. *)
Lemma word_lt_mismatch cur w :
  word_lt cur w = true ->
  let p := common_prefix_length w cur in
  (p < length w)%nat
  /\ (p = length cur
      \/ ((p < length cur)%nat /\ uchar (nth p cur NUL) < uchar (nth p w NUL))).
Proof.
  revert w. induction cur as [|b cur IH]; intros [|a w] H; try easy.
  - cbn. split; [lia | now left].
  - cbn [word_lt] in H. cbn [common_prefix_length].
    destruct (Ascii.eqb_spec a b) as [->|Hne].
    + rewrite Z.ltb_irrefl, Z.eqb_refl in H. cbn in H.
      destruct (IH w H) as [H1 H2]. cbn [length nth]. split; [lia|].
      destruct H2 as [->|[H2 H3]]; [now left | right; split; [lia | easy]].
    + cbn [length nth]. split; [lia|]. right. split; [lia|].
      apply orb_true_iff in H as [H1|H1]; [now apply Z.ltb_lt|].
      apply andb_true_iff in H1 as [H1 _]. apply Z.eqb_eq in H1.
      apply uchar_inj in H1. congruence.
Qed.

Lemma plain_value char_signed c :
  plain char_signed c = true -> char_value char_signed c = uchar c /\ 0 < uchar c.
Proof.
  unfold plain, char_value. pose proof (uchar_range c) as Hr.
  intros H. apply andb_true_iff in H as [H0 H1].
  apply negb_true_iff, Z.eqb_neq in H0. split; [|lia].
  destruct char_signed; [|reflexivity]. cbn in H1. apply Z.ltb_lt in H1.
  cbn [andb]. destruct (Z.leb_spec 128 (uchar c)); [lia | reflexivity].
Qed.

Lemma plain_word_nth char_signed w p :
  plain_word char_signed w = true -> (p < length w)%nat ->
  plain char_signed (nth p w NUL) = true.
Proof.
  unfold plain_word. rewrite forallb_forall. intros H Hp. apply H. now apply nth_In.
Qed.

Lemma plain_word_no_NUL char_signed w : plain_word char_signed w = true -> NUL ∉ w.
Proof.
  unfold plain_word. rewrite forallb_forall. intros H Hin.
  apply list_elem_of_In in Hin. apply H in Hin. now destruct char_signed.
Qed.

Lemma skip_short_long w rest c :
  (2 <= length w)%nat -> skip_short (w :: rest) [] c = (w, rest, c).
Proof.
  intros H. cbn [skip_short]. destruct (Nat.ltb_spec (length w) 2); [lia | easy].
Qed.

(** On the next word of an ascending input, [next] returns the length of
    its common prefix with the current word. *)
Lemma next_ascending char_signed gap wb w rest :
  input wb = w :: rest -> (2 <= length w <= LOCAL_CAPACITY)%nat ->
  plain_word char_signed w = true -> plain_word char_signed (current wb) = true ->
  word_lt (current wb) w = true ->
  next char_signed gap wb
  = Ok ((Z.of_nat (common_prefix_length w (current wb)), w),
        mkWordBuffer (count wb) w rest).
Proof.
  intros Hin [Hlen Hloc] Hw Hcur Hlt. unfold next, distance_after_move.
  rewrite Hin, skip_short_long by easy.
  rewrite mismatch_data by now apply plain_word_no_NUL with char_signed.
  destruct (word_lt_mismatch _ _ Hlt) as [Hp Hcase].
  set (p := common_prefix_length w (current wb)) in *.
  destruct (Nat.eqb_spec p (length w)) as [|_]; [lia|]. cbn [orb].
  rewrite nth_data.
  destruct (plain_value _ _ (plain_word_nth _ _ _ Hw Hp)) as [Vw Pw].
  assert (Hno : char_lt char_signed (nth p w NUL) (nth p (current wb) NUL) = false).
  { unfold char_lt. rewrite Vw. apply Z.ltb_ge.
    destruct Hcase as [Hend|[Hin' Hless]].
    - rewrite nth_overflow by lia.
      destruct char_signed; change (char_value _ NUL) with 0; lia.
    - destruct (plain_value _ _ (plain_word_nth _ _ _ Hcur Hin')) as [-> _]. lia. }
  rewrite Hno, andb_false_r.
  now destruct (Nat.leb_spec (length w) LOCAL_CAPACITY) as [_|]; [|lia].
Qed.

(** At the end of an input of long words, [next] returns the empty word. *)
Lemma next_at_end char_signed gap wb :
  input wb = [] ->
  next char_signed gap wb = Ok ((0, []), mkWordBuffer (count wb) [] []).
Proof. intros Hin. unfold next. now rewrite Hin. Qed.

Lemma StronglySorted_snoc (l : list Z) y :
  StronglySorted Z.lt l -> Forall (fun x => x < y) l -> StronglySorted Z.lt (l ++ [y]).
Proof.
  induction 1 as [|x l Hl IH Hx]; intros Hy; cbn [app].
  - constructor; constructor.
  - apply Forall_cons in Hy as [Hxy Hy]. constructor; [now apply IH|].
    apply Forall_app. split; [easy|]. now constructor.
Qed.

(** A strictly increasing list of values between [lo] and [hi] has at most
    [hi - lo] elements. *)
Lemma StronglySorted_length (l : list Z) lo hi :
  StronglySorted Z.lt l -> Forall (fun x => lo <= x < hi) l ->
  Z.of_nat (length l) <= Z.max 0 (hi - lo).
Proof.
  intros Hs. revert lo. induction Hs as [|x l Hl IH Hx]; intros lo Hr; [cbn; lia|].
  apply Forall_cons in Hr as [Hx0 Hr].
  assert (Hr' : Forall (fun y => x + 1 <= y < hi) l).
  { rewrite Forall_forall in *. intros y Hy. specialize (Hx y Hy).
    specialize (Hr y Hy). cbn beta in *. lia. }
  specialize (IH _ Hr'). cbn [length]. lia.
Qed.

End Ascending.

(** ** The builder: the loop of [parse] *)

Section ParseLoop.

Implicit Types (st : parse_state) (ws : list word) (w : word) (d : Dawg).

Lemma pending_nil_inv arena wc below ws :
  pending arena wc below [] ws -> below = [] /\ ws = wc.
Proof.
  inversion 1 as [wc' E1 E2 E3|wc' init n below' sp' wi ws' Hn Hi Hp E1 E2 E3 E4]; subst.
  - easy.
  - now destruct sp'.
Qed.

Lemma grows_size d d' : grows d d' -> size d <= size d'.
Proof.
  intros [[more Hmore] _]. unfold size. rewrite Hmore, length_app. lia.
Qed.

Lemma take_head_value p w cur :
  (0 < p)%nat -> take p w = take p cur -> head_value w = head_value cur.
Proof.
  destruct p as [|p]; [lia|]. intros _.
  destruct w as [|a w], cur as [|b cur]; cbn [take]; try easy. now intros [= ->].
Qed.

(** One round on the next word [w] of an ascending input. *)
Lemma parse_round_word char_signed gap st ws w rest r :
  builder_inv char_signed st ws ->
  input (ps_word st) = w :: rest ->
  parse_round char_signed gap st = Ok r ->
  exists st',
    r = inl st'
    /\ input (ps_word st') = rest
    /\ (size (ps_dawg st') < 2 ^ 21 -> builder_inv char_signed st' (ws ++ [w])).
Proof.
  intros (Hinv & Hidx & Hok & Hroot & Hasc & Hlong & Hplain) Hin Hr.
  rewrite Hin in *. set (cur := current (ps_word st)) in *.
  cbn [ascending] in Hasc. apply andb_true_iff in Hasc as [Hlt Hasc].
  apply Forall_cons in Hlong as [Hlen Hlong].
  apply Forall_cons in Hplain as [Hpcur Hplain].
  pose proof Hplain as Hplain'. apply Forall_cons in Hplain' as [Hpw _].
  rewrite (parse_round_next _ _ _ _ _ _
             (next_ascending char_signed gap (ps_word st) w rest Hin Hlen Hpw Hpcur Hlt))
    in Hr.
  fold cur in Hr.
  destruct (word_lt_mismatch _ _ Hlt) as [Hp Hcase].
  pose proof (common_prefix_length_le w cur) as Hple.
  pose proof (common_prefix_length_take w cur) as Htake.
  set (p := common_prefix_length w cur) in *.
  destruct (Nat.ltb_spec (ps_idx st) p) as [|_]; [lia|].
  destruct (unwind (ps_idx st - p) (ps_edges st) (ps_dawg st))
    as [[edges d1]| | |] eqn:U; cbn [rbind] in Hr; try easy.
  destruct (Nat.eqb_spec (length w) 0) as [|_]; [lia|].
  destruct (drop p w) as [|c r'] eqn:Ed.
  { apply (f_equal length) in Ed. rewrite length_drop in Ed. cbn in Ed. lia. }
  destruct (extend (c :: r') edges) as [edges'| | |] eqn:X; cbn [rbind] in Hr; try easy.
  injection Hr as <-. eexists. split; [reflexivity|]. split; [reflexivity|].
  unfold builder_inv. cbn [ps_dawg ps_word ps_edges ps_idx current input].
  intros Hsize.
  assert (Hinv0 : stack_inv (dawg (ps_dawg st)) (ps_edges st)
                     (take p cur ++ drop p cur) ws) by now rewrite take_drop.
  assert (Hk : length (drop p cur) = (ps_idx st - p)%nat)
    by (rewrite length_drop; lia).
  destruct (unwind_inv _ _ _ _ _ _ _ _ Hinv0 Hk Hok U Hsize)
    as (Hinv1 & Hok1 & Hletters).
  destruct Hinv1 as (top & below & wt & -> & Htop & Hpend).
  destruct Hok1 as (Hfresh1 & Hint1 & Hnodes1).
  destruct (extend_inv (dawg d1) r' c top below wt (take p cur) ws Htop Hpend Hfresh1)
    as (below' & Hext & Hp' & Hf' & Hr').
  rewrite Hext in X. injection X as <-.
  assert (Hw : take p cur ++ c :: r' = w).
  { rewrite <- Htake, <- Ed. apply take_drop. }
  rewrite Hw in Hp'.
  destruct Hroot as [Hsorted Hle]. rewrite <- Hletters in Hsorted, Hle.
  apply pending_length in Hpend. rewrite length_take in Hpend.
  refine (conj _ (conj _ (conj _ (conj _ (conj _ (conj _ _)))))).
  - exists [], below', []. repeat split; [constructor | easy].
  - lia.
  - split; [now constructor | easy].
  - unfold root_ok. rewrite Hr'. destruct below as [|g below].
    + cbn [length] in Hpend. assert (Hp0 : p = 0%nat) by lia.
      assert (Ew : w = c :: r') by (rewrite <- Ed, Hp0; reflexivity).
      assert (Hhead : head_value cur < uchar c).
      { rewrite Hp0, Ew in Hcase. revert Hcase. generalize cur.
        intros [|b cur'] Hcase; cbn [head_value nth length] in *.
        - pose proof (uchar_range c). lia.
        - destruct Hcase as [|[_ Hcase]]; [easy | lia]. }
      rewrite Ew. cbn [head_value].
      assert (Hall : Forall (fun x => x < uchar c) (root_letters [top])).
      { eapply Forall_impl; [exact Hle|]. cbn beta. intros x Hx. lia. }
      split; [now apply StronglySorted_snoc|].
      apply Forall_app. split; [|now repeat constructor].
      eapply Forall_impl; [exact Hall|]. cbn beta. intros x Hx. lia.
    + rewrite root_letters_cons in *. cbn [length] in Hpend.
      rewrite (take_head_value p w cur) by (easy || lia). easy.
  - exact Hasc.
  - exact Hlong.
  - exact Hplain.
Qed.

(** The last round, at the end of the input. *)
Lemma parse_round_end char_signed gap st ws r :
  builder_inv char_signed st ws ->
  input (ps_word st) = [] ->
  parse_round char_signed gap st = Ok r ->
  exists edges d',
    r = inr (edges, d')
    /\ (size d' < 2 ^ 21 ->
        exists root,
          edges = [root]
          /\ edges_words 256 (dawg d') root ws
          /\ stack_ok [root] d'
          /\ root_letters [root] = root_letters (ps_edges st)).
Proof.
  intros (Hinv & Hidx & Hok & Hroot & Hasc & Hlong & Hplain) Hin Hr.
  rewrite (parse_round_next _ _ _ 0%nat _ _ (next_at_end char_signed gap _ Hin)) in Hr.
  destruct (Nat.ltb_spec (ps_idx st) 0) as [|_]; [lia|]. rewrite Nat.sub_0_r in Hr.
  destruct (unwind (ps_idx st) (ps_edges st) (ps_dawg st))
    as [[edges d1]| | |] eqn:U; cbn [rbind] in Hr; try easy.
  cbn in Hr. injection Hr as <-. exists edges, d1. split; [reflexivity|].
  intros Hsize.
  assert (Hk : length (current (ps_word st)) = ps_idx st) by easy.
  destruct (unwind_inv _ _ _ [] _ _ _ _ Hinv Hk Hok U Hsize)
    as (Hinv1 & Hok1 & Hletters).
  destruct Hinv1 as (top & below & wt & -> & Htop & Hpend).
  apply pending_nil_inv in Hpend as [-> ->]. now exists top.
Qed.

(** The loop ends with the root edge list alone on the stack, spelling the
    words read so far followed by those of the input. *)
Lemma parse_loop_inv fuel char_signed gaps :
  forall st ws edges d',
    builder_inv char_signed st ws ->
    parse_loop fuel char_signed gaps st = Ok (edges, d') ->
    size d' < 2 ^ 21 ->
    exists root,
      edges = [root]
      /\ edges_words 256 (dawg d') root (ws ++ input (ps_word st))
      /\ stack_ok [root] d'
      /\ StronglySorted Z.lt (root_letters [root]).
Proof.
  revert gaps.
  induction fuel as [|fuel IH]; intros gaps st ws edges d' Hinv Hloop Hsize; [easy|].
  cbn [parse_loop] in Hloop.
  destruct (parse_round char_signed (gaps 0%nat) st) as [r| | |] eqn:R;
    cbn [rbind] in Hloop; try easy.
  destruct (input (ps_word st)) as [|w rest] eqn:Hin.
  - destruct (parse_round_end _ _ _ _ _ Hinv Hin R) as (edges1 & d1 & -> & Hend).
    injection Hloop as <- <-.
    destruct (Hend Hsize) as (root & -> & Hw & Hok & Hl).
    exists root. rewrite app_nil_r.
    split; [reflexivity|]. split; [easy|]. split; [easy|].
    rewrite Hl. now destruct Hinv as (_ & _ & _ & [Hs _] & _).
  - destruct (parse_round_word _ _ _ _ _ _ _ Hinv Hin R) as (st' & -> & Hin' & Hnext).
    pose proof (parse_loop_grows _ _ _ _ _ _ Hloop) as Hg. apply grows_size in Hg.
    assert (Hinv' : builder_inv char_signed st' (ws ++ [w])) by (apply Hnext; lia).
    destruct (IH _ _ _ _ _ Hinv' Hloop Hsize) as (root & -> & Hw & Hok & Hs).
    exists root. rewrite Hin', <- app_assoc in Hw. easy.
Qed.

End ParseLoop.

(** ** The builder: the root group *)

Section Finish.

Implicit Types (root : EdgeList) (d : Dawg) (ws : list word).

Lemma edges_words_zeros lo arena k :
  edges_words lo arena (replicate k Node_default ++ [setEndOfNode Node_default]) [].
Proof.
  induction k as [|k IH]; cbn [replicate app].
  - apply (edges_leaf lo arena (setEndOfNode Node_default) [] []); [reflexivity|].
    constructor.
  - apply (edges_leaf lo arena Node_default _ []); [reflexivity | exact IH].
Qed.

Lemma closed_group_zeros k :
  closed_group (replicate k Node_default ++ [setEndOfNode Node_default]) = true.
Proof.
  apply closed_group_snoc; [|reflexivity]. now apply Forall_replicate.
Qed.

Lemma update_back_closed g :
  g <> [] -> update_back setEndOfNode (update_back setEndOfNode g)
             = update_back setEndOfNode g.
Proof.
  intros Hne. destruct (snoc_cases g) as [->|(init & n & ->)]; [easy|].
  rewrite !update_back_snoc. f_equal. f_equal.
  apply setEndOfNode_idem, isEndOfNode_setEndOfNode.
Qed.

(** The padded root: the closed root edges first, or, without any root
    edge, 255 zero nodes and a closing one. *)
Lemma padded_root_shape root :
  (length root <= 256)%nat ->
  exists tail,
    update_back setEndOfNode
      (resize (Z.to_nat MAX_CHARS) Node_default (update_back setEndOfNode root))
    = match root with
      | [] => replicate 255 Node_default ++ [setEndOfNode Node_default]
      | _ => update_back setEndOfNode root
      end ++ tail.
Proof.
  intros Hlen. change (Z.to_nat MAX_CHARS) with 256%nat.
  destruct root as [|n root].
  - exists []. rewrite app_nil_r. cbn [update_back].
    change 256%nat with (S 255). rewrite resize_nil, replicate_S_end.
    apply update_back_snoc.
  - set (g := n :: root) in *. assert (Hne : g <> []) by easy. clearbody g.
    rewrite resize_ge by now rewrite length_update_back.
    rewrite length_update_back.
    destruct (256 - length g)%nat as [|k].
    + exists []. cbn [replicate]. rewrite !app_nil_r. now apply update_back_closed.
    + exists (replicate k Node_default ++ [setEndOfNode Node_default]).
      rewrite replicate_S_end, app_assoc, update_back_snoc. now rewrite <- app_assoc.
Qed.

Lemma root_length root :
  StronglySorted Z.lt (root_letters [root]) -> (length root <= 256)%nat.
Proof.
  intros Hs. unfold root_letters in Hs. simpl in Hs.
  pose proof (StronglySorted_length _ 0 256 Hs) as H.
  rewrite length_map in H. enough (Z.of_nat (length root) <= Z.max 0 (256 - 0)) by lia.
  apply H. apply Forall_map, Forall_forall. intros n _. apply uchar_range.
Qed.

(** The final step puts the root group at index 0, where it spells the
    words of the root edge list. *)
Lemma finish_words root d ws :
  edges_words 256 (dawg d) root ws ->
  stack_ok [root] d ->
  StronglySorted Z.lt (root_letters [root]) ->
  exists d',
    finish [root] d = Ok d'
    /\ group_words 0 (dawg d') 0 ws
    /\ Forall node_ok (dawg d')
    /\ size d' = size d.
Proof.
  intros Hw (Hfresh & [Hsize _] & Hnodes) Hs.
  apply Forall_inv in Hfresh.
  pose proof (root_length root Hs) as Hlen.
  pose proof (length_padded_root root) as Hpad.
  destruct (padded_root_shape root Hlen) as [tail Hshape].
  unfold finish. rewrite Hpad.
  assert (Hd : (256 <= length (dawg d))%nat) by (unfold size in Hsize; lia).
  destruct (Nat.ltb_spec (length (dawg d)) 256) as [|_]; [lia|].
  eexists. split; [reflexivity|]. cbn [dawg].
  set (padded := update_back setEndOfNode _) in *.
  assert (Hag : agrees 256 (dawg d) (padded ++ drop 256 (dawg d))).
  { intros j n Hj Hn. rewrite lookup_app_r by lia. rewrite Hpad, lookup_drop.
    now replace (256 + (j - 256))%nat with j by lia. }
  assert (Hnodes_root : Forall node_ok root).
  { eapply Forall_impl; [exact Hfresh|]. now intros n [_ Hn]. }
  split; [|split].
  - rewrite Hshape. destruct root as [|n root].
    + apply edges_words_nil in Hw as ->.
      apply stored_group_words
        with (replicate 255 Node_default ++ [setEndOfNode Node_default]);
        [apply edges_words_zeros | apply closed_group_zeros | | lia].
      rewrite <- app_assoc. apply stored_prefix.
    + apply stored_group_words with (update_back setEndOfNode (n :: root));
        [| now apply closed_group_close | | lia].
      * apply edges_words_close. apply edges_words_weaken with 256%nat; [lia|].
        rewrite <- Hshape. now apply edges_words_agrees with (dawg d).
      * rewrite <- app_assoc. apply stored_prefix.
  - apply Forall_app. split; [|now apply Forall_drop].
    apply Forall_update_back; [apply node_ok_setEndOfNode|].
    apply Forall_resize; [apply node_ok_default|].
    apply Forall_update_back; [apply node_ok_setEndOfNode | easy].
  - unfold size. cbn [dawg]. rewrite length_app, Hpad, length_drop. lia.
Qed.

(** The invariant holds when [parse] starts on an ascending input. *)
Lemma builder_inv_start char_signed (L : list word) :
  ascending L = true ->
  Forall (fun w => (2 <= length w <= LOCAL_CAPACITY)%nat) L ->
  Forall (fun w => plain_word char_signed w = true) L ->
  builder_inv char_signed (mkParseState (WordBuffer_new L) [[]] 0 Dawg_new) [].
Proof.
  intros Hasc Hlong Hplain. unfold builder_inv.
  cbn [ps_dawg ps_word ps_edges ps_idx current input WordBuffer_new].
  refine (conj _ (conj _ (conj _ (conj _ (conj _ (conj _ _)))))).
  - exists [], [], []. repeat split; constructor.
  - reflexivity.
  - split; [repeat constructor|]. split; [apply interner_ok_new|].
    apply Forall_replicate, node_ok_default.
  - split; constructor.
  - destruct L as [|w L]; [reflexivity|].
    change (ascending ([] :: w :: L)) with (word_lt [] w && ascending (w :: L)).
    rewrite Hasc. apply Forall_inv in Hlong. now destruct w.
  - exact Hlong.
  - now constructor.
Qed.

(** On an ascending input of long, plain words, a [parse] that completes
    within 2^21 edges leaves an arena whose root group spells the input. *)
Lemma parse_words char_signed gaps (L : list word) d :
  ascending L = true ->
  Forall (fun w => (2 <= length w <= LOCAL_CAPACITY)%nat) L ->
  Forall (fun w => plain_word char_signed w = true) L ->
  parse char_signed gaps Dawg_new L = Ok d ->
  size d < 2 ^ 21 ->
  group_words 0 (dawg d) 0 L /\ Forall node_ok (dawg d).
Proof.
  intros Hasc Hlong Hplain Hparse Hsize. unfold parse in Hparse.
  destruct (parse_loop _ _ _ _) as [[edges d1]| | |] eqn:Hloop; cbn [rbind] in Hparse;
    try easy.
  assert (Hd1 : size d1 = size d).
  { apply finish_Ok in Hparse as (root & rest & _ & Hlen & _ & Hd).
    unfold size. rewrite Hd, length_app, length_padded_root, length_drop. lia. }
  destruct (parse_loop_inv _ _ _ _ _ _ _ (builder_inv_start _ _ Hasc Hlong Hplain) Hloop)
    as (root & -> & Hw & Hok & Hs); [lia|].
  destruct (finish_words _ _ _ Hw Hok Hs) as (d' & Hfin & Hg & Hn & _).
  rewrite Hfin in Hparse. injection Hparse as <-. easy.
Qed.

End Finish.

(** ** The builder completes, or the table is full *)

Section Progress.

Implicit Types (st : parse_state) (d : Dawg) (stack : list EdgeList) (g : EdgeList).

Lemma probe_defined fuel d g h0 h inc :
  interner_ok d -> closed_group g = true -> probe fuel d g h0 h inc <> Undefined.
Proof.
  intros [Hsize Hslots] Hg. revert h inc.
  induction fuel as [|fuel IH]; intros h inc; cbn [probe]; [easy|].
  destruct (Z.eqb_spec (slot d h) 0) as [|NE]; [easy|].
  destruct (Hslots h NE) as [_ (g' & Hg' & Hst)].
  pose proof (equal_closed _ _ _ _ Hg Hg' Hst) as Hsome.
  destruct (equal g (dawg d) _) as [[]|]; try easy.
  destruct (negb _); [apply IH | easy].
Qed.

(** Interning a closed group gives an offset, or fails for a full table. *)
Lemma insertEdges_result d g :
  interner_ok d -> closed_group g = true ->
  (exists o d', insertEdges d g = Ok (o, d')) \/ insertEdges d g = Throw HashTableFull.
Proof.
  intros Hok Hg.
  pose proof (probe_defined (Z.to_nat HASH_TABLE_SIZE) d g (hash g) (hash g) 9 Hok Hg)
    as Hdef.
  pose proof (insertEdges_terminates d g) as Hterm.
  pose proof (insertEdges_Throw d g) as Hthrow.
  fold (insertEdges d g) in Hdef.
  destruct (insertEdges d g) as [[o d']|e| |]; try easy.
  - left. now exists o, d'.
  - right. now rewrite (Hthrow e eq_refl).
Qed.

Lemma update_back_not_nil f g : g <> [] -> update_back f g <> [].
Proof.
  intros Hne H. apply (f_equal length) in H. rewrite length_update_back in H.
  now destruct g.
Qed.

Lemma unwind_result k :
  forall stack d,
    shape_ok stack -> interner_ok d -> (k < length stack)%nat ->
    (exists stack' d',
        unwind k stack d = Ok (stack', d')
        /\ shape_ok stack' /\ interner_ok d'
        /\ length stack' = (length stack - k)%nat)
    \/ unwind k stack d = Throw HashTableFull.
Proof.
  induction k as [|k IH]; intros stack d Hshape Hint Hk.
  - left. exists stack, d. cbn [unwind]. rewrite Nat.sub_0_r. easy.
  - destruct Hshape as (_ & Htail & Hfresh).
    destruct stack as [|ready [|parent below]]; cbn [length] in Hk; try lia.
    cbn [tail] in Htail. apply Forall_cons in Hfresh as [Hfr Hfresh].
    pose proof Htail as Htail'. apply Forall_cons in Htail' as [Hparent Hbelow].
    pose proof Hfresh as Hfresh'. apply Forall_cons in Hfresh' as [Hfp Hfb].
    cbn [unwind]. destruct ready as [|m r].
    + destruct (IH (parent :: below) d) as [(s' & d' & H1 & H2 & H3 & H4)|H];
        [easy | easy | cbn [length]; lia | | now right].
      left. exists s', d'. split; [easy|]. split; [easy|]. split; [easy|].
      cbn [length] in *. lia.
    + set (ready := update_back setEndOfNode (m :: r)).
      assert (Hclosed : closed_group ready = true) by now apply closed_group_close.
      destruct (insertEdges_result d ready Hint Hclosed) as [(o & d1 & Hins)|Hins];
        rewrite Hins; cbn [rbind]; [|now right].
      pose proof (insertEdges_ok _ _ _ _ Hint Hclosed Hins) as Hint1.
      destruct parent as [|x parent]; [easy|].
      set (parent' := update_back (fun n => setChildOffset n o) (x :: parent)).
      assert (Hshape1 : shape_ok (parent' :: below)).
      { split; [easy|]. split; [easy|]. constructor; [|easy].
        apply Forall_update_back; [|easy]. intros n. apply fresh_setChildOffset. }
      destruct (IH (parent' :: below) d1 Hshape1 Hint1)
        as [(s' & d' & H1 & H2 & H3 & H4)|H]; [cbn [length] in *; lia | | now right].
      left. exists s', d'. split; [easy|]. split; [easy|]. split; [easy|].
      cbn [length] in *. lia.
Qed.

Lemma extend_result letters :
  forall stack,
    shape_ok stack ->
    exists stack',
      extend letters stack = Ok stack'
      /\ shape_ok stack'
      /\ length stack' = (length stack + length letters)%nat.
Proof.
  induction letters as [|c rest IH]; intros stack Hshape.
  - exists stack. cbn [extend length]. rewrite Nat.add_0_r. easy.
  - destruct Hshape as (Hne & Htail & Hfresh).
    destruct stack as [|top below]; [easy|]. cbn [extend tail] in *.
    apply Forall_cons in Hfresh as [Hft Hfb].
    destruct (IH ([] :: (top ++ [Node_new c (length rest =? 0)%nat]) :: below))
      as (s' & H1 & H2 & H3).
    { split; [easy|]. split.
      - cbn [tail]. constructor; [now destruct top | easy].
      - constructor; [easy|]. constructor; [|easy].
        apply Forall_app. split; [easy|]. constructor; [apply fresh_new | easy]. }
    exists s'. split; [easy|]. split; [easy|]. cbn [length] in *. lia.
Qed.

Lemma finish_result stack d :
  stack <> [] -> interner_ok d -> exists d', finish stack d = Ok d'.
Proof.
  intros Hne [Hsize _]. unfold finish. destruct stack as [|root rest]; [easy|].
  rewrite length_padded_root. unfold size in Hsize.
  destruct (Nat.ltb_spec (length (dawg d)) 256) as [|_]; [lia|]. now eexists.
Qed.

(** One round of the loop on a good input. *)
Lemma parse_round_result char_signed gap st :
  progress_inv char_signed st ->
  parse_round char_signed gap st = Throw HashTableFull
  \/ (exists st',
        parse_round char_signed gap st = Ok (inl st')
        /\ progress_inv char_signed st'
        /\ S (length (input (ps_word st'))) = length (input (ps_word st)))
  \/ (exists stack d',
        parse_round char_signed gap st = Ok (inr (stack, d'))
        /\ stack <> [] /\ interner_ok d').
Proof.
  intros (Hshape & Hint & Hlen & Hidx & Hasc & Hlong & Hplain).
  destruct (input (ps_word st)) as [|w rest] eqn:Hin.
  - rewrite (parse_round_next _ _ _ 0%nat _ _ (next_at_end char_signed gap _ Hin)).
    destruct (Nat.ltb_spec (ps_idx st) 0) as [|_]; [lia|]. rewrite Nat.sub_0_r.
    destruct (unwind_result (ps_idx st) _ _ Hshape Hint)
      as [(s' & d' & H1 & H2 & H3 & H4)|H]; [lia | | rewrite H; now left].
    rewrite H1. cbn. right. right. exists s', d'. split; [easy|].
    split; [now destruct H2 | easy].
  - set (cur := current (ps_word st)) in *.
    change (ascending (cur :: w :: rest)) with (word_lt cur w && ascending (w :: rest))
      in Hasc.
    apply andb_true_iff in Hasc as [Hlt Hasc].
    apply Forall_cons in Hlong as [Hwlen Hlong].
    apply Forall_cons in Hplain as [Hpcur Hplain].
    pose proof Hplain as Hplain'. apply Forall_cons in Hplain' as [Hpw _].
    rewrite (parse_round_next _ _ _ _ _ _
               (next_ascending char_signed gap (ps_word st) w rest Hin Hwlen Hpw Hpcur Hlt)).
    fold cur.
    destruct (word_lt_mismatch _ _ Hlt) as [Hp Hcase].
    pose proof (common_prefix_length_le w cur) as Hple.
    set (p := common_prefix_length w cur) in *.
    destruct (Nat.ltb_spec (ps_idx st) p) as [|_]; [lia|].
    destruct (unwind_result (ps_idx st - p) _ _ Hshape Hint)
      as [(s1 & d1 & H1 & H2 & H3 & H4)|H]; [lia | | rewrite H; now left].
    rewrite H1. cbn [rbind].
    destruct (Nat.eqb_spec (length w) 0) as [|_]; [lia|].
    destruct (extend_result (drop p w) s1 H2) as (s2 & X1 & X2 & X3).
    rewrite X1. cbn [rbind]. right. left. eexists. split; [reflexivity|].
    unfold progress_inv, reader_ok.
    cbn [ps_dawg ps_word ps_edges ps_idx current input].
    rewrite length_drop in X3.
    split; [|reflexivity].
    refine (conj X2 (conj H3 (conj _ (conj _ (conj Hasc (conj Hlong Hplain)))))); lia.
Qed.

Lemma parse_loop_result fuel char_signed gaps :
  forall st,
    progress_inv char_signed st ->
    (length (input (ps_word st)) < fuel)%nat ->
    parse_loop fuel char_signed gaps st = Throw HashTableFull
    \/ exists stack d',
        parse_loop fuel char_signed gaps st = Ok (stack, d')
        /\ stack <> [] /\ interner_ok d'.
Proof.
  revert gaps. induction fuel as [|fuel IH]; intros gaps st Hinv Hfuel; [lia|].
  cbn [parse_loop].
  destruct (parse_round_result char_signed (gaps 0%nat) st Hinv)
    as [H|[(st' & H & Hinv' & Hless)|(stack & d' & H & Hne & Hint)]];
    rewrite H; cbn [rbind].
  - now left.
  - apply IH; [easy | lia].
  - right. now exists stack, d'.
Qed.

Lemma progress_inv_start char_signed (L : list word) :
  ascending L = true ->
  Forall (fun w => (2 <= length w <= LOCAL_CAPACITY)%nat) L ->
  Forall (fun w => plain_word char_signed w = true) L ->
  progress_inv char_signed (mkParseState (WordBuffer_new L) [[]] 0 Dawg_new).
Proof.
  intros Hasc Hlong Hplain.
  destruct (builder_inv_start char_signed L Hasc Hlong Hplain)
    as (_ & _ & _ & _ & H1 & H2 & H3).
  unfold progress_inv, reader_ok, shape_ok.
  cbn [ps_dawg ps_word ps_edges ps_idx current input WordBuffer_new] in *.
  repeat split; try easy; try apply interner_ok_new. repeat constructor.
Qed.

(** On an ascending input of long, plain words, [parse] returns an arena or
    fails because the hash table is full. *)
Lemma parse_result char_signed gaps (L : list word) :
  ascending L = true ->
  Forall (fun w => (2 <= length w <= LOCAL_CAPACITY)%nat) L ->
  Forall (fun w => plain_word char_signed w = true) L ->
  parse char_signed gaps Dawg_new L = Throw HashTableFull
  \/ exists d, parse char_signed gaps Dawg_new L = Ok d.
Proof.
  intros Hasc Hlong Hplain. unfold parse.
  destruct (parse_loop_result (S (S (length L))) char_signed gaps _
              (progress_inv_start char_signed L Hasc Hlong Hplain))
    as [H|(stack & d' & H & Hne & Hint)]; [cbn; lia | | ]; rewrite H; cbn [rbind].
  - now left.
  - right. now apply finish_result.
Qed.

End Progress.

(** ** A token of more than 15 characters *)

Section LongToken.

Implicit Types (st : parse_state) (wb : WordBuffer) (cur w s : word)
  (pre post : list word).

(** One round of the loop on the next word of the ascending run. *)
Lemma parse_round_upto char_signed gap st w pre post :
  progress_upto char_signed st (w :: pre) post ->
  parse_round char_signed gap st = Throw HashTableFull
  \/ exists st',
       parse_round char_signed gap st = Ok (inl st')
       /\ progress_upto char_signed st' pre post
       /\ current (ps_word st') = w.
Proof.
  intros (Hshape & Hint & Hlen & Hidx & Hin & Hasc & Hlong & Hplain).
  cbn [app] in Hin.
  set (cur := current (ps_word st)) in *.
  change (ascending (cur :: w :: pre)) with (word_lt cur w && ascending (w :: pre))
    in Hasc.
  apply andb_true_iff in Hasc as [Hlt Hasc].
  apply Forall_cons in Hlong as [Hwlen Hlong].
  apply Forall_cons in Hplain as [Hpcur Hplain].
  pose proof Hplain as Hplain'. apply Forall_cons in Hplain' as [Hpw _].
  rewrite (parse_round_next _ _ _ _ _ _
             (next_ascending char_signed gap (ps_word st) w _ Hin Hwlen Hpw Hpcur Hlt)).
  fold cur.
  destruct (word_lt_mismatch _ _ Hlt) as [Hp Hcase].
  pose proof (common_prefix_length_le w cur) as Hple.
  set (p := common_prefix_length w cur) in *.
  destruct (Nat.ltb_spec (ps_idx st) p) as [|_]; [lia|].
  destruct (unwind_result (ps_idx st - p) _ _ Hshape Hint)
    as [(s1 & d1 & H1 & H2 & H3 & H4)|H]; [lia | | rewrite H; now left].
  rewrite H1. cbn [rbind].
  destruct (Nat.eqb_spec (length w) 0) as [|_]; [lia|].
  destruct (extend_result (drop p w) s1 H2) as (s2 & X1 & X2 & X3).
  rewrite X1. cbn [rbind]. right. eexists. split; [reflexivity|].
  unfold progress_upto, reader_upto.
  cbn [ps_dawg ps_word ps_edges ps_idx current input].
  rewrite length_drop in X3.
  split; [|reflexivity].
  refine (conj X2 (conj H3 (conj _ (conj _ (conj eq_refl (conj Hasc (conj Hlong Hplain)))))));
    lia.
Qed.

(** The word before the token that follows the run [pre]. *)
Lemma last_word_cons w pre cur : List.last (w :: pre) cur = List.last pre w.
Proof.
  revert w cur. induction pre as [|v pre IH]; intros w cur; [reflexivity|].
  change (List.last (w :: v :: pre) cur) with (List.last (v :: pre) cur).
  now rewrite (IH v cur), (IH v w).
Qed.

(** On a token of more than 15 characters that is in order, the distance
    that [next] returns exceeds the spine depth, and the round throws. *)
Lemma parse_round_overflow char_signed gap st s post :
  progress_upto char_signed st [] (s :: post) ->
  (LOCAL_CAPACITY < length s)%nat ->
  plain_word char_signed s = true ->
  word_lt (current (ps_word st)) s = true ->
  apart gap s (current (ps_word st)) ->
  parse_round char_signed gap st = Throw PrefixOverflow.
Proof.
  intros (_ & _ & _ & Hidx & Hin & _ & _ & Hplain) Hlong Hs Hlt Hgap.
  apply Forall_inv in Hplain. cbn [app] in Hin.
  set (cur := current (ps_word st)) in *.
  assert (Hnul : NUL ∉ s) by now apply plain_word_no_NUL with char_signed.
  assert (Hskip : skip_short (input (ps_word st)) [] (count (ps_word st))
                  = (s, post, count (ps_word st))).
  { rewrite Hin. apply skip_short_long. unfold LOCAL_CAPACITY in Hlong. lia. }
  destruct (word_lt_mismatch _ _ Hlt) as [Hp Hcase]. fold cur in Hp, Hcase.
  assert (Hno : ~ out_of_order char_signed s cur).
  { intros (_ & [Heq|Hless]); [lia|].
    destruct (plain_value _ _ (plain_word_nth _ _ _ Hs Hp)) as [Vs Ps].
    unfold char_lt in Hless. rewrite Vs in Hless. apply Z.ltb_lt in Hless.
    destruct Hcase as [Hend|[Hin' Hlt']].
    - rewrite (nth_overflow cur) in Hless by lia.
      destruct char_signed; change (char_value _ NUL) with 0 in Hless; lia.
    - destruct (plain_value _ _ (plain_word_nth _ _ _ Hplain Hin')) as [Vc _].
      rewrite Vc in Hless. lia. }
  destruct (next_cases char_signed gap (ps_word st) s post _ Hskip Hnul) as [_ Hok].
  unfold parse_round. rewrite (Hok Hno). cbn [rbind]. fold cur.
  destruct (distance_after_move_apart gap s cur (common_prefix_length s cur))
    as [_ Hgt]; [easy | lia | easy |].
  rewrite Hidx. fold cur.
  now destruct (Z.ltb_spec (Z.of_nat (length cur))
                  (distance_after_move gap s (common_prefix_length s cur))); [|lia].
Qed.

(** After an ascending run of words of up to 15 characters, a longer word
    that is in order makes the loop throw. *)
Lemma parse_loop_overflows char_signed s post :
  (LOCAL_CAPACITY < length s)%nat -> plain_word char_signed s = true ->
  forall pre fuel gaps st,
    progress_upto char_signed st pre (s :: post) ->
    ascending (current (ps_word st) :: pre ++ [s]) = true ->
    apart (gaps (length pre)) s (List.last pre (current (ps_word st))) ->
    (length pre < fuel)%nat ->
    (parse_loop fuel char_signed gaps st = Throw PrefixOverflow
     \/ parse_loop fuel char_signed gaps st = Throw HashTableFull)
    /\ (pre = [] -> parse_loop fuel char_signed gaps st = Throw PrefixOverflow).
Proof.
  intros Hlong Hs. induction pre as [|w pre IH]; intros fuel gaps st Hinv Hasc Hgap Hfuel;
    (destruct fuel as [|fuel]; [cbn [length] in Hfuel; lia|]); cbn [parse_loop].
  - cbn [app ascending] in Hasc. rewrite andb_true_r in Hasc.
    cbn [length List.last] in Hgap.
    rewrite (parse_round_overflow char_signed _ st s post Hinv Hlong Hs Hasc Hgap).
    split; [now left | easy].
  - split; [|easy].
    destruct (parse_round_upto char_signed (gaps 0%nat) st w pre _ Hinv)
      as [H|(st' & H & Hinv' & Hcur)]; rewrite H; cbn [rbind]; [now right|].
    apply IH; [easy | | | cbn [length] in Hfuel; lia].
    + rewrite Hcur.
      change (ascending (current (ps_word st) :: (w :: pre) ++ [s]))
        with (word_lt (current (ps_word st)) w && ascending (w :: pre ++ [s])) in Hasc.
      now apply andb_true_iff in Hasc as [_ Hasc].
    + rewrite Hcur. cbn [length] in Hgap. now rewrite last_word_cons in Hgap.
Qed.

(** The state in which [parse] starts, before an ascending run. *)
Lemma progress_upto_start char_signed pre post :
  ascending pre = true ->
  Forall (fun w => (2 <= length w <= LOCAL_CAPACITY)%nat) pre ->
  Forall (fun w => plain_word char_signed w = true) pre ->
  progress_upto char_signed
    (mkParseState (WordBuffer_new (pre ++ post)) [[]] 0 Dawg_new) pre post.
Proof.
  intros Hasc Hlong Hplain. unfold progress_upto, reader_upto, shape_ok.
  cbn [ps_dawg ps_word ps_edges ps_idx current input WordBuffer_new length tail].
  refine (conj (conj _ (conj _ _)) (conj interner_ok_new
            (conj eq_refl (conj eq_refl (conj eq_refl (conj _ (conj Hlong _)))))));
    try easy.
  - repeat constructor.
  - destruct pre as [|w pre]; [reflexivity|]. apply Forall_inv in Hlong.
    change (ascending ([] :: w :: pre)) with (word_lt [] w && ascending (w :: pre)).
    rewrite Hasc. destruct w; [cbn in Hlong; lia | easy].
  - now constructor.
Qed.

(** An ascending run and the word after it, seen from the empty word
    that [parse] starts with. *)
Lemma ascending_run pre s :
  ascending (pre ++ [s]) = true ->
  Forall (fun w => (2 <= length w <= LOCAL_CAPACITY)%nat) pre ->
  (LOCAL_CAPACITY < length s)%nat ->
  ascending pre = true /\ ascending ([] :: pre ++ [s]) = true.
Proof.
  intros Hasc Hlong Hs. destruct pre as [|w pre].
  - split; [reflexivity|]. cbn. destruct s; [cbn in Hs; lia | reflexivity].
  - apply Forall_inv in Hlong.
    change (ascending ([] :: (w :: pre) ++ [s]))
      with (word_lt [] w && ascending ((w :: pre) ++ [s])).
    rewrite Hasc. split; [|destruct w; [cbn in Hlong; lia | easy]].
    clear - Hasc. revert w Hasc. induction pre as [|v pre IH]; intros w H; [easy|].
    change (ascending ((w :: v :: pre) ++ [s]))
      with (word_lt w v && ascending ((v :: pre) ++ [s])) in H.
    apply andb_true_iff in H as [H1 H2].
    change (ascending (w :: v :: pre)) with (word_lt w v && ascending (v :: pre)).
    rewrite H1. now apply IH.
Qed.

(** [create] on such an input: any exception makes it exit with 1. *)
Lemma main_create_overflows char_signed gaps text pre s post :
  tokens text = pre ++ s :: post ->
  ascending (pre ++ [s]) = true ->
  Forall (fun w => (2 <= length w <= LOCAL_CAPACITY)%nat) pre ->
  (LOCAL_CAPACITY < length s)%nat ->
  Forall (fun w => plain_word char_signed w = true) (pre ++ [s]) ->
  apart (gaps (length pre)) s (List.last pre []) ->
  main_create char_signed gaps text = Some (1, None).
Proof.
  intros Htok Hasc Hlong Hs Hplain Hgap.
  apply Forall_app in Hplain as [Hplain Hps]. apply Forall_inv in Hps.
  destruct (ascending_run pre s Hasc Hlong Hs) as [Hasc0 Hasc1].
  destruct (parse_loop_overflows char_signed s post Hs Hps pre
              (S (S (length (pre ++ s :: post)))) gaps
              (mkParseState (WordBuffer_new (pre ++ s :: post)) [[]] 0 Dawg_new))
    as [Hany _].
  - now apply progress_upto_start.
  - exact Hasc1.
  - exact Hgap.
  - rewrite length_app. lia.
  - unfold main_create, parse. rewrite Htok. now destruct Hany as [-> | ->].
Qed.

End LongToken.

(** C8.  [parse] does fail with PrefixOverflow.  Let the input begin with
    an ascending run of plain words of 2 to 15 characters, followed by a
    plain word of 16 characters or more that is in order.  [next] returns
    for it a distance taken from the string that it has just moved from,
    which exceeds the spine depth wherever the buffers lie: [parse] throws
    PrefixOverflow (unless the hash table was full before), and it is
    PrefixOverflow when the long word comes first. *)
Theorem parse_prefix_overflow (char_signed : bool) (gaps : nat -> Z)
    (pre : list word) (s : word) (post : list word) :
  ascending (pre ++ [s]) = true ->
  Forall (fun w => (2 <= length w <= LOCAL_CAPACITY)%nat) pre ->
  (LOCAL_CAPACITY < length s)%nat ->
  Forall (fun w => plain_word char_signed w = true) (pre ++ [s]) ->
  apart (gaps (length pre)) s (List.last pre []) ->
  (parse char_signed gaps Dawg_new (pre ++ s :: post) = Throw PrefixOverflow
   \/ parse char_signed gaps Dawg_new (pre ++ s :: post) = Throw HashTableFull)
  /\ (pre = [] ->
      parse char_signed gaps Dawg_new (pre ++ s :: post) = Throw PrefixOverflow).
Proof.
  intros Hasc Hlong Hs Hplain Hgap.
  apply Forall_app in Hplain as [Hplain Hps]. apply Forall_inv in Hps.
  destruct (ascending_run pre s Hasc Hlong Hs) as [Hasc0 Hasc1].
  destruct (parse_loop_overflows char_signed s post Hs Hps pre
              (S (S (length (pre ++ s :: post)))) gaps
              (mkParseState (WordBuffer_new (pre ++ s :: post)) [[]] 0 Dawg_new))
    as [Hany Hfirst].
  - now apply progress_upto_start.
  - exact Hasc1.
  - exact Hgap.
  - rewrite length_app. lia.
  - unfold parse. split.
    + destruct Hany as [-> | ->]; [now left | now right].
    + intros Hnil. now rewrite (Hfirst Hnil).
Qed.

Lemma parse_prefix_overflow_witness :
  parse false heap_below Dawg_new [list_ascii_of_string "abcdefghijklmnop"]
  = Throw PrefixOverflow.
Proof.
  apply (parse_prefix_overflow false heap_below [] (list_ascii_of_string "abcdefghijklmnop")
           []).
  - reflexivity.
  - constructor.
  - unfold LOCAL_CAPACITY. cbn. lia.
  - repeat constructor.
  - unfold apart, heap_below. cbn. lia.
  - reflexivity.
Defined.

(** C1.  The round trip fails on an ascending list that holds a word of
    16 characters or more.  With the tokens as in C8, [create] exits with 1
    and writes no file, so that there is nothing for [dump] to read. *)
Theorem create_fails_on_long_word (char_signed : bool) (gaps : nat -> Z)
    (text : list ascii) (pre : list word) (s : word) (post : list word) :
  tokens text = pre ++ s :: post ->
  ascending (pre ++ [s]) = true ->
  Forall (fun w => (2 <= length w <= LOCAL_CAPACITY)%nat) pre ->
  (LOCAL_CAPACITY < length s)%nat ->
  Forall (fun w => plain_word char_signed w = true) (pre ++ [s]) ->
  apart (gaps (length pre)) s (List.last pre []) ->
  main_create char_signed gaps text = Some (1, None)
  /\ (ascending (tokens text) = true ->
      Forall (fun w => (2 <= length w)%nat) (tokens text) ->
      ~ roundtrip_claim char_signed gaps text).
Proof.
  intros Htok Hasc Hlong Hs Hplain Hgap.
  assert (Hc : main_create char_signed gaps text = Some (1, None))
    by now apply (main_create_overflows char_signed gaps text pre s post).
  split; [exact Hc|].
  intros Ha Hl Hclaim. destruct (Hclaim Ha Hl) as (file & fuel & Hfile & _).
  rewrite Hc in Hfile. discriminate Hfile.
Qed.

Lemma create_fails_on_long_word_witness :
  let text := list_ascii_of_string "abcdefghijklmnop" ++ ["010"%char] in
  main_create false heap_below text = Some (1, None)
  /\ ~ roundtrip_claim false heap_below text.
Proof.
  intros text.
  destruct (create_fails_on_long_word false heap_below text []
              (list_ascii_of_string "abcdefghijklmnop") []) as [Hc Hno].
  - reflexivity.
  - reflexivity.
  - constructor.
  - unfold LOCAL_CAPACITY. cbn. lia.
  - repeat constructor.
  - unfold apart, heap_below. cbn. lia.
  - split; [exact Hc|]. apply Hno; [reflexivity|].
    repeat constructor; cbn; lia.
Defined.

(** ** Words that the reader takes out of order *)

(** The words [ab] and [ab\0] are in ascending order, but the reader takes
    the NUL of the second for the end of the first and rejects it. *)
Lemma roundtrip_counterexample :
  let text := ["a"; "b"; " "; "a"; "b"; "000"]%char in
  ~ roundtrip_claim false heap_below text /\ ~ roundtrip_claim true heap_below text.
Proof.
  intros text.
  assert (Hasc : ascending (tokens text) = true) by reflexivity.
  assert (Hlong : Forall (fun w => (2 <= length w)%nat) (tokens text)).
  { vm_compute. repeat constructor. }
  split; intros H; destruct (H Hasc Hlong) as (file & fuel & Hc & _);
    vm_compute in Hc; discriminate Hc.
Qed.

(** Where plain [char] is signed, a character above 127 that continues the
    previous word compares below its terminator, and the word is rejected. *)
Lemma signed_char_rejected :
  let text := ["a"; "b"; " "; "a"; "b"; "200"]%char in
  ascending (tokens text) = true
  /\ main_create true heap_below text = Some (1, None)
  /\ exists file, main_create false heap_below text = Some (0, Some file).
Proof.
  intros text. split; [reflexivity|]. split; [vm_compute; reflexivity|].
  eexists. vm_compute. reflexivity.
Qed.

(** ** Scenarios *)

(** S3: [cars] and [jars] share the group that spells [ars]: the root
    edges for [c] and [j] carry the same offset. *)
Example shared_suffix :
  exists d,
    parse false heap_below Dawg_new (tokens (list_ascii_of_string "cars jars")) = Ok d
    /\ size d = 259
    /\ (getOffset <$> dawg d !! 0%nat) = Some 259
    /\ (getOffset <$> dawg d !! 1%nat) = Some 259.
Proof.
  eexists. split; [vm_compute; reflexivity|]. repeat split.
Qed.

(** S4: in [car], [cars] the edge for [r] ends a word and has a child. *)
Example prefix_of_prefix :
  exists d n,
    parse false heap_below Dawg_new (tokens (list_ascii_of_string "car cars")) = Ok d
    /\ dawg d !! 257%nat = Some n
    /\ getChar n = "r"%char /\ isEndOfWord n = true /\ getOffset n = 257.
Proof.
  eexists. eexists. split; [vm_compute; reflexivity|].
  split; [reflexivity|]. repeat split.
Qed.

(** S5: an input out of order is rejected, and nothing is written. *)
Example out_of_order_input :
  parse false heap_below Dawg_new (tokens (list_ascii_of_string "bat apple")) = Throw OutOfOrder
  /\ main_create false heap_below (list_ascii_of_string "bat apple") = Some (1, None).
Proof. split; vm_compute; reflexivity. Qed.

(** ** The theorems at concrete inputs *)

Lemma insertEdges_probe_sequence_witness :
  let d := appended Dawg_new [mkNode 1958739968] 42841 in
  let edges := [mkNode 1958979975] in
  probe_at d edges (probe_slot (fingerprint edges) 0) = Miss
  /\ insertEdges d edges
     = Ok (size d + 1, appended d edges (probe_slot (fingerprint edges) 1)).
Proof.
  intros d edges.
  assert (Hmiss : forall j, (j < 1)%nat ->
                    probe_at d edges (probe_slot (fingerprint edges) j) = Miss).
  { intros j Hj. assert (j = 0%nat) as -> by lia. vm_compute. reflexivity. }
  assert (Hwrap : forall j, (0 < j <= 1)%nat ->
                    probe_slot (fingerprint edges) j <> fingerprint edges).
  { intros j Hj. assert (j = 1%nat) as -> by lia. vm_compute. discriminate. }
  destruct (insertEdges_probe_sequence d edges 1) as [_ H].
  destruct (H Hmiss Hwrap) as (Hempty & _ & _).
  split; [apply Hmiss; lia|]. apply Hempty. vm_compute. reflexivity.
Defined.

Lemma next_returns_pointer_difference_witness :
  let prev := list_ascii_of_string "abcdefghijklmnop" in
  let s := list_ascii_of_string "abcdefghijklmnoq" in
  next false (-48) (mkWordBuffer 0 prev [s])
  = Ok ((18446744073709551583, s), mkWordBuffer 0 s []).
Proof.
  intros prev s.
  destruct (next_returns_pointer_difference false (-48) (mkWordBuffer 0 prev [s]) s [] 0)
    as [H _].
  - reflexivity.
  - repeat (apply not_elem_of_cons; split; [discriminate|]). apply not_elem_of_nil.
  - unfold LOCAL_CAPACITY. cbn. lia.
  - intros [_ [H|H]]; vm_compute in H; discriminate H.
  - unfold apart. cbn. lia.
  - exact H.
Defined.

Lemma intern_same_offset_iff_witness :
  let s := [setEndOfNode (Node_new "s" true)] in
  let t := [setEndOfNode (Node_new "t" true)] in
  let d2 := appended Dawg_new s (hash s) in
  let d3 := appended d2 t (hash t) in
  (257 = 257 <-> same_edges s s) /\ (257 = 258 <-> same_edges s t).
Proof.
  intros s t d2 d3.
  assert (H1 : insertEdges Dawg_new s = Ok (257, d2)) by (vm_compute; reflexivity).
  assert (H2 : insertEdges d2 t = Ok (258, d3)) by (vm_compute; reflexivity).
  assert (H3 : insertEdges d3 s = Ok (257, d3)) by (vm_compute; reflexivity).
  split.
  - apply (intern_same_offset_iff Dawg_new d2 d3 d3 s s 257 257);
      [apply interned_here | reflexivity | reflexivity | exact H1 | | exact H3].
    apply (interned_step d2 d2 t 258 d3); [apply interned_here | reflexivity | exact H2].
  - apply (intern_same_offset_iff Dawg_new d2 d2 d3 s t 257 258);
      [apply interned_here | reflexivity | reflexivity | exact H1 | | exact H2].
    apply interned_here.
Defined.

Lemma committed_edges_never_move_witness :
  let at_ := list_ascii_of_string "at" in
  let t := [setEndOfNode (Node_new "t" true)] in
  let st := mkParseState (WordBuffer_new [at_]) [[]] 0 Dawg_new in
  let st_end := mkParseState (WordBuffer_new []) [[]] 0 Dawg_new in
  (dawg (appended Dawg_new t (hash t)) = dawg Dawg_new
   \/ dawg (appended Dawg_new t (hash t)) = dawg Dawg_new ++ t)
  /\ (exists st', parse_round false 0 st = Ok (inl st')
                  /\ grows (ps_dawg st) (ps_dawg st'))
  /\ grows (ps_dawg st_end) Dawg_new
  /\ (exists d', finish [[]] Dawg_new = Ok d'
                 /\ length (dawg d') = length (dawg Dawg_new)).
Proof.
  intros at_ t st st_end.
  destruct committed_edges_never_move as (Hins & Hround & Hlast & Hfin).
  split; [|split; [|split]].
  - apply (Hins Dawg_new t 257). vm_compute. reflexivity.
  - eexists. split; [vm_compute; reflexivity|].
    apply (Hround false 0 st). vm_compute. reflexivity.
  - apply (Hlast false 0 st_end [[]]). vm_compute. reflexivity.
  - eexists. split; [vm_compute; reflexivity|].
    apply (Hfin [[]] Dawg_new). vm_compute. reflexivity.
Defined.

(** * Part IV.  Further properties of the program *)

(** ** Nodes *)

(** X1.  The fields of a node are independent.  A node built from a letter
    and a flag gives both back, with [end_of_node] clear and no offset;
    [setEndOfNode] sets [end_of_node] and keeps the letter, the
    [end_of_word] bit and the offset; [setChildOffset] with an offset below
    2^21, on a node that has none, stores that offset and keeps the letter
    and both bits.  All three keep the value within 32 bits. *)
Theorem node_fields_independent :
  (forall c b,
      getChar (Node_new c b) = c /\ isEndOfWord (Node_new c b) = b
      /\ isEndOfNode (Node_new c b) = false /\ getOffset (Node_new c b) = 0
      /\ node_ok (Node_new c b))
  /\ (forall n,
        isEndOfNode (setEndOfNode n) = true
        /\ getChar (setEndOfNode n) = getChar n
        /\ isEndOfWord (setEndOfNode n) = isEndOfWord n
        /\ getOffset (setEndOfNode n) = getOffset n
        /\ (node_ok n -> node_ok (setEndOfNode n)))
  /\ (forall n offset,
        getOffset n = 0 -> 0 <= offset < 2 ^ 21 ->
        getOffset (setChildOffset n offset) = offset
        /\ getChar (setChildOffset n offset) = getChar n
        /\ isEndOfWord (setChildOffset n offset) = isEndOfWord n
        /\ isEndOfNode (setChildOffset n offset) = isEndOfNode n
        /\ (node_ok n -> node_ok (setChildOffset n offset))).
Proof.
  split; [|split].
  - intros c b. pose proof (Node_new_fields c b). unfold node_ok. tauto.
  - intros n.
    exact (conj (isEndOfNode_setEndOfNode n)
             (conj (getChar_setEndOfNode n)
                (conj (isEndOfWord_setEndOfNode n)
                   (conj (getOffset_setEndOfNode n) (node_ok_setEndOfNode n))))).
  - intros n offset Hn Ho. split.
    + rewrite getOffset_setChildOffset, Hn, Z.lor_0_l. apply Z.mod_small. lia.
    + exact (conj (getChar_setChildOffset n offset)
               (conj (isEndOfWord_setChildOffset n offset)
                  (conj (isEndOfNode_setChildOffset n offset)
                     (node_ok_setChildOffset n offset)))).
Qed.

Lemma node_fields_independent_witness :
  let n := setEndOfNode (Node_new "r" true) in
  getOffset (setChildOffset n 257) = 257
  /\ getChar (setChildOffset n 257) = "r"%char
  /\ isEndOfWord (setChildOffset n 257) = true
  /\ isEndOfNode (setChildOffset n 257) = true
  /\ node_ok (setChildOffset n 257).
Proof.
  intros n. destruct node_fields_independent as (_ & Hend & Hoff).
  destruct (Hoff n 257) as (H1 & H2 & H3 & H4 & H5); [reflexivity | lia |].
  refine (conj H1 (conj H2 (conj _ (conj _ (H5 _))))).
  - rewrite H3. reflexivity.
  - rewrite H4. reflexivity.
  - apply Hend, node_ok_new.
Defined.

(** ** The file codec *)

(** X2.  [save] then [load] gives the arena back.  For an arena of fewer
    than 2^30 - 1 nodes whose values fit 32 bits, [save] writes
    [4 * (N + 1)] bytes, and [load] of these bytes passes the size check
    and yields the same nodes; the hash table is not part of the file. *)
Theorem save_load_roundtrip (d0 d : Dawg) :
  Forall node_ok (dawg d) -> size d < 2 ^ 30 - 1 ->
  Z.of_nat (length (save d)) = 4 * (size d + 1)
  /\ load d0 (save d) = Ok (mkDawg (dawg d) (hash_table d0)).
Proof.
  intros Hok Hsize. split; [|now apply load_save].
  unfold save. rewrite length_app, length_flat_map_write. unfold output, size.
  cbn [length]. lia.
Qed.

Lemma save_load_roundtrip_witness :
  let d := mkDawg [Node_new "a" true; setEndOfNode (Node_new "b" false)]
                  (<[7 := 300]> ∅) in
  Z.of_nat (length (save d)) = 4 * (size d + 1)
  /\ load Dawg_new (save d) = Ok (mkDawg (dawg d) ∅).
Proof.
  intros d. apply (save_load_roundtrip Dawg_new d).
  - repeat constructor; [apply node_ok_new | apply node_ok_setEndOfNode, node_ok_new].
  - vm_compute. reflexivity.
Defined.

(** X3.  As long as [4 * (N + 1)] fits in 32 bits, the size check of
    [load] is exact: a file of four bytes or more whose count [N] is below
    2^30 - 1 is rejected with CorruptFile exactly when its size is not
    [4 * (N + 1)], and is otherwise read into an arena of [N] nodes. *)
Theorem load_size_check (d : Dawg) (b0 b1 b2 b3 : ascii) (rest : list ascii) :
  let file := b0 :: b1 :: b2 :: b3 :: rest in
  let N := word_of_bytes b0 b1 b2 b3 in
  N < 2 ^ 30 - 1 ->
  (load d file = Throw CorruptFile <-> Z.of_nat (length file) <> 4 * (N + 1))
  /\ (Z.of_nat (length file) = 4 * (N + 1) ->
      exists d', load d file = Ok d' /\ size d' = N).
Proof. intros file N HN. now apply load_checks_size. Qed.

Lemma load_size_check_witness :
  load Dawg_new (map to_uchar [2; 0; 0; 0; 1; 2; 3; 4]) = Throw CorruptFile
  /\ exists d', load Dawg_new (map to_uchar [1; 0; 0; 0; 1; 2; 3; 4]) = Ok d'
                /\ size d' = 1.
Proof.
  split.
  - apply (load_size_check Dawg_new (to_uchar 2) (to_uchar 0) (to_uchar 0) (to_uchar 0)
             (map to_uchar [1; 2; 3; 4])).
    + vm_compute. reflexivity.
    + vm_compute. discriminate.
  - apply (load_size_check Dawg_new (to_uchar 1) (to_uchar 0) (to_uchar 0) (to_uchar 0)
             (map to_uchar [1; 2; 3; 4])).
    + vm_compute. reflexivity.
    + vm_compute. reflexivity.
Defined.

(** ** The traversal *)

(** X4.  [dump] prints the words of the arena.  Whenever the edge groups
    reached from index 0 are all closed within the arena and spell the words
    [ws], the traversal ends normally, given enough fuel, having printed
    exactly these words, in this order, one per line. *)
Theorem dump_prints_words (d : Dawg) (ws : list word) :
  group_words 0 (dawg d) 0 ws ->
  exists enough, forall fuel, (enough <= fuel)%nat ->
    dump fuel d = (lines [] ws, Finished).
Proof.
  intros H. destruct (dump_words d ws H) as [enough He].
  exists enough. intros fuel Hf. now apply (dump_more_fuel enough).
Qed.

Lemma dump_prints_words_witness :
  let n0 := setChildOffset (setEndOfNode (Node_new "a" true)) 2 in
  let n1 := setEndOfNode (Node_new "b" true) in
  exists enough, forall fuel, (enough <= fuel)%nat ->
    dump fuel (mkDawg [n0; n1] ∅)
    = (lines [] [["a"%char]; ["a"%char; "b"%char]], Finished).
Proof.
  intros n0 n1. apply (dump_prints_words (mkDawg [n0; n1] ∅)).
  change [["a"%char]; ["a"%char; "b"%char]]
    with (own_word n0 ++ map (cons (getChar n0)) (own_word n1)).
  apply group_inner_last; [lia | reflexivity | vm_compute; discriminate | reflexivity |].
  apply group_leaf_last; [lia | reflexivity | reflexivity | reflexivity].
Defined.

(** X5.  In an arena that is not empty and whose last node has
    [end_of_node], [dump] never reads a node outside the arena, whatever
    the offsets and the other bits are, and however long it runs. *)
Theorem dump_stays_in_arena (fuel : nat) (d : Dawg) :
  closed_arena (dawg d) -> snd (dump fuel d) <> OutOfBounds.
Proof.
  intros Hc. apply dump_loop_in_arena; [easy|].
  constructor; [|constructor].
  destruct Hc as (n & Hlast & _). destruct (dawg d); [easy | cbn; lia].
Qed.

Lemma dump_stays_in_arena_witness :
  let d := mkDawg [mkNode 5; mkNode 1; setEndOfNode (mkNode 77)] ∅ in
  snd (dump 100 d) <> OutOfBounds.
Proof.
  intros d. apply (dump_stays_in_arena 100 d).
  exists (setEndOfNode (mkNode 77)). split; reflexivity.
Defined.

(** X6.  An offset that points outside the arena is caught before it is
    followed: the traversal prints the word that ends at the edge, if any,
    and stops with the corruption diagnostic; and a run of [dump] that ends
    this way still exits with 0, keeping what was printed. *)
Theorem dump_reports_bad_offset :
  (forall fuel arena p below pre os n,
      arena !! p = Some n -> stack_letters arena below = Some pre ->
      getOffset n <> 0 -> Z.of_nat (length arena) <= getOffset n - 1 ->
      dump_loop (S fuel) arena (p :: below) os
      = (os ++ lines pre (own_word n), CorruptGraph))
  /\ (forall fuel file d os,
        load Dawg_new file = Ok d -> dump fuel d = (os, CorruptGraph) ->
        main_dump fuel file = Some (mkDumpRun 0 os true)).
Proof.
  split.
  - intros fuel arena p below pre os n Hn Hpre Ho Hout. cbn [dump_loop]. rewrite Hn.
    rewrite (lines_own_word _ _ _ pre) by easy.
    destruct (Z.eqb_spec (getOffset n) 0); [easy|]. cbn [negb].
    now destruct (Z.ltb_spec (getOffset n - 1) (Z.of_nat (length arena))); [lia|].
  - intros fuel file d os Hl Hd. unfold main_dump. now rewrite Hl, Hd.
Qed.

Lemma dump_reports_bad_offset_witness :
  let file := map to_uchar [1; 0; 0; 0; 9; 0; 128; 97] in
  main_dump 5 file = Some (mkDumpRun 0 ["a"; "010"]%char true).
Proof.
  intros file. destruct dump_reports_bad_offset as [Hloop Hmain].
  apply (Hmain 5%nat file (mkDawg [mkNode 1635778569] ∅)).
  - vm_compute. reflexivity.
  - apply (Hloop 4%nat [mkNode 1635778569] 0%nat [] [] [] (mkNode 1635778569)).
    + reflexivity.
    + reflexivity.
    + vm_compute. discriminate.
    + vm_compute. discriminate.
Defined.

(** ** The interner *)

(** X7.  The offset that [insertEdges] returns is where the edge list
    lies: in a state reached from the fresh [Dawg] by interning closed
    groups, a successful insertion of a list that is not empty returns an
    offset [o] with [256 < o <= size], and the arena holds the edges of the
    list, in order, from index [o - 1] on. *)
Theorem insertEdges_places (d d' : Dawg) (edges : EdgeList) (o : Z) :
  interned_from Dawg_new d -> edges <> [] ->
  insertEdges d edges = Ok (o, d') ->
  256 < o <= size d'
  /\ forall k n, edges !! k = Some n -> dawg d' !! (Z.to_nat (o - 1) + k)%nat = Some n.
Proof.
  intros Hd Hne H.
  destruct (interned_from_ok _ _ Hd interner_ok_new) as [Hok _].
  destruct (insertEdges_offset_range _ _ _ _ Hok Hne H). split; [lia|].
  exact (insertEdges_stored _ _ _ _ H).
Qed.

Lemma insertEdges_places_witness :
  let t := [Node_new "s" false; setEndOfNode (Node_new "t" true)] in
  exists d',
    insertEdges Dawg_new t = Ok (257, d')
    /\ dawg d' !! 256%nat = Some (Node_new "s" false)
    /\ dawg d' !! 257%nat = Some (setEndOfNode (Node_new "t" true)).
Proof.
  intros t. eexists. split; [vm_compute; reflexivity|].
  destruct (insertEdges_places Dawg_new (appended Dawg_new t (hash t)) t 257)
    as [_ H]; [apply interned_here | discriminate | vm_compute; reflexivity|].
  split; [apply (H 0%nat) | apply (H 1%nat)]; reflexivity.
Defined.

(** X8.  Interning is idempotent: a closed group that has just been
    interned, or was interned any number of insertions ago, is found again
    at the same offset, and finding it changes neither the arena nor the
    table. *)
Theorem insertEdges_again_unchanged (d1 d2 d3 : Dawg) (edges : EdgeList) (o : Z) :
  interned_from Dawg_new d1 -> closed_group edges = true ->
  insertEdges d1 edges = Ok (o, d2) ->
  interned_from d2 d3 ->
  insertEdges d3 edges = Ok (o, d3).
Proof.
  intros Hd1 He H Hd3.
  destruct (interned_from_ok _ _ Hd1 interner_ok_new) as [Hok1 _].
  pose proof (insertEdges_ok _ _ _ _ Hok1 He H) as Hok2.
  destruct (interned_from_ok _ _ Hd3 Hok2) as [_ Hg].
  exact (insertEdges_again _ _ _ _ _ Hok1 He Hg H).
Qed.

Lemma insertEdges_again_unchanged_witness :
  let s := [setEndOfNode (Node_new "s" true)] in
  let d2 := appended Dawg_new s (hash s) in
  insertEdges d2 s = Ok (257, d2).
Proof.
  intros s d2.
  apply (insertEdges_again_unchanged Dawg_new d2 d2 s 257).
  - apply interned_here.
  - reflexivity.
  - vm_compute. reflexivity.
  - apply interned_here.
Defined.

(** X9.  [insertEdges] always comes to an end: the probe sequence is back
    at its first slot after 180004 misses at the latest, whatever the table
    holds.  And in a state reached from the fresh [Dawg] by interning
    closed groups, interning a closed group never compares past the end of
    the arena: it returns an offset or fails with HashTableFull. *)
Theorem insertEdges_ends :
  (forall d edges, insertEdges d edges <> Timeout)
  /\ (forall h, 0 <= h < HASH_TABLE_SIZE -> probe_slot h probe_period = h)
  /\ (forall d edges,
        interned_from Dawg_new d -> closed_group edges = true ->
        (exists o d', insertEdges d edges = Ok (o, d'))
        \/ insertEdges d edges = Throw HashTableFull).
Proof.
  split; [exact insertEdges_terminates|]. split; [exact probe_slot_wraps|].
  intros d edges Hd He.
  destruct (interned_from_ok _ _ Hd interner_ok_new) as [Hok _].
  now apply insertEdges_result.
Qed.

Lemma insertEdges_ends_witness :
  probe_slot 42841 probe_period = 42841
  /\ ((exists o d', insertEdges Dawg_new [setEndOfNode (Node_new "s" true)] = Ok (o, d'))
      \/ insertEdges Dawg_new [setEndOfNode (Node_new "s" true)] = Throw HashTableFull).
Proof.
  destruct insertEdges_ends as (_ & Hwrap & Hres). split.
  - apply Hwrap. unfold HASH_TABLE_SIZE. lia.
  - apply Hres; [apply interned_here | reflexivity].
Defined.

(** X10.  [hash_modulo_increment] is addition modulo the table size on
    arguments below the table size, and [hash] is below the table size: the
    probes of [insertEdges] never index outside the hash table. *)
Theorem probes_stay_in_table :
  (forall a b,
      0 <= a < HASH_TABLE_SIZE -> 0 <= b < HASH_TABLE_SIZE ->
      hash_modulo_increment a b = (a + b) mod HASH_TABLE_SIZE
      /\ 0 <= hash_modulo_increment a b < HASH_TABLE_SIZE)
  /\ (forall edges, 0 <= hash edges < HASH_TABLE_SIZE)
  /\ (forall edges k, 0 <= probe_slot (hash edges) k < HASH_TABLE_SIZE).
Proof.
  split; [|split].
  - intros a b Ha Hb. rewrite hash_modulo_increment_mod by easy.
    split; [reflexivity|]. apply Z.mod_pos_bound. reflexivity.
  - exact hash_range.
  - intros edges k. apply probe_slot_range, hash_range.
Qed.

Lemma probes_stay_in_table_witness :
  hash_modulo_increment 240000 9 = 2
  /\ 0 <= hash_modulo_increment 240000 9 < HASH_TABLE_SIZE.
Proof.
  destruct probes_stay_in_table as (H & _ & _).
  destruct (H 240000 9) as [H1 H2]; [unfold HASH_TABLE_SIZE; lia ..|].
  split; [rewrite H1; reflexivity | exact H2].
Defined.

(** ** The builder *)

Section ParseThrows.

Implicit Types (st : parse_state).



End ParseThrows.



Section TailClosed.

Implicit Types (st : parse_state) (d : Dawg) (arena : list Node).

Lemma closed_arena_close n ready :
  closed_arena (update_back setEndOfNode (n :: ready)).
Proof.
  destruct (snoc_cases (n :: ready)) as [E|(front & x & E)]; [easy|].
  rewrite E, update_back_snoc. exists (setEndOfNode x).
  split; [apply last_snoc | apply isEndOfNode_setEndOfNode].
Qed.

Lemma closed_arena_app arena g : closed_arena g -> closed_arena (arena ++ g).
Proof.
  intros (n & Hlast & Hn). exists n. split; [|easy]. now rewrite last_app, Hlast.
Qed.

Lemma insertEdges_tail_closed d g o d' :
  insertEdges d g = Ok (o, d') -> closed_arena g ->
  tail_closed (dawg d) -> tail_closed (dawg d').
Proof.
  intros H Hg Hd. apply insertEdges_Ok in H as [s [(_ & _ & ->)|(_ & _ & _ & ->)]];
    [|easy].
  intros _. cbn [appended dawg]. now apply closed_arena_app.
Qed.

Lemma unwind_tail_closed k :
  forall edges d edges' d',
    unwind k edges d = Ok (edges', d') ->
    tail_closed (dawg d) -> tail_closed (dawg d').
Proof.
  induction k as [|k IH]; intros edges d edges' d'; cbn [unwind].
  - now intros [= <- <-].
  - destruct edges as [|ready rest]; [easy|].
    destruct ready as [|n ready]; [apply IH|].
    destruct (insertEdges d _) as [[o d1]| | |] eqn:E; cbn [rbind]; try easy.
    destruct rest as [|[|m parent] below]; try easy.
    intros H Hd. apply (IH _ _ _ _ H).
    apply (insertEdges_tail_closed _ _ _ _ E); [apply closed_arena_close | easy].
Qed.

Lemma parse_round_tail_closed char_signed gap st :
  tail_closed (dawg (ps_dawg st)) ->
  match parse_round char_signed gap st with
  | Ok (inl st') => tail_closed (dawg (ps_dawg st'))
  | Ok (inr (_, d')) => tail_closed (dawg d')
  | _ => True
  end.
Proof.
  intros Hd. unfold parse_round.
  destruct (next char_signed gap (ps_word st)) as [[[p s] wb]| | |]; cbn [rbind]; try easy.
  destruct (_ <? _); [easy|].
  destruct (unwind _ _ _) as [[edges d]| | |] eqn:U; cbn [rbind]; try easy.
  apply unwind_tail_closed in U; [|easy].
  destruct (length s =? 0)%nat.
  - now destruct (negb _).
  - now destruct (extend _ _); cbn [rbind].
Qed.

Lemma parse_loop_tail_closed fuel char_signed gaps st edges d' :
  parse_loop fuel char_signed gaps st = Ok (edges, d') ->
  tail_closed (dawg (ps_dawg st)) -> tail_closed (dawg d').
Proof.
  revert gaps st. induction fuel as [|fuel IH]; intros gaps st; cbn [parse_loop];
    [easy|].
  pose proof (parse_round_tail_closed char_signed (gaps 0%nat) st) as G.
  destruct (parse_round char_signed (gaps 0%nat) st) as [[st'|[edges1 d1]]| | |];
    cbn [rbind]; try easy.
  - intros H Hd. apply (IH _ _ H). now apply G.
  - intros [= <- <-] Hd. now apply G.
Qed.

End TailClosed.

(** X12.  Whenever [parse] succeeds on a fresh [Dawg], whatever the input,
    the arena starts with a root group of 256 entries whose last one, at
    index 255, has [end_of_node], and the last node of the whole arena has
    [end_of_node] too, every edge list being closed before it is interned.
    So [dump] never reads outside an arena that [parse] has built. *)
Theorem parse_root_group (char_signed : bool) (gaps : nat -> Z) (d' : Dawg)
    (input : list word) :
  parse char_signed gaps Dawg_new input = Ok d' ->
  (256 <= length (dawg d'))%nat
  /\ (exists n, dawg d' !! 255%nat = Some n /\ isEndOfNode n = true)
  /\ closed_arena (dawg d')
  /\ forall fuel, snd (dump fuel d') <> OutOfBounds.
Proof.
  unfold parse.
  destruct (parse_loop _ _ _ _) as [[edges d1]| | |] eqn:Hloop; cbn [rbind]; try easy.
  intros Hf. apply parse_loop_tail_closed in Hloop as Htail;
    [|intros H; cbn in H; rewrite length_replicate in H;
      change (Z.to_nat MAX_CHARS) with 256%nat in H; lia].
  apply finish_Ok in Hf as (root & rest & -> & Hlen & _ & Hd).
  pose proof (length_padded_root root) as Hpad.
  set (v := resize (Z.to_nat MAX_CHARS) Node_default (update_back setEndOfNode root))
    in *.
  assert (Hv : length v = 256%nat) by apply length_resize.
  destruct (snoc_cases v) as [E|(front & x & E)]; [now rewrite E in Hv|].
  rewrite E in *. rewrite update_back_snoc in *.
  rewrite length_app in Hv. cbn [length] in Hv.
  assert (Hclosed : closed_arena (dawg d')).
  { rewrite Hd. destruct (Nat.eq_dec (length (dawg d1)) 256%nat) as [Heq|Hne].
    - rewrite drop_ge by lia. rewrite app_nil_r. exists (setEndOfNode x).
      split; [apply last_snoc | apply isEndOfNode_setEndOfNode].
    - destruct Htail as (n & Hlast & Hn); [lia|]. exists n. split; [|easy].
      rewrite last_app. rewrite <- (take_drop 256%nat (dawg d1)), last_app in Hlast.
      destruct (last (drop 256 (dawg d1))) eqn:El; [easy|].
      apply last_None in El. apply (f_equal length) in El.
      rewrite length_drop in El. cbn in El. lia. }
  refine (conj _ (conj _ (conj Hclosed _))).
  - rewrite Hd, length_app, Hpad. lia.
  - exists (setEndOfNode x). split; [|apply isEndOfNode_setEndOfNode].
    rewrite Hd, <- app_assoc. rewrite lookup_app_r by lia.
    now replace (255 - length front)%nat with 0%nat by lia.
  - intros fuel. apply dump_loop_in_arena; [easy|].
    constructor; [|constructor].
    destruct Hclosed as (n & Hlast & _). destruct (dawg d'); [easy | cbn; lia].
Qed.

Lemma parse_root_group_witness :
  exists d', parse false heap_below Dawg_new [list_ascii_of_string "at"] = Ok d'
    /\ closed_arena (dawg d')
    /\ forall fuel, snd (dump fuel d') <> OutOfBounds.
Proof.
  destruct (parse false heap_below Dawg_new [list_ascii_of_string "at"]) as [d'| | |] eqn:E.
  - exists d'. split; [reflexivity|].
    exact (proj2 (proj2 (parse_root_group false heap_below d' _ E))).
  - exfalso. vm_compute in E. discriminate.
  - exfalso. vm_compute in E. discriminate.
  - exfalso. vm_compute in E. discriminate.
Defined.

(** ** The text that [dump] writes, read again *)

Section Reread.

Implicit Types (cur w : word) (text : list ascii) (ws : list word).

Lemma tokens_from_word cur w text :
  forallb (fun c => negb (isspace c)) w = true ->
  tokens_from cur (w ++ text) = tokens_from (rev w ++ cur) text.
Proof.
  revert cur. induction w as [|c w IH]; intros cur H; [reflexivity|].
  cbn [forallb] in H. apply andb_true_iff in H as [Hc Hw].
  cbn [app tokens_from]. apply negb_true_iff in Hc. rewrite Hc, IH by easy.
  cbn [rev]. now rewrite <- app_assoc.
Qed.

Lemma tokens_from_lines ws :
  Forall (fun w => w <> [] /\ forallb (fun c => negb (isspace c)) w = true) ws ->
  tokens_from [] (lines [] ws) = ws.
Proof.
  induction 1 as [|w ws [Hne Hw] _ IH]; [reflexivity|].
  change (lines [] (w :: ws)) with ((w ++ ["010"%char]) ++ lines [] ws).
  rewrite <- app_assoc. rewrite tokens_from_word by easy. cbn [app tokens_from].
  change (isspace "010") with true. cbv iota. rewrite app_nil_r, rev_involutive, IH.
  destruct (rev w) eqn:E; [|reflexivity].
  apply (f_equal (@rev _)) in E. rewrite rev_involutive in E. now subst w.
Qed.

Lemma tokens_from_words cur text :
  forallb (fun c => negb (isspace c)) cur = true ->
  Forall (fun w => w <> [] /\ forallb (fun c => negb (isspace c)) w = true)
         (tokens_from cur text).
Proof.
  assert (Hrev : forall c l,
             forallb (fun c => negb (isspace c)) (c :: l) = true ->
             rev (c :: l) <> []
             /\ forallb (fun c => negb (isspace c)) (rev (c :: l)) = true).
  { intros c l H. split.
    - cbn [rev]. now destruct (rev l).
    - rewrite forallb_forall in *. intros x Hx. apply H. now apply in_rev. }
  revert cur. induction text as [|c text IH]; intros cur Hcur; cbn [tokens_from].
  - destruct cur as [|x cur]; constructor; [now apply Hrev | constructor].
  - destruct (isspace c) eqn:Ec.
    + destruct cur as [|x cur]; [now apply IH|].
      constructor; [now apply Hrev | now apply IH].
    + apply IH. cbn [forallb]. now rewrite Ec, Hcur.
Qed.

End Reread.

(** X13.  What [dump] writes can be compiled again.  When the arena spells
    the tokens of a text, the dumped text has the same tokens, so that
    [create] on it behaves as on the original: each dumped word is followed
    by a newline, which the reader takes for white space, and a token holds
    no white space itself. *)
Theorem dump_output_rereads (char_signed : bool) (gaps : nat -> Z) (text : list ascii) (d : Dawg) :
  group_words 0 (dawg d) 0 (tokens text) ->
  exists enough, forall fuel, (enough <= fuel)%nat ->
    tokens (fst (dump fuel d)) = tokens text
    /\ main_create char_signed gaps (fst (dump fuel d)) = main_create char_signed gaps text.
Proof.
  intros H. destruct (dump_words d _ H) as [enough He].
  exists enough. intros fuel Hf.
  rewrite (dump_more_fuel enough fuel d _ _ He) by easy. cbn [fst].
  assert (E : tokens (lines [] (tokens text)) = tokens text).
  { apply tokens_from_lines. now apply tokens_from_words. }
  split; [exact E|]. unfold main_create. now rewrite E.
Qed.

Lemma dump_output_rereads_witness :
  let n0 := setChildOffset (setEndOfNode (Node_new "a" true)) 2 in
  let n1 := setEndOfNode (Node_new "b" true) in
  let text := list_ascii_of_string "a  ab" in
  exists enough, forall fuel, (enough <= fuel)%nat ->
    tokens (fst (dump fuel (mkDawg [n0; n1] ∅))) = tokens text
    /\ main_create false heap_below (fst (dump fuel (mkDawg [n0; n1] ∅)))
       = main_create false heap_below text.
Proof.
  intros n0 n1 text.
  apply (dump_output_rereads false heap_below text (mkDawg [n0; n1] ∅)).
  change (tokens text) with (own_word n0 ++ map (cons (getChar n0)) (own_word n1)).
  apply group_inner_last; [lia | reflexivity | vm_compute; discriminate | reflexivity |].
  apply group_leaf_last; [lia | reflexivity | reflexivity | reflexivity].
Defined.

(** ** Inputs that [create] refuses *)

Section Rejects.

Implicit Types (st : parse_state) (wb : WordBuffer) (cur w b : word)
  (pre post : list word).

(** Where a word and one that is not greater part. *)
Lemma word_ge_mismatch cur w :
  word_lt cur w = false ->
  let p := common_prefix_length w cur in
  p = length w
  \/ ((p < length w)%nat /\ (p < length cur)%nat
      /\ uchar (nth p w NUL) < uchar (nth p cur NUL)).
Proof.
  revert w. induction cur as [|b cur IH]; intros [|a w] H; try easy;
    try (now left).
  cbn [word_lt] in H. cbn [common_prefix_length].
  destruct (Ascii.eqb_spec a b) as [->|Hne].
  - rewrite Z.ltb_irrefl, Z.eqb_refl in H. cbn in H.
    destruct (IH w H) as [H1|(H1 & H2 & H3)]; cbn [length nth].
    + left. now f_equal.
    + right. repeat split; [lia | lia | easy].
  - right. cbn [length nth]. apply orb_false_iff in H as [H1 H2].
    apply Z.ltb_ge in H1. repeat split; try lia.
    assert (uchar a <> uchar b) by (intros E; now apply uchar_inj in E). lia.
Qed.

(** On a word that does not come after the current one, [next] throws. *)
Lemma next_descending char_signed gap wb b rest :
  input wb = b :: rest -> (2 <= length b)%nat ->
  plain_word char_signed b = true -> plain_word char_signed (current wb) = true ->
  word_lt (current wb) b = false ->
  next char_signed gap wb = Throw OutOfOrder.
Proof.
  intros Hin Hlen Hb Hcur Hge. unfold next.
  rewrite Hin, skip_short_long by easy.
  rewrite mismatch_data by now apply plain_word_no_NUL with char_signed.
  destruct (Nat.eqb_spec (length b) 0) as [|_]; [lia|]. cbn [negb andb].
  destruct (word_ge_mismatch _ _ Hge) as [Hp|(Hp1 & Hp2 & Hless)].
  - rewrite Hp, Nat.eqb_refl. reflexivity.
  - rewrite nth_data. unfold char_lt.
    destruct (plain_value _ _ (plain_word_nth _ _ _ Hb Hp1)) as [-> _].
    destruct (plain_value _ _ (plain_word_nth _ _ _ Hcur Hp2)) as [-> _].
    destruct (Z.ltb_spec (uchar (nth (common_prefix_length b (current wb)) b NUL))
                (uchar (nth (common_prefix_length b (current wb)) (current wb) NUL)));
      [|lia].
    now rewrite orb_true_r.
Qed.

Lemma parse_loop_rejects char_signed b post :
  (2 <= length b)%nat -> plain_word char_signed b = true ->
  forall pre fuel gaps st,
    progress_upto char_signed st pre (b :: post) ->
    ascending (current (ps_word st) :: pre ++ [b]) = false ->
    (length pre < fuel)%nat ->
    parse_loop fuel char_signed gaps st = Throw OutOfOrder
    \/ parse_loop fuel char_signed gaps st = Throw HashTableFull.
Proof.
  intros Hblen Hb. induction pre as [|w pre IH]; intros fuel gaps st Hinv Hdesc Hfuel;
    (destruct fuel as [|fuel]; [cbn [length] in Hfuel; lia|]); cbn [parse_loop].
  - destruct Hinv as (_ & _ & _ & _ & Hin & _ & _ & Hplain).
    apply Forall_cons in Hplain as [Hpcur _]. cbn [app] in Hin, Hdesc.
    cbn [ascending] in Hdesc. rewrite andb_true_r in Hdesc.
    unfold parse_round.
    rewrite (next_descending char_signed _ _ b post Hin Hblen Hb Hpcur Hdesc).
    now left.
  - pose proof Hinv as (_ & _ & _ & _ & _ & Hasc & _).
    destruct (parse_round_upto char_signed (gaps 0%nat) st w pre _ Hinv)
      as [H|(st' & H & Hinv' & Hcur)]; rewrite H; cbn [rbind]; [now right|].
    apply IH; [easy | | cbn [length] in Hfuel; lia].
    rewrite Hcur.
    change (ascending (current (ps_word st) :: w :: pre))
      with (word_lt (current (ps_word st)) w && ascending (w :: pre)) in Hasc.
    apply andb_true_iff in Hasc as [Hlt _].
    change (ascending (current (ps_word st) :: (w :: pre) ++ [b]))
      with (word_lt (current (ps_word st)) w && ascending (w :: pre ++ [b])) in Hdesc.
    now rewrite Hlt in Hdesc.
Qed.

End Rejects.

(** X14.  [create] refuses an input that is not in ascending order.  Let
    the tokens begin with an ascending run of plain words of 2 to 15
    characters, followed by a plain word [b] of two characters or more
    that does not come after the last word of the run; whatever follows
    [b], [parse] throws (OutOfOrder, unless the hash table filled up
    before), and [create] exits with 1 without writing a file. *)
Theorem create_rejects_unordered (char_signed : bool) (gaps : nat -> Z)
    (text : list ascii) (pre : list word) (b : word) (post : list word) :
  tokens text = pre ++ b :: post ->
  ascending pre = true -> ascending (pre ++ [b]) = false ->
  Forall (fun w => (2 <= length w <= LOCAL_CAPACITY)%nat) pre ->
  (2 <= length b)%nat ->
  Forall (fun w => plain_word char_signed w = true) (pre ++ [b]) ->
  (parse char_signed gaps Dawg_new (tokens text) = Throw OutOfOrder
   \/ parse char_signed gaps Dawg_new (tokens text) = Throw HashTableFull)
  /\ main_create char_signed gaps text = Some (1, None).
Proof.
  intros Htok Hasc Hdesc Hlong Hblen Hplain.
  apply Forall_app in Hplain as [Hplain Hb]. apply Forall_inv in Hb.
  assert (H : parse char_signed gaps Dawg_new (tokens text) = Throw OutOfOrder
              \/ parse char_signed gaps Dawg_new (tokens text) = Throw HashTableFull).
  { unfold parse. rewrite Htok.
    set (st := mkParseState (WordBuffer_new (pre ++ b :: post)) [[]] 0 Dawg_new).
    assert (Hdesc0 : ascending ([] :: pre ++ [b]) = false).
    { destruct pre as [|w pre]; [discriminate|].
      apply Forall_inv in Hlong.
      change (ascending ([] :: (w :: pre) ++ [b]))
        with (word_lt [] w && ascending ((w :: pre) ++ [b])).
      rewrite Hdesc. apply andb_false_r. }
    destruct (parse_loop_rejects char_signed b post Hblen Hb pre
                (S (S (length (pre ++ b :: post)))) gaps st) as [E|E].
    - now apply progress_upto_start.
    - exact Hdesc0.
    - rewrite length_app. lia.
    - rewrite E. now left.
    - rewrite E. now right. }
  split; [exact H|]. unfold main_create. now destruct H as [-> | ->].
Qed.

Lemma create_rejects_unordered_witness :
  main_create false heap_below (list_ascii_of_string "bat apple cat") = Some (1, None).
Proof.
  apply (create_rejects_unordered false heap_below (list_ascii_of_string "bat apple cat")
           [list_ascii_of_string "bat"] (list_ascii_of_string "apple")
           [list_ascii_of_string "cat"]).
  - vm_compute. reflexivity.
  - reflexivity.
  - vm_compute. reflexivity.
  - repeat constructor; unfold LOCAL_CAPACITY; cbn; lia.
  - cbn. lia.
  - repeat constructor.
Defined.

(** ** Tokens of fewer than two characters *)

Section ShortTokens.

Implicit Types (st : parse_state) (wb : WordBuffer) (s t w : word)
  (pre rest : list word).

Lemma skip_short_filter pre w :
  forall s s' c c',
  exists t rest rest' c1 c1',
    skip_short (pre ++ [w]) s c = (t, rest, c1)
    /\ skip_short (List.filter long_token pre ++ [w]) s' c' = (t, rest', c1')
    /\ ((rest = [] /\ rest' = [])
        \/ exists pre2, rest = pre2 ++ [w] /\ rest' = List.filter long_token pre2 ++ [w]).
Proof.
  induction pre as [|t pre IH]; intros s s' c c'; cbn [app List.filter skip_short].
  - destruct (length w <? 2)%nat; cbn [skip_short];
      eexists _, _, _, _, _; (split; [reflexivity|]); (split; [reflexivity|]);
      now left.
  - unfold long_token at 1. destruct (length t <? 2)%nat eqn:E; cbn [negb].
    + apply IH.
    + cbn [app skip_short]. rewrite E.
      eexists _, _, _, _, _. split; [reflexivity|]. split; [reflexivity|].
      right. now exists pre.
Qed.

Lemma next_same char_signed gap wb wb' :
  same_words wb wb' ->
  (exists e, next char_signed gap wb = Throw e /\ next char_signed gap wb' = Throw e)
  \/ (next char_signed gap wb = Undefined /\ next char_signed gap wb' = Undefined)
  \/ exists r wb1 wb1',
       next char_signed gap wb = Ok (r, wb1) /\ next char_signed gap wb' = Ok (r, wb1')
       /\ same_words wb1 wb1'.
Proof.
  intros [Hcur Hin]. unfold next. rewrite <- Hcur.
  assert (H : exists t rest rest' c1 c1',
             skip_short (input wb) [] (count wb) = (t, rest, c1)
             /\ skip_short (input wb') [] (count wb') = (t, rest', c1')
             /\ ((rest = [] /\ rest' = [])
                 \/ exists pre w, rest = pre ++ [w]
                                  /\ rest' = List.filter long_token pre ++ [w])).
  { destruct Hin as [[-> ->]|(pre & w & -> & ->)].
    - cbn [skip_short]. eexists _, _, _, _, _. split; [reflexivity|].
      split; [reflexivity|]. now left.
    - destruct (skip_short_filter pre w [] [] (count wb) (count wb'))
        as (t & rest & rest' & c1 & c1' & H1 & H2 & H3).
      exists t, rest, rest', c1, c1'. split; [easy|]. split; [easy|].
      destruct H3 as [H3|(pre2 & H3)]; [now left|]. right. now exists pre2, w. }
  destruct H as (t & rest & rest' & c1 & c1' & -> & -> & Hrest).
  destruct (mismatch t (data (current wb))) as [p|]; [|right; now left].
  destruct (negb _ && _).
  - left. now eexists.
  - right. right. eexists _, _, _. split; [reflexivity|]. split; [reflexivity|].
    split; [reflexivity|]. exact Hrest.
Qed.

Lemma parse_round_same char_signed gap st st' :
  same_state st st' ->
  match parse_round char_signed gap st, parse_round char_signed gap st' with
  | Ok (inl a), Ok (inl a') => same_state a a'
  | Ok (inr x), Ok (inr x') => x = x'
  | Throw e, Throw e' => e = e'
  | Undefined, Undefined => True
  | Timeout, Timeout => True
  | _, _ => False
  end.
Proof.
  intros (He & Hi & Hd & Hw). unfold parse_round. rewrite <- He, <- Hi, <- Hd.
  destruct (next_same char_signed gap _ _ Hw)
    as [(e & -> & ->)|[[-> ->]|([p s] & wb1 & wb1' & -> & -> & Hw1)]];
    cbn [rbind]; try easy.
  destruct (_ <? _); [easy|].
  destruct (unwind _ _ _) as [[edges d]| | |]; cbn [rbind]; try easy.
  destruct (length s =? 0)%nat.
  - now destruct (negb _).
  - destruct (extend _ _) as [edges'| | |]; cbn [rbind]; try easy.
Qed.

Lemma parse_loop_same char_signed :
  forall fuel fuel' gaps st st',
    same_state st st' ->
    parse_loop fuel char_signed gaps st <> Timeout ->
    parse_loop fuel' char_signed gaps st' <> Timeout ->
    parse_loop fuel char_signed gaps st = parse_loop fuel' char_signed gaps st'.
Proof.
  induction fuel as [|fuel IH]; intros [|fuel'] gaps st st' Hs; cbn [parse_loop];
    try easy.
  pose proof (parse_round_same char_signed (gaps 0%nat) st st' Hs) as H.
  destruct (parse_round char_signed (gaps 0%nat) st) as [[a|x]|e| |];
    destruct (parse_round char_signed (gaps 0%nat) st') as [[a'|x']|e'| |];
    cbn [rbind]; try easy.
  - now apply IH.
  - now subst.
  - now subst.
Qed.

End ShortTokens.

(** X15.  Tokens of fewer than two characters are left out of the
    lexicon, wherever they stand before the last token of the input:
    [parse] gives the same result, arena and hash table or exception, as on
    the input without them.  (The last token is taken as a word even when
    it is short.) *)
Theorem short_tokens_skipped (char_signed : bool) (gaps : nat -> Z) (d : Dawg)
    (pre : list word) (w : word) :
  parse char_signed gaps d (pre ++ [w])
  = parse char_signed gaps d (List.filter long_token pre ++ [w]).
Proof.
  unfold parse. f_equal. apply parse_loop_same.
  - unfold same_state, same_words, WordBuffer_new.
    cbn [ps_dawg ps_word ps_edges ps_idx current input].
    repeat split. right. now exists pre, w.
  - apply parse_loop_Timeout. cbn [ps_word input WordBuffer_new]. lia.
  - apply parse_loop_Timeout. cbn [ps_word input WordBuffer_new]. lia.
Qed.

(** ** The reader and the round trip, on tokens of up to 15 characters *)

(** X16.  On a token [s] free of NUL characters, whatever its length,
    [next] throws OutOfOrder exactly when [s] is not empty and either the
    mismatch position [p] is the length of [s] or [s] is smaller than the
    previous token at [p]; in particular a token equal to the previous one
    is rejected.  Otherwise, when [s] has no more than 15 characters, [next]
    returns [(p, s)], [p] being the length of the longest common prefix of
    [s] and the previous token. *)
Theorem next_out_of_order (char_signed : bool) (gap : Z) (wb : WordBuffer)
    (s : word) (rest : list word) (c : Z) :
  skip_short (input wb) [] (count wb) = (s, rest, c) ->
  NUL ∉ s ->
  let p := common_prefix_length s (current wb) in
  (next char_signed gap wb = Throw OutOfOrder
   <-> out_of_order char_signed s (current wb))
  /\ (~ out_of_order char_signed s (current wb) ->
      (length s <= LOCAL_CAPACITY)%nat ->
      next char_signed gap wb = Ok ((Z.of_nat p, s), mkWordBuffer c s rest))
  /\ (s <> [] -> s = current wb -> next char_signed gap wb = Throw OutOfOrder).
Proof.
  intros Hskip Hnul p.
  destruct (next_cases char_signed gap wb s rest c Hskip Hnul) as [Hthrow Hok].
  split; [exact Hthrow|]. split.
  - intros Hno Hs. rewrite (Hok Hno). unfold distance_after_move.
    now destruct (Nat.leb_spec (length s) LOCAL_CAPACITY) as [_|]; [|lia].
  - intros Hne ->. apply Hthrow. split; [easy|]. left.
    apply common_prefix_length_refl.
Qed.

Lemma next_out_of_order_witness :
  let car := list_ascii_of_string "car" in
  let cat := list_ascii_of_string "cat" in
  let dog := list_ascii_of_string "dog" in
  let wb := mkWordBuffer 0 car [["a"%char]; cat; dog] in
  next false 0 wb = Ok ((2, cat), mkWordBuffer 1 cat [dog])
  /\ next false 0 (mkWordBuffer 0 cat [car]) = Throw OutOfOrder.
Proof.
  intros car cat dog wb. split.
  - destruct (next_out_of_order false 0 wb cat [dog] 1) as (_ & Hok & _).
    + reflexivity.
    + repeat (apply not_elem_of_cons; split; [discriminate|]). apply not_elem_of_nil.
    + apply Hok; [|unfold LOCAL_CAPACITY; cbn; lia].
      intros [_ [H|H]]; vm_compute in H; discriminate H.
  - destruct (next_out_of_order false 0 (mkWordBuffer 0 cat [car]) car [] 0)
      as (Hthrow & _ & _).
    + reflexivity.
    + repeat (apply not_elem_of_cons; split; [discriminate|]). apply not_elem_of_nil.
    + apply Hthrow. split; [discriminate|]. right. vm_compute. reflexivity.
Defined.

(** X17.  The round trip on words of up to 15 characters.  Let the input
    hold a strictly ascending list [L] of words of 2 to 15 characters, none
    with a NUL character (nor, where plain [char] is signed, with a
    character above 127).  Then [create] fails for a full hash table or
    writes a file; and when that file has fewer than 2^21 edges, [dump]
    prints exactly the words of [L], in the same order, one per line, and
    exits with 0. *)
Theorem create_dump_roundtrip (char_signed : bool) (gaps : nat -> Z)
    (text : list ascii) :
  let L := tokens text in
  ascending L = true ->
  Forall (fun w => (2 <= length w <= LOCAL_CAPACITY)%nat) L ->
  Forall (fun w => plain_word char_signed w = true) L ->
  parse char_signed gaps Dawg_new L = Throw HashTableFull
  \/ exists d,
      parse char_signed gaps Dawg_new L = Ok d
      /\ main_create char_signed gaps text = Some (0, Some (save d))
      /\ (size d < 2 ^ 21 ->
          exists enough, forall fuel, (enough <= fuel)%nat ->
            main_dump fuel (save d) = Some (mkDumpRun 0 (lines [] L) false)).
Proof.
  intros L Hasc Hlong Hplain.
  destruct (parse_result char_signed gaps L Hasc Hlong Hplain) as [H|[d Hd]];
    [now left|].
  right. exists d. split; [easy|]. split.
  - unfold main_create. fold L. now rewrite Hd.
  - intros Hsize.
    destruct (parse_words char_signed gaps L d Hasc Hlong Hplain Hd Hsize) as [Hw Hn].
    destruct (dump_words (mkDawg (dawg d) (hash_table Dawg_new)) L Hw) as [enough Hf].
    exists enough. intros fuel Hfuel. apply (main_dump_more_fuel enough); [|easy].
    unfold main_dump. rewrite load_save by (easy || lia).
    now rewrite Hf.
Qed.

Lemma create_dump_roundtrip_witness :
  let text := list_ascii_of_string "car cars cat do dog dogs zoo" in
  exists d enough,
    main_create true heap_below text = Some (0, Some (save d))
    /\ forall fuel, (enough <= fuel)%nat ->
         main_dump fuel (save d) = Some (mkDumpRun 0 (lines [] (tokens text)) false).
Proof.
  intros text.
  destruct (create_dump_roundtrip true heap_below text) as [H|(d & Hp & Hc & Hd)].
  - reflexivity.
  - vm_compute. repeat constructor.
  - vm_compute. repeat constructor.
  - vm_compute in H. discriminate H.
  - exists d. destruct Hd as [enough Hf].
    + vm_compute in Hp. injection Hp as <-. vm_compute. reflexivity.
    + exists enough. split; [exact Hc | exact Hf].
Defined.

(** ** Where the allocator puts the tokens *)

Section Placement.

Implicit Types (st : parse_state) (wb : WordBuffer) (s cur : word) (L : list word).

Lemma skip_short_In input s0 c s input' c' :
  skip_short input s0 c = (s, input', c') ->
  (s = s0 \/ In s input) /\ incl input' input.
Proof.
  revert s0 c. induction input as [|t rest IH]; intros s0 c; cbn [skip_short].
  - intros [= <- <- <-]. split; [now left | easy].
  - destruct (length t <? 2)%nat.
    + intros H. apply IH in H as [[->|H] Hincl].
      * split; [right; now left | now apply incl_tl].
      * split; [right; now right | now apply incl_tl].
    + intros [= <- <- <-]. split; [right; now left | apply incl_tl, incl_refl].
Qed.

(** The reader stands in the input [L]. *)
Lemma next_within char_signed gap wb L first s wb' :
  next char_signed gap wb = Ok ((first, s), wb') ->
  incl (input wb) L ->
  incl (input wb') L /\ In (current wb') ([] :: L).
Proof.
  unfold next. destruct (skip_short _ _ _) as [[s0 input'] c'] eqn:E.
  destruct (mismatch _ _); [|easy]. destruct (negb _ && _); [easy|].
  intros [= <- <- <-] Hincl. cbn [input current].
  apply skip_short_In in E as [[->|Hs] Hin'].
  - split; [now apply incl_tran with (input wb) | now left].
  - split; [now apply incl_tran with (input wb) | right; now apply Hincl].
Qed.

(** One round does the same under two placements that keep the token apart
    from the other buffer: a token of up to 15 characters comes with its
    mismatch position, a longer one makes the round throw. *)
Lemma parse_round_placement char_signed gap gap' st :
  depth_ok st ->
  (forall s, In s (input (ps_word st)) ->
     apart gap s (current (ps_word st)) /\ apart gap' s (current (ps_word st))) ->
  parse_round char_signed gap st = parse_round char_signed gap' st.
Proof.
  intros Hd Hgap. unfold parse_round, next.
  destruct (skip_short _ _ _) as [[s input'] c'] eqn:E.
  destruct (mismatch s (data (current (ps_word st)))) as [p|] eqn:M; [|reflexivity].
  destruct (negb _ && _); [reflexivity|]. cbn [rbind].
  destruct (Nat.leb_spec (length s) LOCAL_CAPACITY) as [Hs|Hs].
  - unfold distance_after_move.
    now destruct (Nat.leb_spec (length s) LOCAL_CAPACITY) as [_|]; [|lia].
  - apply skip_short_In in E as [[->|Hin] _]; [cbn in Hs; lia|].
    destruct (Hgap s Hin) as [Ha Ha'].
    destruct (mismatch_bound _ _ _ M) as [Hp _].
    destruct (distance_after_move_apart gap s _ p Hs Hp Ha) as [_ Hgt].
    destruct (distance_after_move_apart gap' s _ p Hs Hp Ha') as [_ Hgt'].
    rewrite <- Hd in Hgt, Hgt'.
    destruct (Z.ltb_spec (Z.of_nat (ps_idx st)) (distance_after_move gap s p));
      [|lia].
    now destruct (Z.ltb_spec (Z.of_nat (ps_idx st)) (distance_after_move gap' s p));
      [|lia].
Qed.

(** A round that goes on has read a token of up to 15 characters, and the
    spine depth is its length. *)
Lemma parse_round_goes_on char_signed gap st st' L :
  depth_ok st ->
  (forall s, In s (input (ps_word st)) -> apart gap s (current (ps_word st))) ->
  incl (input (ps_word st)) L ->
  parse_round char_signed gap st = Ok (inl st') ->
  depth_ok st' /\ incl (input (ps_word st')) L
  /\ In (current (ps_word st')) ([] :: L).
Proof.
  intros Hd Hgap Hincl. unfold parse_round.
  destruct (next char_signed gap (ps_word st)) as [[[first s] wb]| | |] eqn:E;
    cbn [rbind]; try easy.
  destruct (next_within _ _ _ L _ _ _ E Hincl) as [Hincl' Hcur'].
  destruct (next_Ok _ _ _ _ _ _ E) as (Hcur & p & Hfirst & Hp & Hps & _).
  assert (Hlocal : first = Z.of_nat p \/ Z.of_nat (ps_idx st) < first).
  { subst first. destruct (Nat.leb_spec (length s) LOCAL_CAPACITY) as [Hs|Hs].
    - left. unfold distance_after_move.
      now destruct (Nat.leb_spec (length s) LOCAL_CAPACITY) as [_|]; [|lia].
    - right. unfold next in E.
      destruct (skip_short _ _ _) as [[s0 input'] c'] eqn:S.
      destruct (mismatch _ _); [|easy]. destruct (negb _ && _); [easy|].
      injection E as _ <- _.
      apply skip_short_In in S as [[->|Hin] _]; [cbn in Hs; lia|].
      rewrite Hd. now apply distance_after_move_apart; [| |apply Hgap]. }
  destruct (Z.ltb_spec (Z.of_nat (ps_idx st)) first) as [|Hle]; [easy|].
  destruct Hlocal as [->|]; [|lia]. rewrite Nat2Z.id.
  destruct (unwind _ _ _) as [[edges d]| | |]; cbn [rbind]; try easy.
  destruct (length s =? 0)%nat; [now destruct (negb _)|].
  destruct (extend _ _) as [edges'| | |]; cbn [rbind]; try easy.
  intros [= <-]. unfold depth_ok. cbn [ps_idx ps_word]. rewrite Hcur.
  split; [lia|]. split; [easy | now rewrite <- Hcur].
Qed.

Lemma parse_loop_placement char_signed L :
  forall fuel gaps gaps' st,
    depth_ok st ->
    incl (input (ps_word st)) L -> In (current (ps_word st)) ([] :: L) ->
    kept_apart gaps L -> kept_apart gaps' L ->
    parse_loop fuel char_signed gaps st = parse_loop fuel char_signed gaps' st.
Proof.
  induction fuel as [|fuel IH]; intros gaps gaps' st Hd Hincl Hcur Hg Hg';
    cbn [parse_loop]; [reflexivity|].
  rewrite <- (parse_round_placement char_signed (gaps 0%nat) (gaps' 0%nat) st Hd)
    by (intros s Hs; split; [apply Hg | apply Hg']; auto).
  destruct (parse_round char_signed (gaps 0%nat) st) as [[st'|done]| | |] eqn:R;
    cbn [rbind]; try reflexivity.
  destruct (parse_round_goes_on char_signed (gaps 0%nat) st st' L Hd) as (Hd' & Hi' & Hc');
    [intros s Hs; apply Hg; auto | easy | easy |].
  apply IH; try easy.
  - intros k s cur. apply (Hg (S k)).
  - intros k s cur. apply (Hg' (S k)).
Qed.

End Placement.

(** X18.  The result of [parse] does not depend on where the allocator
    puts the tokens: under any two placements that keep the buffer of a
    moved token apart from the buffer in which the moved-from string begins,
    [parse] returns the same arena and hash table, or throws the same
    exception, and [create] leaves the same exit code and file. *)
Theorem parse_placement_independent (char_signed : bool) (gaps gaps' : nat -> Z)
    (d : Dawg) (text : list ascii) :
  kept_apart gaps (tokens text) -> kept_apart gaps' (tokens text) ->
  parse char_signed gaps d (tokens text) = parse char_signed gaps' d (tokens text)
  /\ main_create char_signed gaps text = main_create char_signed gaps' text.
Proof.
  intros Hg Hg'.
  assert (H : forall d0, parse char_signed gaps d0 (tokens text)
                         = parse char_signed gaps' d0 (tokens text)).
  { intros d0. unfold parse. f_equal.
    apply (parse_loop_placement char_signed (tokens text));
      [reflexivity | apply incl_refl | now left | easy | easy]. }
  split; [apply H|]. unfold main_create. now rewrite H.
Qed.

Lemma parse_placement_independent_witness :
  let text := list_ascii_of_string "car abcdefghijklmnopq" in
  main_create false heap_below text = main_create false (fun _ => 4096) text.
Proof.
  intros text.
  apply (parse_placement_independent false heap_below (fun _ => 4096) Dawg_new text).
  - intros k s cur [<-|[<-|[]]] [<-|[<-|[<-|[]]]]; unfold apart, heap_below; cbn; lia.
  - intros k s cur [<-|[<-|[]]] [<-|[<-|[<-|[]]]]; unfold apart; cbn; lia.
Defined.
